(** * SSRS Report Generator: schema discovery, column matching, field coverage

    A shallow embedding of [server/schemaDiscovery.ts] and of
    [evaluateFieldCoverage], which lives in the server module that exports
    [appRouter], followed by the properties of the schema-matching engine.

    Modelling conventions.
    - A JavaScript string is a [string]; every [ascii] stands for one UTF-16
      code unit below 256 (the Latin-1 range).
    - A JavaScript number that holds a score, a ratio or a percentage is an
      exact rational [Q]; an integral count or length is a [nat] or a [Z].
      Arithmetic is therefore exact, where the sources round to binary64
      at every operation. The two can differ in the last place, which
      shows where a value sits exactly on a rounding tie or where two
      scores are equal as rationals: [Binary64] evaluates the percentage
      in binary64 for comparison. The statements about scores, confidences
      and percentages are those that do not depend on the last place:
      bounds, comparisons with the thresholds, maxima, and distances to
      the nearest integer or tenth with the tie left open.
    - The pure functions take an array as the list of its elements. [Store]
      runs the evaluator over a store of arrays, with in-place updates and
      the sort of the engine as a parameter, and the two are proved to
      agree.
    - [throw] / [try]-[catch] are a [result] value; console output and the
      catalogue requests sent over the connection are an explicit event
      trace.
    - [Map] and [Set] objects are stdpp's [gmap] and [gset]. *)

From stdpp Require Import gmap strings.
From Stdlib Require Import String Ascii List ZArith QArith Qround Lia Lqa Bool.
From Stdlib Require Import Permutation Sorted DecimalString.
From Stdlib Require PrimFloat SpecFloat FloatOps Uint63.
Import ListNotations.

(* ===================================================================== *)
(** ** JavaScript built-ins the sources call *)
(* ===================================================================== *)

Module JS.

(** *** Characters and strings *)

Definition charCode (c : ascii) : N := N_of_ascii c.

Definition between (lo hi c : ascii) : bool :=
  (charCode lo <=? charCode c)%N && (charCode c <=? charCode hi)%N.

(** Upper-case letters below code 256: [A-Z], and the Latin-1 block
    U+00C0..U+00DE without the multiplication sign U+00D7. *)
Definition isUpperCase (c : ascii) : bool :=
  between "A" "Z" c
  || ((192 <=? charCode c)%N && (charCode c <=? 222)%N
      && negb (charCode c =? 215)%N).

Definition toLowerCaseChar (c : ascii) : ascii :=
  if isUpperCase c then ascii_of_N (charCode c + 32) else c.

(** [String.prototype.toLowerCase]. *)
Fixpoint toLowerCase (s : string) : string :=
  match s with
  | EmptyString => EmptyString
  | String c s' => String (toLowerCaseChar c) (toLowerCase s')
  end.

(** [s.replace(/[cls]/g, "")] for a character class [cls]: every code unit
    of the class is deleted. *)
Fixpoint removeAll (cls : ascii -> bool) (s : string) : string :=
  match s with
  | EmptyString => EmptyString
  | String c s' =>
      if cls c then removeAll cls s' else String c (removeAll cls s')
  end.

(** [s.replace(/c/g, r)] for a single literal character [c]. *)
Fixpoint replaceAllChar (c : ascii) (r : string) (s : string) : string :=
  match s with
  | EmptyString => EmptyString
  | String d s' =>
      if Ascii.eqb d c then r +:+ replaceAllChar c r s'
      else String d (replaceAllChar c r s')
  end.

(** [/^[cls]+$/.test(s)]: [s] is not empty and every code unit is in the
    class. *)
Fixpoint everyChar (cls : ascii -> bool) (s : string) : bool :=
  match s with
  | EmptyString => true
  | String c s' => cls c && everyChar cls s'
  end.

Definition testOneOrMore (cls : ascii -> bool) (s : string) : bool :=
  negb (String.eqb s "") && everyChar cls s.

(** [String.prototype.includes]: [sub] occurs in [s] as a contiguous
    substring (the empty string occurs everywhere). *)
Fixpoint includes (s sub : string) : bool :=
  if String.prefix sub s then true
  else match s with
       | EmptyString => false
       | String _ s' => includes s' sub
       end.

(** WhiteSpace and LineTerminator code units below 256: TAB, LF, VT, FF, CR,
    SP and NBSP. *)
Definition isWhiteSpace (c : ascii) : bool :=
  ((9 <=? charCode c)%N && (charCode c <=? 13)%N)
  || (charCode c =? 32)%N || (charCode c =? 160)%N.

Fixpoint trimStart (s : string) : string :=
  match s with
  | EmptyString => EmptyString
  | String c s' => if isWhiteSpace c then trimStart s' else s
  end.

Fixpoint trimEnd (s : string) : string :=
  match s with
  | EmptyString => EmptyString
  | String c s' =>
      let t := trimEnd s' in
      if isWhiteSpace c && String.eqb t "" then EmptyString else String c t
  end.

(** [String.prototype.trim]. *)
Definition trim (s : string) : string := trimEnd (trimStart s).

(** [Boolean(s)] for a string: only the empty string is falsy. *)
Definition Boolean (s : string) : bool := negb (String.eqb s "").

(** A template literal [`${z}`] for an integral number. *)
Definition numberToString (z : Z) : string :=
  NilZero.string_of_int (Z.to_int z).

(** *** Arrays *)

(** [Array.from(new Set(l))]: the distinct elements of [l], each at the
    position of its first occurrence. [seen] is the set under
    construction, most recent member first. *)
Fixpoint setInsertAll (seen : list string) (l : list string) : list string :=
  match l with
  | [] => rev seen
  | x :: l' =>
      if existsb (String.eqb x) seen then setInsertAll seen l'
      else setInsertAll (x :: seen) l'
  end.

Definition Array_from_Set (l : list string) : list string :=
  setInsertAll [] l.

Section Sort.
Context {A : Type}.
(** The comparator of [Array.prototype.sort]: a negative result puts its
    first argument first. *)
Variable compareFn : A -> A -> Q.

(** [x] comes from an earlier index than every element of [l], and [l] is
    already in order: [x] is put before the first element that is not
    strictly before it, so equal elements keep their order. *)
Fixpoint insertSorted (x : A) (l : list A) : list A :=
  match l with
  | [] => [x]
  | y :: l' =>
      if Qle_bool (compareFn x y) 0 then x :: y :: l'
      else y :: insertSorted x l'
  end.

(** [Array.prototype.sort(compareFn)], which is stable. *)
Fixpoint sort (l : list A) : list A :=
  match l with
  | [] => []
  | x :: l' => insertSorted x (sort l')
  end.
End Sort.

(** [l.slice(0, limit)] for a natural [limit]. *)
Definition slice0 {A} (limit : nat) (l : list A) : list A := firstn limit l.

(** *** Numbers *)

(** [x > y] and [x >= y]. *)
Definition gt (x y : Q) : bool := negb (Qle_bool x y).
Definition ge (x y : Q) : bool := Qle_bool y x.

(** [Math.round]: the nearest integer, a tie going up. *)
Definition Math_round (x : Q) : Z := Qfloor (x + (1 # 2))%Q.

(** [Number(x.toFixed(digits))]. [toFixed] picks the integer [n] for which
    [n / 10^digits] is nearest to [|x|], the larger one on a tie, and puts
    the sign back; from 10^21 on it prints [x] itself. *)
Definition Number_toFixed (x : Q) (digits : nat) : Q :=
  let scale := inject_Z (10 ^ Z.of_nat digits) in
  let magnitude (y : Q) : Q :=
    if Qle_bool (inject_Z (10 ^ 21)) y then y
    else (inject_Z (Qfloor (y * scale + (1 # 2))) / scale)%Q in
  if gt 0 x then (- magnitude (- x))%Q else magnitude x.

End JS.

(* ===================================================================== *)
(** ** IEEE binary64 for the one expression that rounds a ratio *)
(* ===================================================================== *)

(** The sources compute with doubles. The embedding below computes scores
    and percentages with exact rationals, and its theorems keep to what
    holds for both: comparisons against the thresholds, bounds, and
    nearest-value statements that leave the neighbour open on an exact
    tie. This module evaluates [Math.round((m / u) * 100)] in binary64
    itself, to show where the two differ. *)
Module Binary64.

(** A count as a double (exact below 2^53). *)
Definition ofNat (n : nat) : PrimFloat.float :=
  PrimFloat.of_uint63 (Uint63.of_Z (Z.of_nat n)).

(** The exact value of a finite double. *)
Definition valueOf (x : PrimFloat.float) : Q :=
  match FloatOps.Prim2SF x with
  | SpecFloat.S754_finite negative mantissa exponent =>
      let magnitude :=
        match exponent with
        | Z0 => inject_Z (Zpos mantissa)
        | Zpos e => inject_Z (Zpos mantissa * 2 ^ Zpos e)
        | Zneg e => Zpos mantissa # (2 ^ e)
        end in
      if negative then (- magnitude)%Q else magnitude
  | _ => 0%Q
  end.

(** [Math.round((matchedCount / uniqueFields.length) * 100)] in doubles. *)
Definition coveragePercent (matchedCount uniqueCount : nat) : Z :=
  JS.Math_round
    (valueOf
       (PrimFloat.mul
          (PrimFloat.div (ofNat matchedCount) (ofNat uniqueCount))
          (ofNat 100))).

End Binary64.

(* ===================================================================== *)
(** ** server/schemaDiscovery.ts *)
(* ===================================================================== *)

Module SchemaDiscovery.

Record TableColumn := {
  tableName : string;
  columnName : string;
  dataType : string;
  isNullable : bool;
  isPrimaryKey : bool;
  isForeignKey : bool;
  referencedTable : option string;
  referencedColumn : option string
}.

Record TableRelationship := {
  fromTable : string;
  fromColumn : string;
  toTable : string;
  toColumn : string
}.

Record DatabaseSchema := {
  tables : list string;
  columns : list TableColumn;
  relationships : list TableRelationship
}.

Record ColumnMatch := {
  column : TableColumn;
  score : Q
}.

(** *** Exceptions *)

(** [new Error(message)]. *)
Record Error := { message : string }.

Inductive result (A : Type) : Type :=
| Ok (a : A)
| Throw (e : Error).
Arguments Ok {A} a.
Arguments Throw {A} e.

Definition bind {A B} (r : result A) (k : A -> result B) : result B :=
  match r with
  | Ok a => k a
  | Throw e => Throw e
  end.

(** The class [[\w-]]; the [i] flag adds nothing to it. *)
Definition isWordOrHyphen (c : ascii) : bool :=
  JS.between "a" "z" c || JS.between "A" "Z" c || JS.between "0" "9" c
  || Ascii.eqb c "_" || Ascii.eqb c "-".

Definition formatIdentifier (value : string) : result string :=
  if negb (JS.Boolean value) then
    Throw {| message := "Database name is required" |}
  else if negb (JS.testOneOrMore isWordOrHyphen value) then
    Throw {| message := "Invalid database name: " +:+ value |}
  else
    Ok ("[" +:+ JS.replaceAllChar "]" "]]" value +:+ "]").

(** *** The catalogue behind [getDb()] *)

Record TablesRow := {
  TABLE_SCHEMA : string;
  TABLE_NAME : string
}.

Record ColumnsRow := {
  c_TABLE_SCHEMA : string;
  c_TABLE_NAME : string;
  c_COLUMN_NAME : string;
  DATA_TYPE : string;
  IS_NULLABLE : string;
  (** an [int] column of the catalogue, [null] for non-character types *)
  CHARACTER_MAXIMUM_LENGTH : option Z
}.

Record PrimaryKeysRow := {
  ku_TABLE_SCHEMA : string;
  ku_TABLE_NAME : string;
  ku_COLUMN_NAME : string
}.

Record ForeignKeysRow := {
  FK_SCHEMA : string;
  FK_TABLE : string;
  FK_COLUMN : string;
  PK_SCHEMA : string;
  PK_TABLE : string;
  PK_COLUMN : string
}.

(** The pool [getDb()] resolves to. [db.request().query(sql)] settles to a
    record set or rejects; each field is that one method, read at the row
    type of the view the statement selects from. *)
Record ConnectionPool := {
  queryTables : string -> result (list TablesRow);
  queryColumns : string -> result (list ColumnsRow);
  queryPrimaryKeys : string -> result (list PrimaryKeysRow);
  queryForeignKeys : string -> result (list ForeignKeysRow)
}.

(** What a call does that its caller can observe besides the value. *)
Inductive Event :=
| ConsoleLog (text : string)
| ConsoleError (text : string) (error : Error)
| Query (sql : string).

Definition tablesQuery (dbIdentifier : string) : string :=
  "SELECT TABLE_SCHEMA, TABLE_NAME FROM " +:+ dbIdentifier
  +:+ ".INFORMATION_SCHEMA.TABLES WHERE TABLE_TYPE = 'BASE TABLE' "
  +:+ "ORDER BY TABLE_SCHEMA, TABLE_NAME;".

Definition columnsQuery (dbIdentifier : string) : string :=
  "SELECT c.TABLE_SCHEMA, c.TABLE_NAME, c.COLUMN_NAME, c.DATA_TYPE, "
  +:+ "c.IS_NULLABLE, c.CHARACTER_MAXIMUM_LENGTH FROM " +:+ dbIdentifier
  +:+ ".INFORMATION_SCHEMA.COLUMNS c "
  +:+ "ORDER BY c.TABLE_SCHEMA, c.TABLE_NAME, c.ORDINAL_POSITION;".

Definition primaryKeysQuery (dbIdentifier : string) : string :=
  "SELECT ku.TABLE_SCHEMA, ku.TABLE_NAME, ku.COLUMN_NAME FROM "
  +:+ dbIdentifier +:+ ".INFORMATION_SCHEMA.TABLE_CONSTRAINTS tc JOIN "
  +:+ dbIdentifier +:+ ".INFORMATION_SCHEMA.KEY_COLUMN_USAGE ku "
  +:+ "ON tc.CONSTRAINT_NAME = ku.CONSTRAINT_NAME "
  +:+ "WHERE tc.CONSTRAINT_TYPE = 'PRIMARY KEY';".

Definition foreignKeysQuery (dbIdentifier : string) : string :=
  "SELECT fk.TABLE_SCHEMA AS FK_SCHEMA, fk.TABLE_NAME AS FK_TABLE, "
  +:+ "fk.COLUMN_NAME AS FK_COLUMN, pk.TABLE_SCHEMA AS PK_SCHEMA, "
  +:+ "pk.TABLE_NAME AS PK_TABLE, pk.COLUMN_NAME AS PK_COLUMN FROM "
  +:+ dbIdentifier +:+ ".INFORMATION_SCHEMA.REFERENTIAL_CONSTRAINTS rc JOIN "
  +:+ dbIdentifier +:+ ".INFORMATION_SCHEMA.KEY_COLUMN_USAGE fk "
  +:+ "ON rc.CONSTRAINT_NAME = fk.CONSTRAINT_NAME JOIN "
  +:+ dbIdentifier +:+ ".INFORMATION_SCHEMA.KEY_COLUMN_USAGE pk "
  +:+ "ON rc.UNIQUE_CONSTRAINT_NAME = pk.CONSTRAINT_NAME "
  +:+ "AND fk.ORDINAL_POSITION = pk.ORDINAL_POSITION;".

(** *** Assembling the schema from the four record sets *)

(** [pkSet]: the keys [schema.table.column] of the primary-key rows. *)
Definition buildPkSet (rows : list PrimaryKeysRow) : gset string :=
  fold_left
    (fun pkSet row =>
       pkSet ∪ {[ ku_TABLE_SCHEMA row +:+ "." +:+ ku_TABLE_NAME row
                  +:+ "." +:+ ku_COLUMN_NAME row ]})
    rows ∅.

(** [fkMap]: a later row for the same key replaces the earlier one. *)
Definition buildFkMap (rows : list ForeignKeysRow)
  : gmap string (string * string) :=
  fold_left
    (fun fkMap row =>
       let key := FK_SCHEMA row +:+ "." +:+ FK_TABLE row
                  +:+ "." +:+ FK_COLUMN row in
       let referencedTable := PK_SCHEMA row +:+ "." +:+ PK_TABLE row in
       <[ key := (referencedTable, PK_COLUMN row) ]> fkMap)
    rows ∅.

Definition relationshipOfRow (row : ForeignKeysRow) : TableRelationship :=
  let referencedTable := PK_SCHEMA row +:+ "." +:+ PK_TABLE row in
  {| fromTable := FK_SCHEMA row +:+ "." +:+ FK_TABLE row;
     fromColumn := FK_COLUMN row;
     toTable := referencedTable;
     toColumn := PK_COLUMN row |}.

(** The [dataType] of lines 143-147:
    [maxLength && maxLength > 0 ? `${DATA_TYPE}(${maxLength === -1 ? "max" : maxLength})` : DATA_TYPE]. *)
Definition formatDataType (DATA_TYPE : string) (maxLength : option Z)
  : string :=
  match maxLength with
  | Some n =>
      if negb (n =? 0)%Z && (n >? 0)%Z then
        DATA_TYPE +:+ "("
        +:+ (if (n =? -1)%Z then "max" else JS.numberToString n) +:+ ")"
      else DATA_TYPE
  | None => DATA_TYPE
  end.

Definition columnOfRow (pkSet : gset string)
    (fkMap : gmap string (string * string)) (row : ColumnsRow)
  : TableColumn :=
  let tableName := c_TABLE_SCHEMA row +:+ "." +:+ c_TABLE_NAME row in
  let key := c_TABLE_SCHEMA row +:+ "." +:+ c_TABLE_NAME row
             +:+ "." +:+ c_COLUMN_NAME row in
  let fkInfo := fkMap !! key in
  let maxLength := CHARACTER_MAXIMUM_LENGTH row in
  let dataType := formatDataType (DATA_TYPE row) maxLength in
  {| tableName := tableName;
     columnName := c_COLUMN_NAME row;
     dataType := dataType;
     isNullable := String.eqb (IS_NULLABLE row) "YES";
     isPrimaryKey := bool_decide (key ∈ pkSet);
     isForeignKey := match fkInfo with Some _ => true | None => false end;
     referencedTable := fst <$> fkInfo;
     referencedColumn := snd <$> fkInfo |}.

Definition assembleSchema (tablesResult : list TablesRow)
    (columnsResult : list ColumnsRow) (pkResult : list PrimaryKeysRow)
    (fkResult : list ForeignKeysRow) : DatabaseSchema :=
  let pkSet := buildPkSet pkResult in
  let fkMap := buildFkMap fkResult in
  let relationships := map relationshipOfRow fkResult in
  let columns := map (columnOfRow pkSet fkMap) columnsResult in
  let tables :=
    map (fun row => TABLE_SCHEMA row +:+ "." +:+ TABLE_NAME row)
      tablesResult in
  {| tables := tables; columns := columns; relationships := relationships |}.

(** *** The built-in mock schema *)

(** One object literal of the [columns] array, fields in source order. *)
Definition mkColumn (tableName columnName dataType : string)
    (isNullable isPrimaryKey isForeignKey : bool)
    (referencedTable referencedColumn : option string) : TableColumn :=
  {| tableName := tableName; columnName := columnName;
     dataType := dataType; isNullable := isNullable;
     isPrimaryKey := isPrimaryKey; isForeignKey := isForeignKey;
     referencedTable := referencedTable;
     referencedColumn := referencedColumn |}.

Definition mockColumns : list TableColumn := [
    mkColumn "PurchaseOrders" "OrderId" "int" false true false None None;
    mkColumn "PurchaseOrders" "Date" "date" false false false None None;
    mkColumn "PurchaseOrders" "OrderNumber" "nvarchar" false false false None None;
    mkColumn "PurchaseOrders" "LocationId" "int" false false true (Some "Locations") (Some "LocationId");
    mkColumn "PurchaseOrders" "ItemId" "int" false false true (Some "Items") (Some "ItemId");
    mkColumn "PurchaseOrders" "SuggestedQuantity" "decimal" false false false None None;
    mkColumn "PurchaseOrders" "ActualOrderQuantity" "decimal" true false false None None;
    mkColumn "PurchaseOrders" "ConsumptionDays" "int" false false false None None;
    mkColumn "PurchaseOrders" "BufferDays" "int" false false false None None;
    mkColumn "PurchaseOrders" "EstimatedNeed" "decimal" false false false None None;
    mkColumn "Locations" "LocationId" "int" false true false None None;
    mkColumn "Locations" "LocationName" "nvarchar" false false false None None;
    mkColumn "Items" "ItemId" "int" false true false None None;
    mkColumn "Items" "ItemName" "nvarchar" false false false None None;
    mkColumn "Items" "OrderingUnitOfMeasure" "nvarchar" false false false None None;
    mkColumn "Items" "InventoryUnitOfMeasure" "nvarchar" false false false None None;
    mkColumn "Items" "CaseSize" "int" false false false None None;
    mkColumn "Inventory" "InventoryId" "int" false true false None None;
    mkColumn "Inventory" "OrderId" "int" false false true (Some "PurchaseOrders") (Some "OrderId");
    mkColumn "Inventory" "ActualOnHand" "decimal" false false false None None;
    mkColumn "Inventory" "TheoreticalOnHand" "decimal" false false false None None;
    mkColumn "Inventory" "PostConsumptionSuggested" "decimal" false false false None None;
    mkColumn "Inventory" "PostConsumptionOrdered" "decimal" false false false None None;
    mkColumn "Inventory" "PostConsumptionVariance" "decimal" false false false None None;
    mkColumn "Transfers" "TransferId" "int" false true false None None;
    mkColumn "Transfers" "OrderId" "int" false false true (Some "PurchaseOrders") (Some "OrderId");
    mkColumn "Transfers" "TransferQuantity" "decimal" false false false None None;
    mkColumn "Waste" "WasteId" "int" false true false None None;
    mkColumn "Waste" "OrderId" "int" false false true (Some "PurchaseOrders") (Some "OrderId");
    mkColumn "Waste" "WasteQuantity" "decimal" false false false None None;
    mkColumn "Usage" "UsageId" "int" false true false None None;
    mkColumn "Usage" "OrderId" "int" false false true (Some "PurchaseOrders") (Some "OrderId");
    mkColumn "Usage" "EstimatedUsage" "decimal" false false false None None ].

Definition mockRelationships : list TableRelationship := [
    {| fromTable := "PurchaseOrders"; fromColumn := "LocationId"; toTable := "Locations"; toColumn := "LocationId" |};
    {| fromTable := "PurchaseOrders"; fromColumn := "ItemId"; toTable := "Items"; toColumn := "ItemId" |};
    {| fromTable := "Inventory"; fromColumn := "OrderId"; toTable := "PurchaseOrders"; toColumn := "OrderId" |};
    {| fromTable := "Transfers"; fromColumn := "OrderId"; toTable := "PurchaseOrders"; toColumn := "OrderId" |};
    {| fromTable := "Waste"; fromColumn := "OrderId"; toTable := "PurchaseOrders"; toColumn := "OrderId" |};
    {| fromTable := "Usage"; fromColumn := "OrderId"; toTable := "PurchaseOrders"; toColumn := "OrderId" |} ].

Definition generateMockDatabaseSchema : DatabaseSchema :=
  {| tables := ["PurchaseOrders"; "Locations"; "Items"; "Inventory";
                "Transfers"; "Waste"; "Usage"];
     columns := mockColumns;
     relationships := mockRelationships |}.

(** *** discoverDatabaseSchema *)

(** The body of the [try] block, with the events it causes. [db] is what
    [await getDb()] gave: [None] for [null]. The four requests of
    [Promise.all] are all sent before any answer is awaited; when several
    reject, the model reports the first in array order. *)
Definition discoverTryBlock (db : option ConnectionPool)
    (databaseName : string) : list Event * result (option DatabaseSchema) :=
  match db with
  | None =>
      ([ConsoleLog
          "[SchemaDiscovery] No database connection available, using mock schema"],
       Ok (Some generateMockDatabaseSchema))
  | Some db =>
      match formatIdentifier databaseName with
      | Throw e => ([], Throw e)
      | Ok dbIdentifier =>
          let tablesQuery := tablesQuery dbIdentifier in
          let columnsQuery := columnsQuery dbIdentifier in
          let primaryKeysQuery := primaryKeysQuery dbIdentifier in
          let foreignKeysQuery := foreignKeysQuery dbIdentifier in
          ([Query tablesQuery; Query columnsQuery; Query primaryKeysQuery;
            Query foreignKeysQuery],
           bind (queryTables db tablesQuery) (fun tablesResult =>
           bind (queryColumns db columnsQuery) (fun columnsResult =>
           bind (queryPrimaryKeys db primaryKeysQuery) (fun pkResult =>
           bind (queryForeignKeys db foreignKeysQuery) (fun fkResult =>
           Ok (Some (assembleSchema tablesResult columnsResult pkResult
                       fkResult)))))))
      end
  end.

(** The whole function: the [catch] clause turns every exception of the
    [try] block into the mock schema. The result is how the returned
    promise settles: [Ok] fulfilled, [Throw] rejected. *)
Definition discoverDatabaseSchema (db : option ConnectionPool)
    (databaseName : string) : list Event * result (option DatabaseSchema) :=
  let (events, outcome) := discoverTryBlock db databaseName in
  match outcome with
  | Ok schema => (events, Ok schema)
  | Throw error =>
      (events ++
         [ConsoleError "[SchemaDiscovery] Error discovering schema:" error],
       Ok (Some generateMockDatabaseSchema))
  end.

(** *** Column matching *)

Definition MATCH_THRESHOLD : Q := 0.35.

Definition normalizeIdentifier (value : string) : string :=
  JS.removeAll
    (fun c => negb (JS.between "a" "z" c || JS.between "0" "9" c))
    (JS.toLowerCase value).

(** [s.length] as a number. *)
Definition lengthOf (s : string) : Q := inject_Z (Z.of_nat (String.length s)).

(** The quotients and sums are exact here. *)
Definition scoreColumnMatch (normalizedField : string) (column : TableColumn)
  : Q :=
  let normalizedColumn := normalizeIdentifier (columnName column) in
  let score : Q := 0 in
  let score :=
    if String.eqb normalizedColumn normalizedField then 1
    else if JS.includes normalizedColumn normalizedField then
      lengthOf normalizedField / lengthOf normalizedColumn
    else if JS.includes normalizedField normalizedColumn then
      (lengthOf normalizedColumn / lengthOf normalizedField) * 0.8
    else score in
  let score :=
    if JS.includes normalizedField normalizedColumn
       || JS.includes normalizedColumn normalizedField
    then score + 0.3 else score in
  let score :=
    if JS.includes normalizedField "qty"
       && JS.includes normalizedColumn "quantity"
    then score + 0.2 else score in
  let score :=
    if JS.includes normalizedField "uom"
       && JS.includes normalizedColumn "unitofmeasure"
    then score + 0.2 else score in
  let score :=
    if JS.includes normalizedField "onhand"
       && JS.includes normalizedColumn "onhand"
    then score + 0.3 else score in
  let score :=
    if JS.includes normalizedField "revenue"
       && JS.includes normalizedColumn "amount"
    then score + 0.15 else score in
  let score :=
    if JS.includes normalizedField "customer"
       && JS.includes normalizedColumn "customer"
    then score + 0.15 else score in
  let score :=
    if JS.includes normalizedField "sales"
       && JS.includes normalizedColumn "sales"
    then score + 0.15 else score in
  score.

(** The [for] loop of [getTopColumnMatches]: [scored.push] for every column
    whose score is above 0. *)
Definition scoreColumns (normalizedField : string)
    (columns : list TableColumn) : list ColumnMatch :=
  fold_left
    (fun scored col =>
       let score := scoreColumnMatch normalizedField col in
       if JS.gt score 0 then scored ++ [{| column := col; score := score |}]
       else scored)
    columns [].

Definition getTopColumnMatches (fieldName : string) (schema : DatabaseSchema)
    (limit : nat) : list ColumnMatch :=
  let normalizedField := normalizeIdentifier fieldName in
  let scored := scoreColumns normalizedField (columns schema) in
  JS.slice0 limit (JS.sort (fun a b => score b - score a) scored).

Definition findColumnMatch (fieldName : string) (schema : DatabaseSchema)
  : option ColumnMatch :=
  match getTopColumnMatches fieldName schema 1 with
  | best :: _ =>
      if JS.ge (score best) MATCH_THRESHOLD then Some best else None
  | [] => None
  end.

End SchemaDiscovery.

(* ===================================================================== *)
(** ** The router module of the server: the coverage evaluator *)
(* ===================================================================== *)

Module Routers.
Import SchemaDiscovery.

(** An element of [matchedFields]. *)
Module MatchedField.
Record t := mk {
  name : string;
  column : string;
  confidence : Q
}.
End MatchedField.

(** An element of [missingFields]. *)
Module MissingField.
Record t := mk {
  name : string;
  suggestions : list string
}.
End MissingField.

(** The object [evaluateFieldCoverage] returns. [coveragePercent] is a
    literal or the value of [Math.round], hence an integer. *)
Record CoverageReport := {
  coveragePercent : Z;
  matchedFields : list MatchedField.t;
  missingFields : list MissingField.t
}.

(** [Array.from(new Set(fieldNames.map(field => field.trim()).filter(Boolean)))]. *)
Definition uniqueFieldsOf (fieldNames : list string) : list string :=
  JS.Array_from_Set (filter JS.Boolean (map JS.trim fieldNames)).

(** [`${c.tableName}.${c.columnName}`]. *)
Definition qualifiedName (c : TableColumn) : string :=
  tableName c +:+ "." +:+ columnName c.

(** The variables the [forEach] callback updates. *)
Record Tally := {
  matchedCount : nat;
  matched : list MatchedField.t;
  missing : list MissingField.t
}.

(** One call of the [forEach] callback. *)
Definition visitField (schema : DatabaseSchema) (acc : Tally)
    (field : string) : Tally :=
  let matches := getTopColumnMatches field schema 3 in
  let best := hd_error matches in
  let otherwise :=
    {| matchedCount := matchedCount acc;
       matched := matched acc;
       missing :=
         missing acc ++
           [MissingField.mk field
              (map (fun m => qualifiedName (SchemaDiscovery.column m))
                 matches)] |} in
  match best with
  | Some best =>
      if JS.ge (score best) 0.35 then
        {| matchedCount := S (matchedCount acc);
           matched :=
             matched acc ++
               [MatchedField.mk field
                  (qualifiedName (SchemaDiscovery.column best))
                  (JS.Number_toFixed (score best * 100) 1)];
           missing := missing acc |}
      else otherwise
  | None => otherwise
  end.

(** [Math.round] is applied to the exact ratio here;
    [Binary64.coveragePercent] is the same expression in doubles. *)
Definition evaluateFieldCoverage (schema : option DatabaseSchema)
    (fieldNames : list string) : CoverageReport :=
  match schema, fieldNames with
  | None, _ | _, [] =>
      {| coveragePercent := match fieldNames with [] => 100 | _ => 0 end;
         matchedFields := [];
         missingFields := [] |}
  | Some schema, _ =>
      let uniqueFields := uniqueFieldsOf fieldNames in
      let final :=
        fold_left (visitField schema) uniqueFields
          {| matchedCount := 0; matched := []; missing := [] |} in
      let coveragePercent :=
        match length uniqueFields with
        | O => 100%Z
        | _ =>
            JS.Math_round
              (inject_Z (Z.of_nat (matchedCount final))
               / inject_Z (Z.of_nat (length uniqueFields)) * 100)
        end in
      {| coveragePercent := coveragePercent;
         matchedFields := matched final;
         missingFields := missing final |}
  end.

End Routers.

(* ===================================================================== *)
(** ** server/db.ts: the pool and the list of databases *)
(* ===================================================================== *)

Module Db.
Import SchemaDiscovery.

(** A row of [sys.databases] as the statement selects it. *)
Record DatabasesRow := { name : string }.

(** The pool as [getAllDatabases] uses it: the catalogue views of
    [SchemaDiscovery], and the same [query] method read at the row type of
    [sys.databases]. *)
Record Pool := {
  catalog : ConnectionPool;
  queryDatabases : string -> result (list DatabasesRow)
}.

(** [process.env]: a variable is a string or is not set. *)
Record Env := {
  SQLSERVER_HOST : option string;
  SQLSERVER_DATABASE : option string;
  SQLSERVER_USER : option string;
  SQLSERVER_PASSWORD : option string;
  SQLSERVER_PORT : option string
}.

(** The object passed to [mssql.connect]. [port] is the argument of
    [Number(...)]: the text of [SQLSERVER_PORT], or the literal 1433. *)
Record Config := {
  server : string;
  database : string;
  user : string;
  password : string;
  port : string + Z;
  encrypt : bool;
  trustServerCertificate : bool
}.

Inductive DbEvent :=
| ConsoleWarn (text : string) (error : option Error)
| Connect (config : Config).

(** [!x] for an environment variable: not set, or the empty string. *)
Definition unset (x : option string) : bool :=
  match x with
  | Some s => negb (JS.Boolean s)
  | None => true
  end.

(** [getDb]. [_pool] is the module variable before the call; the second
    component is the module variable after it, which is also the value
    the call returns. [connect] is what [mssql.connect] does at the time
    of the call. *)
Definition getDb (env : Env) (connect : Config -> result Pool)
    (_pool : option Pool) : list DbEvent * option Pool :=
  match _pool with
  | Some pool => ([], Some pool)
  | None =>
      if unset (SQLSERVER_HOST env) || unset (SQLSERVER_DATABASE env)
         || unset (SQLSERVER_USER env) || unset (SQLSERVER_PASSWORD env)
      then
        ([ConsoleWarn
            "[Database] SQL Server environment variables are not fully configured"
            None],
         None)
      else
        let config :=
          {| server := default "" (SQLSERVER_HOST env);
             database := default "" (SQLSERVER_DATABASE env);
             user := default "" (SQLSERVER_USER env);
             password := default "" (SQLSERVER_PASSWORD env);
             port := match SQLSERVER_PORT env with
                     | Some text => inl text
                     | None => inr 1433%Z
                     end;
             encrypt := true;
             trustServerCertificate := true |} in
        match connect config with
        | Ok pool => ([Connect config], Some pool)
        | Throw error =>
            ([Connect config;
              ConsoleWarn "[Database] Failed to connect to SQL Server:"
                (Some error)],
             None)
        end
  end.

(** Calls of [getDb] one after another, each with the environment and
    the server as they are at its time. *)
Fixpoint getDbCalls (calls : list (Env * (Config -> result Pool)))
    (_pool : option Pool) : list DbEvent * option Pool :=
  match calls with
  | [] => ([], _pool)
  | (env, connect) :: calls' =>
      let (events, _pool') := getDb env connect _pool in
      let (events', final) := getDbCalls calls' _pool' in
      (events ++ events', final)
  end.

(** [getAllDatabases], given what [await getDb()] resolved to. *)
Definition getAllDatabases (pool : option Pool)
  : list Event * list string :=
  match pool with
  | None => ([], [])
  | Some pool =>
      let sql :=
        "SELECT name FROM sys.databases WHERE database_id > 4 ORDER BY name" in
      match queryDatabases pool sql with
      | Ok recordset => ([Query sql], map name recordset)
      | Throw e =>
          ([Query sql;
            ConsoleError "[Database] Failed to fetch databases:" e],
           [])
      end
  end.

End Db.

(* ===================================================================== *)
(** ** The router module of the server: the procedures around discovery *)
(* ===================================================================== *)

Module Procedures.
Import SchemaDiscovery Routers.

(** [Array.prototype.join]. *)
Fixpoint join (separator : string) (l : list string) : string :=
  match l with
  | [] => ""
  | [x] => x
  | x :: l' => x +:+ separator +:+ join separator l'
  end.

(** The line feed of ["\n"]. *)
Definition newline : string := String (ascii_of_nat 10) EmptyString.

(** The [reduce] of [summarizeSchema]: the columns of each table, in the
    order of [schema.columns]. *)
Definition groupByTable (columns : list TableColumn)
  : gmap string (list TableColumn) :=
  fold_left
    (fun acc col =>
       let next := default [] (acc !! tableName col) in
       <[ tableName col := next ++ [col] ]> acc)
    columns ∅.

(** The text of one column in a table line. *)
Definition describeColumn (col : TableColumn) : string :=
  let decorators :=
    (if isPrimaryKey col then ["PK"] else [])
    ++ (if isForeignKey col then ["FK"] else []) in
  let suffix :=
    match length decorators with
    | O => ""
    | _ => " " +:+ join "/" decorators
    end in
  columnName col +:+ " (" +:+ dataType col +:+ ")" +:+ suffix.

(** The line pushed for one table. *)
Definition tableLine (grouped : gmap string (list TableColumn))
    (tableName : string) : string :=
  let columns :=
    join ", "
      (map describeColumn
         (JS.slice0 6 (default [] (grouped !! tableName)))) in
  tableName +:+ ": "
  +:+ (if JS.Boolean columns then columns else "columns not available").

(** The array [lines] when [summarizeSchema] returns. *)
Definition summaryLines (schema : DatabaseSchema) : list string :=
  let grouped := groupByTable (columns schema) in
  let tablesToDescribe := JS.slice0 12 (tables schema) in
  let lines := map (tableLine grouped) tablesToDescribe in
  if (length tablesToDescribe <? length (tables schema))%nat then
    lines ++
      ["...and "
       +:+ JS.numberToString
             (Z.of_nat (length (tables schema))
              - Z.of_nat (length tablesToDescribe))
       +:+ " more tables"]
  else lines.

Definition summarizeSchema (databaseName : string)
    (schema : option DatabaseSchema) : string :=
  match schema with
  | None => "Schema information for " +:+ databaseName +:+ " is unavailable."
  | Some schema =>
      "Database: " +:+ databaseName +:+ newline
      +:+ join newline (summaryLines schema)
  end.

(** [report.customerDatabases], given the value of [getAllDatabases()]. *)
Definition customerDatabases (databases : list string) : list string :=
  match databases with
  | [] => ["SampleInventory"]
  | _ => databases
  end.

(** An element of the array [report.getFieldMetadata] returns. *)
Module FieldMetadata.
Record t := mk {
  name : string;
  type : string;
  description : option string
}.
End FieldMetadata.

(** [`${x}`] for an optional string property: a missing one prints as
    [undefined]. *)
Definition templateOfOptional (x : option string) : string :=
  match x with
  | Some s => s
  | None => "undefined"
  end.

Definition fieldMetadataOfColumn (col : TableColumn) : FieldMetadata.t :=
  FieldMetadata.mk
    (tableName col +:+ "." +:+ columnName col)
    (dataType col)
    (if isForeignKey col then
       Some ("References " +:+ templateOfOptional (referencedTable col)
             +:+ "." +:+ templateOfOptional (referencedColumn col))
     else if isPrimaryKey col then Some "Primary key"
     else None).

(** [report.getFieldMetadata]: discovery, then one entry per column; an
    absent schema or an exception gives the empty array. *)
Definition getFieldMetadata (db : option ConnectionPool)
    (databaseName : string) : list Event * list FieldMetadata.t :=
  let (events, outcome) := discoverDatabaseSchema db databaseName in
  match outcome with
  | Ok (Some schema) => (events, map fieldMetadataOfColumn (columns schema))
  | Ok None =>
      (events ++
         [ConsoleLog "[Report] No schema discovered, returning empty metadata"],
       [])
  | Throw error =>
      (events ++ [ConsoleError "Field metadata error:" error], [])
  end.

End Procedures.

(* ===================================================================== *)
(** ** Sample inputs used by the examples below *)
(* ===================================================================== *)

Module Samples.
Import SchemaDiscovery.

(** A catalogue with one table [dbo.T]: [Name nvarchar(max)], reported by
    the driver with length -1, and the key [Code varchar(50)]. *)
Definition pool : ConnectionPool :=
  {| queryTables := fun _ =>
       Ok [ {| TABLE_SCHEMA := "dbo"; TABLE_NAME := "T" |} ];
     queryColumns := fun _ =>
       Ok [ {| c_TABLE_SCHEMA := "dbo"; c_TABLE_NAME := "T";
               c_COLUMN_NAME := "Name"; DATA_TYPE := "nvarchar";
               IS_NULLABLE := "YES";
               CHARACTER_MAXIMUM_LENGTH := Some (-1)%Z |};
            {| c_TABLE_SCHEMA := "dbo"; c_TABLE_NAME := "T";
               c_COLUMN_NAME := "Code"; DATA_TYPE := "varchar";
               IS_NULLABLE := "NO";
               CHARACTER_MAXIMUM_LENGTH := Some 50%Z |} ];
     queryPrimaryKeys := fun _ =>
       Ok [ {| ku_TABLE_SCHEMA := "dbo"; ku_TABLE_NAME := "T";
               ku_COLUMN_NAME := "Code" |} ];
     queryForeignKeys := fun _ => Ok [] |}.

Definition orderId : TableColumn :=
  mkColumn "PurchaseOrders" "OrderId" "int" false true false None None.

Definition suggestedQuantity : TableColumn :=
  mkColumn "PurchaseOrders" "SuggestedQuantity" "decimal" false false false
    None None.

End Samples.

(* ===================================================================== *)
(** ** The evaluator over a store of arrays *)
(* ===================================================================== *)

(** The pure functions above treat an array as its list of elements. This
    module runs the same statements over a store, in which the arrays the
    sources update in place ([push], [sort], [matchedCount++]) and the two
    arrays handed to the evaluator are cells, and every other cell stands
    for whatever else the program holds. An object literal, and an array
    nothing updates once it is built, is the value it holds. The sort is
    the one the engine provides, and it is a parameter. *)
Module Store.
Import SchemaDiscovery Routers.

(** The address of an array or of a variable a closure updates. *)
Abbreviation ref := nat.

Inductive Cell :=
| Strings (elements : list string)
| Columns (elements : list TableColumn)
| Relationships (elements : list TableRelationship)
| Matches (elements : list ColumnMatch)
| MatchedFields (elements : list MatchedField.t)
| MissingFields (elements : list MissingField.t)
| Counter (value : nat).

Abbreviation Heap := (list Cell).

(** A [DatabaseSchema] object: its three arrays. *)
Record SchemaObject := {
  tables : ref;
  columns : ref;
  relationships : ref
}.

(** The object [evaluateFieldCoverage] returns. *)
Record ReportObject := {
  coveragePercent : Z;
  matchedFields : ref;
  missingFields : ref
}.

(** A computation over the store; [None] when it reads an address that
    holds no array of the expected kind, or when a loop exceeds its
    bound. *)
Definition M (A : Type) : Type := Heap -> option (A * Heap).

Definition ret {A} (a : A) : M A := fun h => Some (a, h).

Definition bind {A B} (m : M A) (k : A -> M B) : M B :=
  fun h =>
    match m h with
    | Some (a, h') => k a h'
    | None => None
    end.

Definition stuck {A} : M A := fun _ => None.

#[local] Notation "x <- m ;; k" := (bind m (fun x => k))
  (at level 100, m at level 99, right associativity).
#[local] Notation "m ;; k" := (bind m (fun _ => k))
  (at level 100, right associativity).

(** An array literal, or the array a built-in returns. *)
Definition alloc (c : Cell) : M ref :=
  fun h => Some (length h, h ++ [c]).

Definition read (r : ref) : M Cell :=
  fun h =>
    match h !! r with
    | Some c => Some (c, h)
    | None => None
    end.

Definition write (r : ref) (c : Cell) : M unit :=
  fun h =>
    match h !! r with
    | Some _ => Some (tt, <[r := c]> h)
    | None => None
    end.

Definition readStrings (r : ref) : M (list string) :=
  c <- read r;;
  match c with Strings l => ret l | _ => stuck end.

Definition readColumns (r : ref) : M (list TableColumn) :=
  c <- read r;;
  match c with Columns l => ret l | _ => stuck end.

Definition readMatches (r : ref) : M (list ColumnMatch) :=
  c <- read r;;
  match c with Matches l => ret l | _ => stuck end.

Definition readCounter (r : ref) : M nat :=
  c <- read r;;
  match c with Counter n => ret n | _ => stuck end.

(** [array.push(x)] at the three element types. *)
Definition pushMatch (r : ref) (x : ColumnMatch) : M unit :=
  c <- read r;;
  match c with Matches l => write r (Matches (l ++ [x])) | _ => stuck end.

Definition pushMatched (r : ref) (x : MatchedField.t) : M unit :=
  c <- read r;;
  match c with
  | MatchedFields l => write r (MatchedFields (l ++ [x]))
  | _ => stuck
  end.

Definition pushMissing (r : ref) (x : MissingField.t) : M unit :=
  c <- read r;;
  match c with
  | MissingFields l => write r (MissingFields (l ++ [x]))
  | _ => stuck
  end.

(** [variable++]. *)
Definition increment (r : ref) : M unit :=
  n <- readCounter r;;
  write r (Counter (S n)).

(** [for (const x of array) body], from [index] on: the iterator reads the
    array afresh at every step and stops at its current end. [fuel] bounds
    the number of steps. *)
Fixpoint forOf (fuel : nat) (array : ref) (index : nat)
    (body : TableColumn -> M unit) : M unit :=
  match fuel with
  | O => stuck
  | S fuel' =>
      l <- readColumns array;;
      match l !! index with
      | Some x => body x;; forOf fuel' array (S index) body
      | None => ret tt
      end
  end.

Fixpoint forIndices (indices : list nat) (body : nat -> M unit) : M unit :=
  match indices with
  | [] => ret tt
  | k :: rest => body k;; forIndices rest body
  end.

(** [array.forEach(callback)]: the length is read once, and each element
    when its turn comes. *)
Definition forEach (array : ref) (callback : string -> M unit) : M unit :=
  l <- readStrings array;;
  forIndices (seq 0 (length l))
    (fun k =>
       l' <- readStrings array;;
       match l' !! k with
       | Some x => callback x
       | None => ret tt
       end).

Section Evaluator.
(** [Array.prototype.sort] of the engine, on arrays of matches. *)
Variable Array_sort :
  (ColumnMatch -> ColumnMatch -> Q) -> list ColumnMatch -> list ColumnMatch.
(** The bound on the steps of one [for]-[of] loop. *)
Variable fuel : nat.

(** [array.sort(compareFn)] sorts in place and returns the array. *)
Definition sortInPlace (r : ref) (compareFn : ColumnMatch -> ColumnMatch -> Q)
  : M ref :=
  l <- readMatches r;;
  write r (Matches (Array_sort compareFn l));;
  ret r.

(** [array.slice(0, limit)]. *)
Definition slice0 (r : ref) (limit : nat) : M ref :=
  l <- readMatches r;;
  alloc (Matches (JS.slice0 limit l)).

Definition getTopColumnMatches (fieldName : string) (schema : SchemaObject)
    (limit : nat) : M ref :=
  let normalizedField := normalizeIdentifier fieldName in
  scored <- alloc (Matches []);;
  forOf fuel (columns schema) 0
    (fun col =>
       let score := scoreColumnMatch normalizedField col in
       if JS.gt score 0 then
         pushMatch scored {| SchemaDiscovery.column := col; score := score |}
       else ret tt);;
  sorted <- sortInPlace scored (fun a b => score b - score a);;
  slice0 sorted limit.

(** The [forEach] callback of [evaluateFieldCoverage]; the three addresses
    are the variables it closes over. *)
Definition visitField (schema : SchemaObject)
    (matchedCount matchedFields missingFields : ref) (field : string)
  : M unit :=
  matches <- getTopColumnMatches field schema 3;;
  elements <- readMatches matches;;
  let otherwise :=
    suggested <- readMatches matches;;
    pushMissing missingFields
      (MissingField.mk field
         (map (fun m => qualifiedName (SchemaDiscovery.column m))
            suggested)) in
  match hd_error elements with
  | Some best =>
      if JS.ge (score best) 0.35 then
        increment matchedCount;;
        pushMatched matchedFields
          (MatchedField.mk field
             (qualifiedName (SchemaDiscovery.column best))
             (JS.Number_toFixed (score best * 100) 1))
      else otherwise
  | None => otherwise
  end.

(** [fieldNames.length] is read in either branch of the first test. The
    arrays of [map] and [filter] and the [Set] are out of reach as soon as
    [Array.from] has returned; only its result is allocated. *)
Definition evaluateFieldCoverage (schema : option SchemaObject)
    (fieldNames : ref) : M ReportObject :=
  names <- readStrings fieldNames;;
  match schema, names with
  | None, _ | _, [] =>
      matchedFields <- alloc (MatchedFields []);;
      missingFields <- alloc (MissingFields []);;
      ret {| coveragePercent := match names with [] => 100 | _ => 0 end;
             matchedFields := matchedFields;
             missingFields := missingFields |}
  | Some schema, _ =>
      uniqueFields <- alloc (Strings (uniqueFieldsOf names));;
      matchedCount <- alloc (Counter 0);;
      matchedFields <- alloc (MatchedFields []);;
      missingFields <- alloc (MissingFields []);;
      forEach uniqueFields
        (visitField schema matchedCount matchedFields missingFields);;
      unique <- readStrings uniqueFields;;
      count <- readCounter matchedCount;;
      let coveragePercent :=
        match length unique with
        | O => 100%Z
        | _ =>
            JS.Math_round
              (inject_Z (Z.of_nat count)
               / inject_Z (Z.of_nat (length unique)) * 100)
        end in
      ret {| coveragePercent := coveragePercent;
             matchedFields := matchedFields;
             missingFields := missingFields |}
  end.

End Evaluator.

(** The schema and the report as the store holds them. *)
Definition readSchema (h : Heap) (schema : SchemaObject)
  : option DatabaseSchema :=
  match h !! tables schema, h !! columns schema, h !! relationships schema with
  | Some (Strings t), Some (Columns c), Some (Relationships r) =>
      Some {| SchemaDiscovery.tables := t;
              SchemaDiscovery.columns := c;
              SchemaDiscovery.relationships := r |}
  | _, _, _ => None
  end.

Definition readReport (h : Heap) (report : ReportObject)
  : option CoverageReport :=
  match h !! matchedFields report, h !! missingFields report with
  | Some (MatchedFields matched), Some (MissingFields missing) =>
      Some {| Routers.coveragePercent := coveragePercent report;
              Routers.matchedFields := matched;
              Routers.missingFields := missing |}
  | _, _ => None
  end.

End Store.

Import SchemaDiscovery Routers.

(* ===================================================================== *)
(** ** Vocabulary of the statements *)
(* ===================================================================== *)

(** The class [[a-z0-9]] that [normalizeIdentifier] keeps. *)
Definition isLowerAlnum (c : ascii) : bool :=
  JS.between "a" "z" c || JS.between "0" "9" c.

(** The class [[A-Za-z0-9]], and whether a string has a character of it. *)
Definition isAsciiAlnum (c : ascii) : bool :=
  JS.between "A" "Z" c || JS.between "a" "z" c || JS.between "0" "9" c.

Fixpoint hasAsciiAlnum (s : string) : bool :=
  match s with
  | EmptyString => false
  | String c s' => isAsciiAlnum c || hasAsciiAlnum s'
  end.

(** The six synonym boosts of [scoreColumnMatch], summed. *)
Definition synonymBoosts (normalizedField normalizedColumn : string) : Q :=
  (if JS.includes normalizedField "qty"
      && JS.includes normalizedColumn "quantity" then 0.2 else 0)
  + (if JS.includes normalizedField "uom"
        && JS.includes normalizedColumn "unitofmeasure" then 0.2 else 0)
  + (if JS.includes normalizedField "onhand"
        && JS.includes normalizedColumn "onhand" then 0.3 else 0)
  + (if JS.includes normalizedField "revenue"
        && JS.includes normalizedColumn "amount" then 0.15 else 0)
  + (if JS.includes normalizedField "customer"
        && JS.includes normalizedColumn "customer" then 0.15 else 0)
  + (if JS.includes normalizedField "sales"
        && JS.includes normalizedColumn "sales" then 0.15 else 0).

(** The containment base score and its flat boost. *)
Definition containmentScore (normalizedField normalizedColumn : string) : Q :=
  (if String.eqb normalizedColumn normalizedField then 1
   else if JS.includes normalizedColumn normalizedField then
     lengthOf normalizedField / lengthOf normalizedColumn
   else if JS.includes normalizedField normalizedColumn then
     (lengthOf normalizedColumn / lengthOf normalizedField) * 0.8
   else 0)
  + (if JS.includes normalizedField normalizedColumn
        || JS.includes normalizedColumn normalizedField
     then 0.3 else 0).

(** The comparator [(a, b) => key(b) - key(a)]: descending by key. *)
Definition descending {A} (key : A -> Q) (a b : A) : Q := key b - key a.

(** [a] may stand before [b] in a list that is descending by key. *)
Definition keyGe {A} (key : A -> Q) (a b : A) : Prop := key b <= key a.

(** A column paired with its score for a normalized field. *)
Definition candidate (normalizedField : string) (c : TableColumn)
  : ColumnMatch :=
  {| SchemaDiscovery.column := c;
     score := scoreColumnMatch normalizedField c |}.

(** The test [score > 0] of the scoring loop. *)
Definition scoresAboveZero (normalizedField : string) (c : TableColumn)
  : bool :=
  JS.gt (scoreColumnMatch normalizedField c) 0.

(** What one call of the [forEach] callback pushes: an entry of
    [matchedFields] or an entry of [missingFields]. *)
Definition classify (schema : DatabaseSchema) (field : string)
  : MatchedField.t + MissingField.t :=
  let matches := getTopColumnMatches field schema 3 in
  let missingEntry :=
    MissingField.mk field
      (map (fun m => qualifiedName (SchemaDiscovery.column m)) matches) in
  match hd_error matches with
  | Some best =>
      if JS.ge (score best) 0.35 then
        inl (MatchedField.mk field
               (qualifiedName (SchemaDiscovery.column best))
               (JS.Number_toFixed (score best * 100) 1))
      else inr missingEntry
  | None => inr missingEntry
  end.

Fixpoint lefts {A B} (l : list (A + B)) : list A :=
  match l with
  | [] => []
  | inl a :: l' => a :: lefts l'
  | inr _ :: l' => lefts l'
  end.

Fixpoint rights {A B} (l : list (A + B)) : list B :=
  match l with
  | [] => []
  | inl _ :: l' => rights l'
  | inr b :: l' => b :: rights l'
  end.

(** The requested name an entry carries. *)
Definition entryName (e : MatchedField.t + MissingField.t) : string :=
  match e with
  | inl m => MatchedField.name m
  | inr e => MissingField.name e
  end.

(** The reading of the suggestion list the specification gives: the three
    best scored columns of the whole schema, whatever their score. *)
Definition topThreeRegardlessOfScore (fieldName : string)
    (schema : DatabaseSchema) : list string :=
  map (fun m => qualifiedName (SchemaDiscovery.column m))
    (firstn 3
       (JS.sort (descending score)
          (map (candidate (normalizeIdentifier fieldName))
             (columns schema)))).

(** The SQL texts among the events of a call, in the order sent. *)
Fixpoint queriesOf (events : list Event) : list string :=
  match events with
  | [] => []
  | Query sql :: events' => sql :: queriesOf events'
  | _ :: events' => queriesOf events'
  end.

(** Whether a request was rejected. *)
Definition rejected {A} (r : result A) : bool :=
  match r with
  | Ok _ => false
  | Throw _ => true
  end.

(** The keys [schema.table.column] the discovery builds from its rows. *)
Definition columnKey (row : ColumnsRow) : string :=
  c_TABLE_SCHEMA row +:+ "." +:+ c_TABLE_NAME row
  +:+ "." +:+ c_COLUMN_NAME row.

Definition primaryKeyKey (row : PrimaryKeysRow) : string :=
  ku_TABLE_SCHEMA row +:+ "." +:+ ku_TABLE_NAME row
  +:+ "." +:+ ku_COLUMN_NAME row.

Definition foreignKeyKey (row : ForeignKeysRow) : string :=
  FK_SCHEMA row +:+ "." +:+ FK_TABLE row +:+ "." +:+ FK_COLUMN row.

(** The reference [fkMap] keeps for a key: that of the last row with it. *)
Definition lastForeignKey (rows : list ForeignKeysRow) (key : string)
  : option ForeignKeysRow :=
  find (fun r => String.eqb (foreignKeyKey r) key) (rev rows).

(** A foreign-key column carries both parts of its reference, any other
    column carries neither. *)
Definition referenceConsistent (c : TableColumn) : bool :=
  if isForeignKey c then
    match referencedTable c, referencedColumn c with
    | Some _, Some _ => true
    | _, _ => false
    end
  else
    match referencedTable c, referencedColumn c with
    | None, None => true
    | _, _ => false
    end.

(** A sample pool whose [COLUMNS] request is rejected. *)
Definition poolWithFailingColumns : ConnectionPool :=
  {| queryTables := queryTables Samples.pool;
     queryColumns := fun _ => Throw {| message := "timeout" |};
     queryPrimaryKeys := queryPrimaryKeys Samples.pool;
     queryForeignKeys := queryForeignKeys Samples.pool |}.

(** Whether at least one of the six synonym pairs fires. *)
Definition synonymFires (normalizedField normalizedColumn : string) : bool :=
  (JS.includes normalizedField "qty"
   && JS.includes normalizedColumn "quantity")
  || (JS.includes normalizedField "uom"
      && JS.includes normalizedColumn "unitofmeasure")
  || (JS.includes normalizedField "onhand"
      && JS.includes normalizedColumn "onhand")
  || (JS.includes normalizedField "revenue"
      && JS.includes normalizedColumn "amount")
  || (JS.includes normalizedField "customer"
      && JS.includes normalizedColumn "customer")
  || (JS.includes normalizedField "sales"
      && JS.includes normalizedColumn "sales").

(** A name in which all six synonym pairs fire at once. *)
Definition allSynonyms : string :=
  "qtyquantityuomunitofmeasureonhandrevenueamountcustomersales".

(** The element with the highest key, the earliest one on a tie. *)
Fixpoint earliestBest {A} (key : A -> Q) (l : list A) : option A :=
  match l with
  | [] => None
  | x :: l' =>
      match earliestBest key l' with
      | None => Some x
      | Some y => if Qle_bool (key y) (key x) then Some x else Some y
      end
  end.

(** Whether some column of the schema scores at least the threshold for a
    field name. *)
Definition reachesThreshold (schema : DatabaseSchema) (fieldName : string)
  : bool :=
  existsb
    (fun c =>
       JS.ge (scoreColumnMatch (normalizeIdentifier fieldName) c)
         MATCH_THRESHOLD)
    (columns schema).

(** The entry of [matchedFields] for a field and its best match. *)
Definition matchedEntry (field : string) (best : ColumnMatch)
  : MatchedField.t :=
  MatchedField.mk field (qualifiedName (SchemaDiscovery.column best))
    (JS.Number_toFixed (score best * 100) 1).

(** The entry of [missingFields] for a field. *)
Definition missingEntry (schema : DatabaseSchema) (field : string)
  : MissingField.t :=
  MissingField.mk field
    (map (fun m => qualifiedName (SchemaDiscovery.column m))
       (getTopColumnMatches field schema 3)).

(** The columns of one table, in schema order. *)
Definition columnsOfTable (schema : DatabaseSchema) (table : string)
  : list TableColumn :=
  filter (fun c => String.eqb (tableName c) table) (columns schema).

(** Whether the four variables [getDb] requires are all set and not
    empty. *)
Definition completeEnv (env : Db.Env) : bool :=
  negb (Db.unset (Db.SQLSERVER_HOST env)
        || Db.unset (Db.SQLSERVER_DATABASE env)
        || Db.unset (Db.SQLSERVER_USER env)
        || Db.unset (Db.SQLSERVER_PASSWORD env)).

Definition isConnect (e : Db.DbEvent) : bool :=
  match e with
  | Db.Connect _ => true
  | Db.ConsoleWarn _ _ => false
  end.

(** A sample pool for [Db], an environment with every variable set, and a
    server that accepts the connection. *)
Definition dbPool : Db.Pool :=
  {| Db.catalog := Samples.pool;
     Db.queryDatabases := fun _ => Ok [ {| Db.name := "Sales" |} ] |}.

Definition fullEnv : Db.Env :=
  {| Db.SQLSERVER_HOST := Some "db.example";
     Db.SQLSERVER_DATABASE := Some "master";
     Db.SQLSERVER_USER := Some "report";
     Db.SQLSERVER_PASSWORD := Some "secret";
     Db.SQLSERVER_PORT := None |}.

Definition emptyEnv : Db.Env :=
  {| Db.SQLSERVER_HOST := None;
     Db.SQLSERVER_DATABASE := None;
     Db.SQLSERVER_USER := None;
     Db.SQLSERVER_PASSWORD := None;
     Db.SQLSERVER_PORT := None |}.

Definition acceptingServer (config : Db.Config) : result Db.Pool :=
  Ok dbPool.

Definition refusingServer (config : Db.Config) : result Db.Pool :=
  Throw {| message := "ECONNREFUSED" |}.

(** What ECMAScript asks of [Array.prototype.sort] for a consistent
    comparator: the result is in the order of the comparator, and elements
    that compare equal are those of the argument, in their order there. *)
Definition meetsSortContract {A} (compareFn : A -> A -> Q)
    (sortImpl : list A -> list A) : Prop :=
  forall l,
    StronglySorted (fun a b => compareFn a b <= 0) (sortImpl l)
    /\ forall x,
         filter (fun y => Qeq_bool (compareFn x y) 0) (sortImpl l)
         = filter (fun y => Qeq_bool (compareFn x y) 0) l.

(** Every cell of [h] is in [h'] as it was. *)
Definition preserved (h h' : Store.Heap) : Prop :=
  forall r c, h !! r = Some c -> h' !! r = Some c.

(** The arguments of a call as the store holds them: the schema, or null,
    and the elements of the field list. *)
Definition readInputs (h : Store.Heap) (schema : option Store.SchemaObject)
    (fieldNames : Store.ref) : option (option DatabaseSchema * list string) :=
  match h !! fieldNames with
  | Some (Store.Strings names) =>
      match schema with
      | None => Some (None, names)
      | Some object =>
          match Store.readSchema h object with
          | Some value => Some (Some value, names)
          | None => None
          end
      end
  | _ => None
  end.

(** [fuel] is enough for a loop over the columns of the schema. *)
Definition coversColumns (fuel : nat) (schema : option DatabaseSchema)
  : Prop :=
  match schema with
  | Some value => (length (columns value) < fuel)%nat
  | None => True
  end.

(** A store that holds the mock schema and a list of requested names, the
    schema object over it, and the store a run leaves. *)
Definition mockStore : list Store.Cell :=
  [Store.Strings (tables generateMockDatabaseSchema);
   Store.Columns (columns generateMockDatabaseSchema);
   Store.Relationships (relationships generateMockDatabaseSchema);
   Store.Strings ["Location"; "Nonexistent Field"; " Location "]%string].

Definition mockObject : Store.SchemaObject :=
  {| Store.tables := 0; Store.columns := 1; Store.relationships := 2 |}.

Definition storeAfter {A} (run : option (A * list Store.Cell))
  : list Store.Cell :=
  match run with
  | Some (_, h) => h
  | None => []
  end.

(* ===================================================================== *)
(** ** Properties of the built-ins *)
(* ===================================================================== *)

Lemma lowerAlnum_fixed_by_toLowerCase c :
  isLowerAlnum c = true -> JS.toLowerCaseChar c = c.
Proof.
  destruct c as [[] [] [] [] [] [] [] []]; vm_compute;
    solve [reflexivity | discriminate].
Qed.

Lemma everyChar_removeAll_complement keep s :
  JS.everyChar keep (JS.removeAll (fun c => negb (keep c)) s) = true.
Proof.
  induction s as [|c s IH]; simpl; [reflexivity|].
  destruct (keep c) eqn:E; simpl; [|exact IH].
  now rewrite E.
Qed.

Lemma normalizeIdentifier_chars s :
  JS.everyChar isLowerAlnum (normalizeIdentifier s) = true.
Proof. apply (everyChar_removeAll_complement isLowerAlnum). Qed.

Lemma normalizeIdentifier_fixes_lowerAlnum s :
  JS.everyChar isLowerAlnum s = true -> normalizeIdentifier s = s.
Proof.
  unfold normalizeIdentifier.
  induction s as [|c s IH]; simpl; [reflexivity|].
  intros H. apply andb_prop in H as [Hc Hs].
  rewrite (lowerAlnum_fixed_by_toLowerCase c Hc).
  unfold isLowerAlnum in Hc. rewrite Hc. simpl.
  now rewrite (IH Hs).
Qed.

(** C8. The identifier normalizer, which lower-cases its argument and deletes
    every character outside [a-z0-9], is idempotent: normalizing a
    normalized string changes nothing, and a normalized string contains
    only characters of [a-z0-9]. *)
Theorem normalizeIdentifier_idempotent (s : string) :
  normalizeIdentifier (normalizeIdentifier s) = normalizeIdentifier s
  /\ normalizeIdentifier s
     = JS.removeAll (fun c => negb (isLowerAlnum c)) (JS.toLowerCase s)
  /\ JS.everyChar isLowerAlnum (normalizeIdentifier s) = true.
Proof.
  split; [|split].
  - apply normalizeIdentifier_fixes_lowerAlnum, normalizeIdentifier_chars.
  - reflexivity.
  - apply normalizeIdentifier_chars.
Qed.

Lemma prefix_refl s : String.prefix s s = true.
Proof.
  induction s as [|c s IH]; simpl; [reflexivity|].
  destruct (ascii_dec c c); [exact IH | congruence].
Qed.

Lemma includes_refl s : JS.includes s s = true.
Proof. destruct s; cbn [JS.includes]; now rewrite prefix_refl. Qed.

(* ===================================================================== *)
(** ** Schema discovery *)
(* ===================================================================== *)

Lemma formatIdentifier_rejects value :
  JS.testOneOrMore isWordOrHyphen value = false ->
  formatIdentifier value
  = Throw {| message := if String.eqb value "" then "Database name is required"
                        else "Invalid database name: " +:+ value |}.
Proof.
  intros H. unfold formatIdentifier, JS.Boolean.
  destruct (String.eqb value "") eqn:E; simpl; [reflexivity|].
  now rewrite H.
Qed.

(** Whatever the connection and the name, the promise is fulfilled with
    a schema: it neither rejects nor yields [null]. *)
Lemma discoverDatabaseSchema_always_fulfilled db databaseName :
  exists schema,
    snd (discoverDatabaseSchema db databaseName) = Ok (Some schema).
Proof.
  unfold discoverDatabaseSchema.
  destruct (discoverTryBlock db databaseName) as [events outcome] eqn:E.
  destruct outcome as [[schema|]|error]; simpl; eauto.
  exfalso. unfold discoverTryBlock in E.
  destruct db as [pool|]; [|discriminate E].
  destruct (formatIdentifier databaseName); [|discriminate E].
  destruct (queryTables pool _), (queryColumns pool _),
    (queryPrimaryKeys pool _), (queryForeignKeys pool _);
    discriminate E.
Qed.

(** C1 (as stated, refuted). With a live connection, the name [bad;name]
    fails the pattern, yet the promise of [discoverDatabaseSchema] is
    fulfilled with the mock schema: it does not reject. *)
Lemma invalid_name_is_absorbed_into_mock :
  JS.testOneOrMore isWordOrHyphen "bad;name" = false
  /\ snd (discoverDatabaseSchema (Some Samples.pool) "bad;name")
     = Ok (Some generateMockDatabaseSchema)
  /\ ~ (exists e, snd (discoverDatabaseSchema (Some Samples.pool) "bad;name")
                  = Throw e).
Proof.
  split; [reflexivity|]. split; [reflexivity|].
  intros [e H]. vm_compute in H. discriminate H.
Qed.

(** C1 (amended). For every database name that does not match
    [^[\w-]+$], [formatIdentifier] throws, and [discoverDatabaseSchema]
    sends no catalogue query and is fulfilled with the mock schema: with a
    connection the error is caught by the function's own [catch] and only
    logged, and without a connection the name is not looked at. *)
Theorem invalid_name_no_query_mock_schema
    (db : option ConnectionPool) (databaseName : string) :
  JS.testOneOrMore isWordOrHyphen databaseName = false ->
  (exists e, formatIdentifier databaseName = Throw e)
  /\ (forall sql,
        ~ In (Query sql) (fst (discoverDatabaseSchema db databaseName)))
  /\ snd (discoverDatabaseSchema db databaseName)
     = Ok (Some generateMockDatabaseSchema)
  /\ (forall pool e,
        db = Some pool -> formatIdentifier databaseName = Throw e ->
        fst (discoverDatabaseSchema db databaseName)
        = [ConsoleError "[SchemaDiscovery] Error discovering schema:" e]).
Proof.
  intros H. pose proof (formatIdentifier_rejects _ H) as Hf.
  split; [eauto|].
  unfold discoverDatabaseSchema, discoverTryBlock.
  destruct db as [pool|]; [rewrite Hf|]; simpl.
  - repeat split.
    + intros sql [Hq|[]]. discriminate Hq.
    + intros pool' e _ He. now inversion He.
  - repeat split.
    + intros sql [Hq|[]]. discriminate Hq.
    + intros pool' e Hp. discriminate Hp.
Qed.

Lemma invalid_name_no_query_mock_schema_witness :
  JS.testOneOrMore isWordOrHyphen "bad;name" = false
  /\ snd (discoverDatabaseSchema (Some Samples.pool) "bad;name")
     = Ok (Some generateMockDatabaseSchema).
Proof.
  split; [reflexivity|].
  apply (invalid_name_no_query_mock_schema (Some Samples.pool) "bad;name").
  reflexivity.
Defined.

Lemma formatDataType_positive_length ty n :
  (0 < n)%Z ->
  formatDataType ty (Some n) = ty +:+ "(" +:+ JS.numberToString n +:+ ")".
Proof.
  intros Hn. unfold formatDataType.
  destruct (Z.eqb_spec n 0); [lia|].
  destruct (Z.gtb_spec n 0); [|lia]. simpl.
  destruct (Z.eqb_spec n (-1)); [lia|reflexivity].
Qed.

(** C2 (the code departs from it). A column whose catalogue row carries
    the character length -1 keeps its bare type: the guard
    [maxLength > 0] is false before the [max] rendering is reached. On the
    sample catalogue, [Name nvarchar] with length -1 is discovered as
    [nvarchar], while [Code varchar] with length 50 is [varchar(50)]. *)
Theorem unbounded_length_renders_bare_type :
  (forall ty, formatDataType ty (Some (-1)%Z) = ty)
  /\ formatDataType "nvarchar" (Some (-1)%Z) <> "nvarchar(max)"
  /\ (let (_, outcome) := discoverDatabaseSchema (Some Samples.pool) "Sales" in
      match outcome with
      | Ok (Some schema) =>
          map (fun c => (columnName c, dataType c)) (columns schema)
      | _ => []
      end) = [("Name", "nvarchar"); ("Code", "varchar(50)")].
Proof.
  split; [reflexivity|]. split; [discriminate|]. vm_compute. reflexivity.
Qed.

(* ===================================================================== *)
(** ** The column matcher *)
(* ===================================================================== *)

(** Case analysis on every condition of a chain of [if]s. *)
Ltac case_ifs :=
  repeat match goal with
         | |- context [if ?b then _ else _] => destruct b
         end.

Lemma synonymBoosts_nonneg f c : 0 <= synonymBoosts f c.
Proof.
  unfold synonymBoosts.
  case_ifs; unfold Qle; simpl; lia.
Qed.

Lemma scoreColumnMatch_sum f c :
  scoreColumnMatch f c
  == containmentScore f (normalizeIdentifier (columnName c))
     + synonymBoosts f (normalizeIdentifier (columnName c)).
Proof.
  unfold scoreColumnMatch, containmentScore, synonymBoosts.
  case_ifs; ring.
Qed.

(** C3 (as stated, refuted). The column [OrderId] scored against its own
    normalized name [orderid] gets 1.3, not 1.0: the exact match also
    passes the containment test and collects its 0.3. *)
Lemma OrderId_scores_1_3_against_itself :
  scoreColumnMatch (normalizeIdentifier (columnName Samples.orderId))
    Samples.orderId == 1.3
  /\ ~ scoreColumnMatch (normalizeIdentifier (columnName Samples.orderId))
         Samples.orderId == 1.
Proof. split; vm_compute; [reflexivity | discriminate]. Qed.

(** C3 (amended). For every column, the score of its own normalized name
    against it is 1 for the exact match, plus 0.3 because a string
    contains itself, plus every synonym boost whose two keywords both
    occur in that name; so it is at least 1.3 and never 1.0. *)
Theorem own_name_score (c : TableColumn) :
  let n := normalizeIdentifier (columnName c) in
  scoreColumnMatch n c == 1 + 0.3 + synonymBoosts n n
  /\ 1.3 <= scoreColumnMatch n c
  /\ ~ scoreColumnMatch n c == 1.
Proof.
  intros n.
  assert (E : scoreColumnMatch n c == 1 + 0.3 + synonymBoosts n n).
  { rewrite scoreColumnMatch_sum. fold n. unfold containmentScore.
    rewrite String.eqb_refl, includes_refl. simpl. reflexivity. }
  pose proof (synonymBoosts_nonneg n n) as Hb.
  split; [exact E|]. split.
  - rewrite E. lra.
  - rewrite E. lra.
Qed.

(** C5 (as stated, refuted). The mock schema contains [SuggestedQuantity],
    and the field [Suggested Qty] evaluated against it is not matched: its
    best candidate scores 0.2, and the field is reported missing. *)
Lemma Suggested_Qty_is_not_matched :
  In Samples.suggestedQuantity (columns generateMockDatabaseSchema)
  /\ map score (getTopColumnMatches "Suggested Qty" generateMockDatabaseSchema 1)
     = [0.2]
  /\ JS.ge 0.2 MATCH_THRESHOLD = false
  /\ matchedFields
       (evaluateFieldCoverage (Some generateMockDatabaseSchema)
          ["Suggested Qty"]%string) = []
  /\ map MissingField.name
       (missingFields
          (evaluateFieldCoverage (Some generateMockDatabaseSchema)
             ["Suggested Qty"]%string)) = ["Suggested Qty"]%string.
Proof.
  split; [vm_compute; tauto|]. repeat split; vm_compute; reflexivity.
Qed.

(** C5 (amended). [Suggested Qty] normalizes to [suggestedqty]; against a
    column named [SuggestedQuantity] only the qty/quantity boost fires
    (neither name contains the other), so the score is exactly 0.2, below
    the 0.35 threshold. Against the mock schema the field is missing,
    coverage is 0, and the three quantity columns are its suggestions. *)
Theorem Suggested_Qty_scores_one_fifth
    (table type : string) (nullable pk fk : bool)
    (refTable refColumn : option string) :
  normalizeIdentifier "Suggested Qty" = "suggestedqty"%string
  /\ scoreColumnMatch (normalizeIdentifier "Suggested Qty")
       (mkColumn table "SuggestedQuantity" type nullable pk fk
          refTable refColumn) == 0.2
  /\ 0.2 < MATCH_THRESHOLD
  /\ evaluateFieldCoverage (Some generateMockDatabaseSchema)
       ["Suggested Qty"]%string
     = {| coveragePercent := 0;
          matchedFields := [];
          missingFields :=
            [MissingField.mk "Suggested Qty"
               ["PurchaseOrders.SuggestedQuantity";
                "PurchaseOrders.ActualOrderQuantity";
                "Transfers.TransferQuantity"]%string] |}.
Proof.
  repeat split; vm_compute; reflexivity.
Qed.

(* ===================================================================== *)
(** ** Arrays: de-duplication and sorting *)
(* ===================================================================== *)

Lemma existsb_eqb_In x (l : list string) :
  existsb (String.eqb x) l = true <-> In x l.
Proof.
  rewrite existsb_exists. split.
  - intros [y [Hy E]]. apply String.eqb_eq in E. now subst.
  - intros H. exists x. split; [exact H | apply String.eqb_refl].
Qed.

Lemma setInsertAll_spec l : forall seen,
  List.NoDup seen ->
  List.NoDup (JS.setInsertAll seen l)
  /\ (forall x, In x (JS.setInsertAll seen l) <-> In x seen \/ In x l).
Proof.
  induction l as [|y l IH]; intros seen Hnd; simpl.
  - split; [now apply NoDup_rev|].
    intros x. rewrite <- in_rev. tauto.
  - destruct (existsb (String.eqb y) seen) eqn:E.
    + apply existsb_eqb_In in E.
      destruct (IH seen Hnd) as [H1 H2]. split; [exact H1|].
      intros x. rewrite H2. intuition (subst; auto).
    + assert (Hy : ~ In y seen).
      { intros Hin. apply existsb_eqb_In in Hin. congruence. }
      destruct (IH (y :: seen) (NoDup_cons _ Hy Hnd)) as [H1 H2].
      split; [exact H1|].
      intros x. rewrite H2. simpl. tauto.
Qed.

Lemma uniqueFieldsOf_NoDup fieldNames : List.NoDup (uniqueFieldsOf fieldNames).
Proof. apply setInsertAll_spec. constructor. Qed.

Lemma uniqueFieldsOf_In fieldNames x :
  In x (uniqueFieldsOf fieldNames)
  <-> In x (map JS.trim fieldNames) /\ x <> ""%string.
Proof.
  unfold uniqueFieldsOf, JS.Array_from_Set.
  rewrite (proj2 (setInsertAll_spec _ [] (NoDup_nil _))).
  rewrite filter_In. unfold JS.Boolean. simpl.
  rewrite negb_true_iff, String.eqb_neq. tauto.
Qed.

Lemma in_firstn_in {A} n (l : list A) x : In x (firstn n l) -> In x l.
Proof.
  intros H. rewrite <- (firstn_skipn n l). apply in_or_app. now left.
Qed.

Lemma in_skipn_in {A} n (l : list A) x : In x (skipn n l) -> In x l.
Proof.
  intros H. rewrite <- (firstn_skipn n l). apply in_or_app. now right.
Qed.

Section SortByKey.
Context {A : Type}.
Variable key : A -> Q.

Lemma descending_le x y :
  Qle_bool (descending key x y) 0 = true <-> key y <= key x.
Proof. unfold descending. rewrite Qle_bool_iff. split; intros; lra. Qed.

Lemma insertSorted_perm x l :
  Permutation (JS.insertSorted (descending key) x l) (x :: l).
Proof.
  induction l as [|y l IH]; simpl; [reflexivity|].
  destruct (Qle_bool (descending key x y) 0); [reflexivity|].
  rewrite IH. apply perm_swap.
Qed.

Lemma sort_perm l : Permutation (JS.sort (descending key) l) l.
Proof.
  induction l as [|x l IH]; simpl; [reflexivity|].
  rewrite insertSorted_perm. now constructor.
Qed.

Lemma sort_length l : length (JS.sort (descending key) l) = length l.
Proof. apply Permutation_length, sort_perm. Qed.

Lemma sort_In l x : In x (JS.sort (descending key) l) <-> In x l.
Proof.
  split; apply Permutation_in; [|symmetry]; apply sort_perm.
Qed.

Lemma insertSorted_sorted x l :
  StronglySorted (keyGe key) l -> StronglySorted (keyGe key) (JS.insertSorted (descending key) x l).
Proof.
  induction 1 as [|y l Hs IH Hall]; simpl.
  - repeat constructor.
  - destruct (Qle_bool (descending key x y) 0) eqn:E.
    + apply descending_le in E.
      constructor; [now constructor|].
      constructor; [exact E|].
      eapply Forall_impl; [|exact Hall].
      unfold keyGe. intros z Hz. lra.
    + assert (Hxy : key x <= key y).
      { destruct (Qlt_le_dec (key y) (key x)) as [Hlt|Hle]; [|exact Hle].
        exfalso. assert (Qle_bool (descending key x y) 0 = true)
          by (apply descending_le; lra). congruence. }
      constructor; [exact IH|].
      eapply Permutation_Forall; [symmetry; apply insertSorted_perm|].
      constructor; assumption.
Qed.

Lemma sort_sorted l : StronglySorted (keyGe key) (JS.sort (descending key) l).
Proof.
  induction l as [|x l IH]; simpl; [constructor|].
  now apply insertSorted_sorted.
Qed.

(** In a list sorted by descending key, whatever [firstn] leaves out is
    below everything it keeps. *)
Lemma sorted_firstn_dominates n l :
  StronglySorted (keyGe key) l ->
  forall a b, In a (firstn n l) -> In b (skipn n l) -> key b <= key a.
Proof.
  intros Hs. revert n. induction Hs as [|y l Hs IH Hall]; intros n a b.
  - now rewrite firstn_nil.
  - destruct n as [|n]; simpl; [tauto|].
    intros [<-|Ha] Hb.
    + rewrite Forall_forall in Hall. apply Hall.
      eapply in_skipn_in; eauto.
    + eapply IH; eauto.
Qed.

Lemma sorted_firstn n l :
  StronglySorted (keyGe key) l -> StronglySorted (keyGe key) (firstn n l).
Proof.
  intros Hs. revert n. induction Hs as [|y l Hs IH Hall]; intros n.
  - rewrite firstn_nil. constructor.
  - destruct n as [|n]; simpl; constructor; [apply IH|].
    rewrite Forall_forall in *. intros z Hz. apply Hall.
    eapply in_firstn_in; eauto.
Qed.

End SortByKey.

(* ===================================================================== *)
(** ** Top matches *)
(* ===================================================================== *)

Lemma gt_true_iff x y : JS.gt x y = true <-> y < x.
Proof.
  unfold JS.gt. rewrite negb_true_iff.
  destruct (Qle_bool x y) eqn:E.
  - apply Qle_bool_iff in E. split; [discriminate | intros; lra].
  - split; [intros _|reflexivity].
    destruct (Qlt_le_dec y x) as [H|H]; [exact H|].
    apply Qle_bool_iff in H. congruence.
Qed.

Lemma ge_true_iff x y : JS.ge x y = true <-> y <= x.
Proof. unfold JS.ge. apply Qle_bool_iff. Qed.

Lemma ge_false_iff x y : JS.ge x y = false <-> x < y.
Proof.
  unfold JS.ge. destruct (Qle_bool y x) eqn:E.
  - apply Qle_bool_iff in E. split; [discriminate | intros; lra].
  - split; [intros _|reflexivity].
    destruct (Qlt_le_dec x y) as [H|H]; [exact H|].
    apply Qle_bool_iff in H. congruence.
Qed.

Lemma scoreColumns_loop f cols : forall acc,
  fold_left
    (fun scored col =>
       let score := scoreColumnMatch f col in
       if JS.gt score 0
       then scored ++ [{| SchemaDiscovery.column := col; score := score |}]
       else scored)
    cols acc
  = acc ++ map (candidate f) (filter (scoresAboveZero f) cols).
Proof.
  induction cols as [|c cols IH]; intros acc; simpl.
  - now rewrite app_nil_r.
  - rewrite IH. unfold scoresAboveZero at 2.
    destruct (JS.gt (scoreColumnMatch f c) 0); simpl; [|reflexivity].
    now rewrite <- app_assoc.
Qed.

Lemma scoreColumns_filter_map f cols :
  scoreColumns f cols = map (candidate f) (filter (scoresAboveZero f) cols).
Proof. unfold scoreColumns. now rewrite scoreColumns_loop. Qed.

(** [getTopColumnMatches] in closed form: the columns with a positive
    score, by descending score, cut after [limit]. *)
Lemma getTopColumnMatches_closed_form fieldName schema limit :
  getTopColumnMatches fieldName schema limit
  = firstn limit
      (JS.sort (descending score)
         (map (candidate (normalizeIdentifier fieldName))
            (filter (scoresAboveZero (normalizeIdentifier fieldName))
               (columns schema)))).
Proof.
  unfold getTopColumnMatches, JS.slice0.
  now rewrite scoreColumns_filter_map.
Qed.

Lemma getTopColumnMatches_length fieldName schema limit :
  (length (getTopColumnMatches fieldName schema limit) <= limit)%nat.
Proof. rewrite getTopColumnMatches_closed_form. apply firstn_le_length. Qed.

Lemma getTopColumnMatches_sorted fieldName schema limit :
  StronglySorted (keyGe score) (getTopColumnMatches fieldName schema limit).
Proof.
  rewrite getTopColumnMatches_closed_form.
  apply sorted_firstn, sort_sorted.
Qed.

Lemma getTopColumnMatches_sound fieldName schema limit m :
  In m (getTopColumnMatches fieldName schema limit) ->
  In (SchemaDiscovery.column m) (columns schema)
  /\ score m
     = scoreColumnMatch (normalizeIdentifier fieldName)
         (SchemaDiscovery.column m)
  /\ 0 < score m.
Proof.
  rewrite getTopColumnMatches_closed_form. intros H.
  apply in_firstn_in, sort_In, in_map_iff in H as [c [<- Hc]].
  apply filter_In in Hc as [Hc Hpos].
  apply gt_true_iff in Hpos. simpl. auto.
Qed.

(** Every column with a positive score is returned, unless [limit]
    matches that score at least as high are returned instead. *)
Lemma getTopColumnMatches_complete fieldName schema limit c :
  In c (columns schema) ->
  0 < scoreColumnMatch (normalizeIdentifier fieldName) c ->
  In (candidate (normalizeIdentifier fieldName) c)
    (getTopColumnMatches fieldName schema limit)
  \/ (length (getTopColumnMatches fieldName schema limit) = limit
      /\ Forall
           (fun m =>
              scoreColumnMatch (normalizeIdentifier fieldName) c <= score m)
           (getTopColumnMatches fieldName schema limit)).
Proof.
  intros Hc Hpos. rewrite getTopColumnMatches_closed_form.
  set (f := normalizeIdentifier fieldName) in *.
  set (sorted := JS.sort (descending score)
                   (map (candidate f)
                      (filter (scoresAboveZero f) (columns schema)))).
  assert (Hin : In (candidate f c) sorted).
  { apply sort_In, in_map, filter_In. split; [exact Hc|].
    now apply gt_true_iff. }
  rewrite <- (firstn_skipn limit sorted) in Hin.
  apply in_app_or in Hin as [Hin|Hin]; [now left|right].
  split.
  - apply firstn_length_le.
    destruct (Nat.le_gt_cases limit (length sorted)) as [Hle|Hgt]; [exact Hle|].
    rewrite skipn_all2 in Hin by lia. destruct Hin.
  - apply Forall_forall. intros m Hm.
    apply (sorted_firstn_dominates score limit sorted (sort_sorted _ _)
             m (candidate f c) Hm Hin).
Qed.

Lemma getTopColumnMatches_none_positive fieldName schema limit :
  (forall c, In c (columns schema) ->
             scoreColumnMatch (normalizeIdentifier fieldName) c == 0) ->
  getTopColumnMatches fieldName schema limit = [].
Proof.
  intros Hzero. rewrite getTopColumnMatches_closed_form.
  replace (filter _ (columns schema)) with (@nil TableColumn).
  - simpl. apply firstn_nil.
  - symmetry. induction (columns schema) as [|c cols IH]; [reflexivity|].
    simpl. unfold scoresAboveZero at 1.
    destruct (JS.gt _ 0) eqn:E.
    + apply gt_true_iff in E. rewrite Hzero in E by now left. lra.
    + apply IH. intros c' Hc'. apply Hzero. now right.
Qed.

(** The head of the result has the highest score in it. *)
Lemma getTopColumnMatches_head_max fieldName schema limit best rest :
  getTopColumnMatches fieldName schema limit = best :: rest ->
  Forall (fun m => score m <= score best) (best :: rest).
Proof.
  intros E. pose proof (getTopColumnMatches_sorted fieldName schema limit) as Hs.
  rewrite E in Hs. inversion Hs as [|? ? _ Hall]; subst.
  constructor; [lra | exact Hall].
Qed.

(* ===================================================================== *)
(** ** The coverage evaluator *)
(* ===================================================================== *)

Lemma visitField_classify schema acc field :
  visitField schema acc field
  = match classify schema field with
    | inl m => {| matchedCount := S (matchedCount acc);
                  matched := matched acc ++ [m];
                  missing := missing acc |}
    | inr e => {| matchedCount := matchedCount acc;
                  matched := matched acc;
                  missing := missing acc ++ [e] |}
    end.
Proof.
  unfold visitField, classify.
  destruct (hd_error (getTopColumnMatches field schema 3)) as [best|];
    [|reflexivity].
  destruct (JS.ge (score best) 0.35); reflexivity.
Qed.

Lemma forEach_visitField schema fields : forall acc,
  fold_left (visitField schema) fields acc
  = {| matchedCount :=
         matchedCount acc + length (lefts (map (classify schema) fields));
       matched := matched acc ++ lefts (map (classify schema) fields);
       missing := missing acc ++ rights (map (classify schema) fields) |}.
Proof.
  induction fields as [|f fields IH]; intros acc; simpl.
  - rewrite !app_nil_r, Nat.add_0_r. now destruct acc.
  - rewrite IH, visitField_classify.
    destruct (classify schema f); simpl;
      rewrite <- ?app_assoc; simpl; f_equal; lia.
Qed.

Lemma evaluateFieldCoverage_matchedFields schema fieldNames :
  matchedFields (evaluateFieldCoverage (Some schema) fieldNames)
  = lefts (map (classify schema) (uniqueFieldsOf fieldNames)).
Proof.
  destruct fieldNames as [|f fs]; [reflexivity|].
  unfold evaluateFieldCoverage. now rewrite forEach_visitField.
Qed.

Lemma evaluateFieldCoverage_missingFields schema fieldNames :
  missingFields (evaluateFieldCoverage (Some schema) fieldNames)
  = rights (map (classify schema) (uniqueFieldsOf fieldNames)).
Proof.
  destruct fieldNames as [|f fs]; [reflexivity|].
  unfold evaluateFieldCoverage. now rewrite forEach_visitField.
Qed.

Lemma evaluateFieldCoverage_coveragePercent schema fieldNames :
  coveragePercent (evaluateFieldCoverage (Some schema) fieldNames)
  = match length (uniqueFieldsOf fieldNames) with
    | O => 100%Z
    | S _ =>
        JS.Math_round
          (inject_Z (Z.of_nat
             (length (matchedFields
                (evaluateFieldCoverage (Some schema) fieldNames))))
           / inject_Z (Z.of_nat (length (uniqueFieldsOf fieldNames))) * 100)
    end.
Proof.
  rewrite evaluateFieldCoverage_matchedFields.
  destruct fieldNames as [|f fs]; [reflexivity|].
  unfold evaluateFieldCoverage. now rewrite forEach_visitField.
Qed.

Lemma classify_entryName schema field :
  entryName (classify schema field) = field.
Proof.
  unfold classify.
  destruct (hd_error (getTopColumnMatches field schema 3)) as [best|];
    [|reflexivity].
  destruct (JS.ge (score best) 0.35); reflexivity.
Qed.

Lemma lefts_rights_length {A B} (l : list (A + B)) :
  (length (lefts l) + length (rights l) = length l)%nat.
Proof. induction l as [|[a|b] l IH]; simpl; lia. Qed.

Lemma lefts_rights_names (l : list (MatchedField.t + MissingField.t)) :
  Permutation
    (map MatchedField.name (lefts l) ++ map MissingField.name (rights l))
    (map entryName l).
Proof.
  induction l as [|[m|e] l IH]; simpl; [reflexivity| |].
  - now constructor.
  - rewrite <- Permutation_middle. now constructor.
Qed.

Lemma map_entryName_classify schema fields :
  map entryName (map (classify schema) fields) = fields.
Proof.
  induction fields as [|f fields IH]; simpl; [reflexivity|].
  now rewrite classify_entryName, IH.
Qed.

Lemma count_occ_NoDup (l : list string) f :
  List.NoDup l ->
  count_occ string_dec l f = if in_dec string_dec f l then 1%nat else 0%nat.
Proof.
  intros Hnd. destruct (in_dec string_dec f l) as [Hin|Hout].
  - apply (proj1 (NoDup_count_occ' string_dec l) Hnd f Hin).
  - now apply count_occ_not_In.
Qed.

(** C6. With a schema present, the report partitions the de-duplicated
    field names: the matched and the missing entries together are as many
    as the unique (trimmed, non-empty) names; the names they carry are,
    taken together, exactly the unique names, each once; so each unique
    name is in exactly one of the two lists and no other name is in
    either. *)
Theorem coverage_partitions_unique_fields
    (schema : DatabaseSchema) (fieldNames : list string) :
  let report := evaluateFieldCoverage (Some schema) fieldNames in
  let uniqueFields := uniqueFieldsOf fieldNames in
  let matchedNames := map MatchedField.name (matchedFields report) in
  let missingNames := map MissingField.name (missingFields report) in
  (length (matchedFields report) + length (missingFields report)
   = length uniqueFields)%nat
  /\ List.NoDup uniqueFields
  /\ (forall f, In f uniqueFields
                <-> In f (map JS.trim fieldNames) /\ f <> ""%string)
  /\ Permutation (matchedNames ++ missingNames) uniqueFields
  /\ (forall f,
        (count_occ string_dec matchedNames f
         + count_occ string_dec missingNames f)%nat
        = if in_dec string_dec f uniqueFields then 1%nat else 0%nat).
Proof.
  intros report uniqueFields matchedNames missingNames.
  assert (Hperm : Permutation (matchedNames ++ missingNames) uniqueFields).
  { subst matchedNames missingNames report.
    rewrite evaluateFieldCoverage_matchedFields,
      evaluateFieldCoverage_missingFields, lefts_rights_names.
    now rewrite map_entryName_classify. }
  pose proof (uniqueFieldsOf_NoDup fieldNames) as Hnd.
  split; [|split; [exact Hnd|split; [|split; [exact Hperm|]]]].
  - subst report uniqueFields.
    rewrite evaluateFieldCoverage_matchedFields,
      evaluateFieldCoverage_missingFields, lefts_rights_length.
    now rewrite length_map.
  - intros f. apply uniqueFieldsOf_In.
  - intros f. rewrite <- count_occ_app.
    rewrite (Permutation_count_occ string_dec
               (matchedNames ++ missingNames) uniqueFields) in Hperm.
    rewrite Hperm. now apply count_occ_NoDup.
Qed.



Lemma Math_round_zero_ratio (u : nat) :
  JS.Math_round (inject_Z (Z.of_nat 0) / inject_Z (Z.of_nat u) * 100) = 0%Z.
Proof.
  unfold JS.Math_round.
  assert (E : inject_Z (Z.of_nat 0) / inject_Z (Z.of_nat u) * 100 + (1 # 2)
              == 1 # 2).
  { simpl. unfold Qdiv. ring. }
  now rewrite E.
Qed.




Lemma getTopColumnMatches_columns_only fieldName schema1 schema2 limit :
  columns schema1 = columns schema2 ->
  getTopColumnMatches fieldName schema1 limit
  = getTopColumnMatches fieldName schema2 limit.
Proof. unfold getTopColumnMatches. now intros ->. Qed.

(** Of the schema only the columns matter, and of the field list only its
    unique trimmed names. *)
Lemma evaluateFieldCoverage_reads_columns_and_unique_names
    schema1 schema2 fieldNames1 fieldNames2 :
  columns schema1 = columns schema2 ->
  uniqueFieldsOf fieldNames1 = uniqueFieldsOf fieldNames2 ->
  evaluateFieldCoverage (Some schema1) fieldNames1
  = evaluateFieldCoverage (Some schema2) fieldNames2.
Proof.
  intros Hcols Huniq.
  assert (Hclass : forall f, classify schema1 f = classify schema2 f).
  { intros f. unfold classify.
    now rewrite (getTopColumnMatches_columns_only f _ _ 3 Hcols). }
  pose proof (evaluateFieldCoverage_coveragePercent schema1 fieldNames1) as P1.
  pose proof (evaluateFieldCoverage_coveragePercent schema2 fieldNames2) as P2.
  pose proof (evaluateFieldCoverage_matchedFields schema1 fieldNames1) as M1.
  pose proof (evaluateFieldCoverage_matchedFields schema2 fieldNames2) as M2.
  pose proof (evaluateFieldCoverage_missingFields schema1 fieldNames1) as N1.
  pose proof (evaluateFieldCoverage_missingFields schema2 fieldNames2) as N2.
  rewrite M1 in P1. rewrite M2 in P2.
  rewrite Huniq, (map_ext _ _ Hclass) in P1, M1, N1.
  destruct (evaluateFieldCoverage (Some schema1) fieldNames1),
    (evaluateFieldCoverage (Some schema2) fieldNames2).
  simpl in *. congruence.
Qed.

(* ===================================================================== *)
(** ** The sort contract *)
(* ===================================================================== *)

Section SortContract.
Context {A : Type} (key : A -> Q).

Lemma sameKey_refl (x : A) : Qeq_bool (descending key x x) 0 = true.
Proof. apply Qeq_bool_iff. unfold descending. ring. Qed.

Lemma insertSorted_classes x a l :
  filter (fun y => Qeq_bool (descending key x y) 0)
    (JS.insertSorted (descending key) a l)
  = filter (fun y => Qeq_bool (descending key x y) 0) (a :: l).
Proof.
  induction l as [|y l IH]; [reflexivity|].
  cbn [JS.insertSorted].
  destruct (Qle_bool (descending key a y) 0) eqn:E; [reflexivity|].
  cbn [filter] in *. rewrite IH.
  destruct (Qeq_bool (descending key x a) 0) eqn:Ea,
           (Qeq_bool (descending key x y) 0) eqn:Ey; try reflexivity.
  exfalso. apply Qeq_bool_iff in Ea, Ey.
  assert (H : descending key a y <= 0) by (unfold descending in *; lra).
  apply Qle_bool_iff in H. congruence.
Qed.

Lemma sort_classes x l :
  filter (fun y => Qeq_bool (descending key x y) 0)
    (JS.sort (descending key) l)
  = filter (fun y => Qeq_bool (descending key x y) 0) l.
Proof.
  induction l as [|a l IH]; [reflexivity|].
  cbn [JS.sort]. rewrite insertSorted_classes. cbn [filter].
  now rewrite IH.
Qed.

Lemma sort_in_comparator_order l :
  StronglySorted (fun a b => descending key a b <= 0)
    (JS.sort (descending key) l).
Proof.
  pose proof (sort_sorted key l) as H.
  induction H as [|a s Hs IH Hall]; constructor; [exact IH|].
  eapply Forall_impl; [|exact Hall].
  unfold keyGe, descending. intros b Hb. lra.
Qed.

(** The model's insertion sort meets the contract. *)
Lemma JS_sort_meets_contract :
  meetsSortContract (descending key) (JS.sort (descending key)).
Proof.
  intros l. split; [apply sort_in_comparator_order|].
  intros x. apply sort_classes.
Qed.

(** Two lists in descending order with the same elements in the same order
    within every class of equal keys are the same list. *)
Lemma sorted_stable_unique l1 : forall l2,
  StronglySorted (fun a b => descending key a b <= 0) l1 ->
  StronglySorted (fun a b => descending key a b <= 0) l2 ->
  (forall x, filter (fun y => Qeq_bool (descending key x y) 0) l1
             = filter (fun y => Qeq_bool (descending key x y) 0) l2) ->
  l1 = l2.
Proof.
  induction l1 as [|a l1 IH]; intros l2 S1 S2 H.
  - destruct l2 as [|b l2]; [reflexivity|].
    specialize (H b). cbn [filter] in H. rewrite sameKey_refl in H.
    discriminate.
  - destruct l2 as [|b l2].
    { specialize (H a). cbn [filter] in H. rewrite sameKey_refl in H.
      discriminate. }
    inversion S1 as [|? ? S1' F1]; inversion S2 as [|? ? S2' F2]; subst.
    assert (Ha : In a (b :: l2)).
    { assert (Hin : In a (filter (fun y => Qeq_bool (descending key a y) 0)
                            (b :: l2))).
      { rewrite <- H. cbn [filter]. rewrite sameKey_refl. now left. }
      now apply filter_In in Hin. }
    assert (Hb : In b (a :: l1)).
    { assert (Hin : In b (filter (fun y => Qeq_bool (descending key b y) 0)
                            (a :: l1))).
      { rewrite H. cbn [filter]. rewrite sameKey_refl. now left. }
      now apply filter_In in Hin. }
    assert (Hab : Qeq_bool (descending key a b) 0 = true).
    { apply Qeq_bool_iff. unfold descending.
      assert (key a <= key b).
      { destruct Ha as [->|Ha]; [lra|].
        rewrite Forall_forall in F2. specialize (F2 a Ha).
        unfold descending in F2. lra. }
      assert (key b <= key a).
      { destruct Hb as [->|Hb]; [lra|].
        rewrite Forall_forall in F1. specialize (F1 b Hb).
        unfold descending in F1. lra. }
      lra. }
    pose proof (H a) as Hhead. cbn [filter] in Hhead.
    rewrite sameKey_refl, Hab in Hhead. injection Hhead as -> _.
    f_equal. apply IH; [exact S1' | exact S2' |].
    intros x. specialize (H x). cbn [filter] in H.
    destruct (Qeq_bool (descending key x b) 0); [now injection H | exact H].
Qed.

(** The contract leaves the sort no choice. *)
Lemma conforming_sort_is_JS_sort (sortImpl : list A -> list A) l :
  meetsSortContract (descending key) sortImpl ->
  sortImpl l = JS.sort (descending key) l.
Proof.
  intros H. destruct (H l) as [Hs Hc].
  apply sorted_stable_unique; [exact Hs | apply sort_in_comparator_order |].
  intros x. now rewrite Hc, sort_classes.
Qed.

End SortContract.

(* ===================================================================== *)
(** ** The evaluator over the store *)
(* ===================================================================== *)

Lemma lookup_new {A} (h : list A) (c : A) : (h ++ [c]) !! length h = Some c.
Proof. now apply list_lookup_middle. Qed.

Lemma insert_new {A} (h : list A) (c c' : A) :
  <[length h := c']> (h ++ [c]) = h ++ [c'].
Proof.
  rewrite insert_app_r_alt by lia. now rewrite Nat.sub_diag.
Qed.

Lemma preserved_refl h : preserved h h.
Proof. now intros r c. Qed.

Lemma preserved_trans h1 h2 h3 :
  preserved h1 h2 -> preserved h2 h3 -> preserved h1 h3.
Proof. intros H12 H23 r c Hr. auto. Qed.

Lemma preserved_alloc h c : preserved h (h ++ [c]).
Proof. intros r c' Hr. now apply lookup_app_l_Some. Qed.

Lemma read_at (h : list Store.Cell) (r : nat) c : h !! r = Some c -> Store.read r h = Some (c, h).
Proof. unfold Store.read. now intros ->. Qed.

Lemma write_at (h : list Store.Cell) (r : nat) c0 c :
  h !! r = Some c0 -> Store.write r c h = Some (tt, <[r := c]> h).
Proof. unfold Store.write. now intros ->. Qed.

Lemma readStrings_at (h : list Store.Cell) (r : nat) l :
  h !! r = Some (Store.Strings l) -> Store.readStrings r h = Some (l, h).
Proof.
  intros H. unfold Store.readStrings, Store.bind. now rewrite (read_at _ _ _ H).
Qed.

Lemma readColumns_at (h : list Store.Cell) (r : nat) l :
  h !! r = Some (Store.Columns l) -> Store.readColumns r h = Some (l, h).
Proof.
  intros H. unfold Store.readColumns, Store.bind. now rewrite (read_at _ _ _ H).
Qed.

Lemma readMatches_at (h : list Store.Cell) (r : nat) l :
  h !! r = Some (Store.Matches l) -> Store.readMatches r h = Some (l, h).
Proof.
  intros H. unfold Store.readMatches, Store.bind. now rewrite (read_at _ _ _ H).
Qed.

Lemma readCounter_at (h : list Store.Cell) (r : nat) n :
  h !! r = Some (Store.Counter n) -> Store.readCounter r h = Some (n, h).
Proof.
  intros H. unfold Store.readCounter, Store.bind. now rewrite (read_at _ _ _ H).
Qed.

Lemma pushMatch_at (h : list Store.Cell) (r : nat) l x :
  h !! r = Some (Store.Matches l) ->
  Store.pushMatch r x h = Some (tt, <[r := Store.Matches (l ++ [x])]> h).
Proof.
  intros H. unfold Store.pushMatch, Store.bind. rewrite (read_at _ _ _ H).
  now apply write_at with (c0 := Store.Matches l).
Qed.

Lemma pushMatched_at (h : list Store.Cell) (r : nat) l x :
  h !! r = Some (Store.MatchedFields l) ->
  Store.pushMatched r x h
  = Some (tt, <[r := Store.MatchedFields (l ++ [x])]> h).
Proof.
  intros H. unfold Store.pushMatched, Store.bind. rewrite (read_at _ _ _ H).
  now apply write_at with (c0 := Store.MatchedFields l).
Qed.

Lemma pushMissing_at (h : list Store.Cell) (r : nat) l x :
  h !! r = Some (Store.MissingFields l) ->
  Store.pushMissing r x h
  = Some (tt, <[r := Store.MissingFields (l ++ [x])]> h).
Proof.
  intros H. unfold Store.pushMissing, Store.bind. rewrite (read_at _ _ _ H).
  now apply write_at with (c0 := Store.MissingFields l).
Qed.

Lemma increment_at (h : list Store.Cell) (r : nat) n :
  h !! r = Some (Store.Counter n) ->
  Store.increment r h = Some (tt, <[r := Store.Counter (S n)]> h).
Proof.
  intros H. unfold Store.increment, Store.bind. rewrite (readCounter_at _ _ _ H).
  now apply write_at with (c0 := Store.Counter n).
Qed.

(** The scoring loop pushes to the array allocated just before it, and
    runs through the columns as [scoreColumns] does. *)
Lemma scoring_loop_run (f : string) (array : Store.ref) (h : Store.Heap)
    (cols : list TableColumn) :
  h !! array = Some (Store.Columns cols) ->
  forall fuel index acc,
    (length cols - index < fuel)%nat ->
    Store.forOf fuel array index
      (fun col =>
         let score := scoreColumnMatch f col in
         if JS.gt score 0 then
           Store.pushMatch (length h)
             {| SchemaDiscovery.column := col; score := score |}
         else Store.ret tt)
      (h ++ [Store.Matches acc])
    = Some (tt,
            h ++ [Store.Matches
                    (fold_left
                       (fun scored col =>
                          let score := scoreColumnMatch f col in
                          if JS.gt score 0 then
                            scored
                            ++ [{| SchemaDiscovery.column := col;
                                   score := score |}]
                          else scored)
                       (drop index cols) acc)]).
Proof.
  intros Harray fuel.
  induction fuel as [|fuel IH]; intros index acc Hfuel; [lia|].
  cbn [Store.forOf]. unfold Store.bind at 1.
  rewrite (readColumns_at _ _ cols) by now apply lookup_app_l_Some.
  destruct (cols !! index) as [col|] eqn:E.
  - pose proof (lookup_lt_Some _ _ _ E) as Hlt.
    rewrite (drop_S _ _ _ E). cbn [fold_left]. cbv zeta.
    unfold Store.bind at 1.
    destruct (JS.gt (scoreColumnMatch f col) 0).
    + rewrite (pushMatch_at _ _ acc) by apply lookup_new.
      rewrite insert_new. apply IH. lia.
    + unfold Store.ret. apply IH. lia.
  - apply lookup_ge_None in E. rewrite drop_ge by exact E. reflexivity.
Qed.

Lemma lookup_second_new {A} (h : list A) (a b : A) :
  (h ++ [a; b]) !! S (length h) = Some b.
Proof.
  change (h ++ [a; b]) with (h ++ [a] ++ [b]). rewrite app_assoc.
  replace (S (length h)) with (length (h ++ [a]))
    by (rewrite length_app; simpl; lia).
  apply lookup_new.
Qed.

Section StoreRuns.
Variable Array_sort :
  (ColumnMatch -> ColumnMatch -> Q) -> list ColumnMatch -> list ColumnMatch.
Variable fuel : nat.
Hypothesis contract :
  meetsSortContract (descending score) (Array_sort (descending score)).

(** A call of [getTopColumnMatches] adds two arrays to the store, the
    sorted one and its slice, and touches nothing else; the slice holds
    what the pure function returns. *)
Lemma getTopColumnMatches_run fieldName object schema limit h :
  h !! Store.columns object = Some (Store.Columns (columns schema)) ->
  (length (columns schema) < fuel)%nat ->
  Store.getTopColumnMatches Array_sort fuel fieldName object limit h
  = Some (S (length h),
          h ++ [Store.Matches
                  (JS.sort (descending score)
                     (scoreColumns (normalizeIdentifier fieldName)
                        (columns schema)));
                Store.Matches (getTopColumnMatches fieldName schema limit)]).
Proof.
  intros Hcols Hfuel.
  unfold Store.getTopColumnMatches. cbv zeta.
  unfold Store.bind at 1. unfold Store.alloc at 1.
  unfold Store.bind at 1.
  rewrite (scoring_loop_run _ _ _ _ Hcols) by lia.
  rewrite drop_0.
  fold (scoreColumns (normalizeIdentifier fieldName) (columns schema)).
  unfold Store.bind at 1. unfold Store.sortInPlace.
  unfold Store.bind at 1.
  rewrite (readMatches_at _ _ _ (lookup_new _ _)).
  unfold Store.bind at 1.
  rewrite (write_at _ _ _ _ (lookup_new _ _)).
  rewrite insert_new. unfold Store.ret.
  unfold Store.slice0, Store.bind.
  rewrite (readMatches_at _ _ _ (lookup_new _ _)).
  unfold Store.alloc. rewrite length_app. cbn [length].
  rewrite Nat.add_1_r, <- app_assoc. cbn [app].
  change (fun a b : ColumnMatch => score b - score a)
    with (descending score).
  rewrite (conforming_sort_is_JS_sort score _ _ contract).
  reflexivity.
Qed.

(** One call of the callback: the three variables it closes over go
    through the step of the pure evaluator, and every other cell of the
    store stays as it is. *)
Lemma visitField_run object schema (count matched missing : nat) field
    (h : list Store.Cell) n ms xs :
  h !! Store.columns object = Some (Store.Columns (columns schema)) ->
  (length (columns schema) < fuel)%nat ->
  h !! count = Some (Store.Counter n) ->
  h !! matched = Some (Store.MatchedFields ms) ->
  h !! missing = Some (Store.MissingFields xs) ->
  let tally :=
    visitField schema
      {| matchedCount := n; Routers.matched := ms; Routers.missing := xs |}
      field in
  exists h',
    Store.visitField Array_sort fuel object count matched missing field h
    = Some (tt, h')
    /\ h' !! count = Some (Store.Counter (matchedCount tally))
    /\ h' !! matched = Some (Store.MatchedFields (Routers.matched tally))
    /\ h' !! missing = Some (Store.MissingFields (Routers.missing tally))
    /\ forall r c,
         h !! r = Some c -> r <> count -> r <> matched -> r <> missing ->
         h' !! r = Some c.
Proof.
  intros Hcols Hfuel Hcount Hmatched Hmissing tally. subst tally.
  assert (Hcm : count <> matched) by (intros ->; congruence).
  assert (Hcx : count <> missing) by (intros ->; congruence).
  assert (Hmx : matched <> missing) by (intros ->; congruence).
  unfold Store.visitField, visitField. cbv zeta.
  unfold Store.bind at 1.
  rewrite (getTopColumnMatches_run _ _ schema 3 _ Hcols Hfuel).
  set (top := getTopColumnMatches field schema 3).
  set (h1 := h ++ [_; Store.Matches top]).
  assert (Htop : h1 !! S (length h) = Some (Store.Matches top))
    by apply lookup_second_new.
  assert (Hkeep : forall r c, h !! r = Some c -> h1 !! r = Some c)
    by (intros r c Hr; now apply lookup_app_l_Some).
  unfold Store.bind at 1. rewrite (readMatches_at _ _ _ Htop).
  assert (Hotherwise :
            exists h',
              Store.bind (Store.readMatches (S (length h)))
                (fun suggested =>
                   Store.pushMissing missing
                     (MissingField.mk field
                        (map (fun m => qualifiedName (SchemaDiscovery.column m))
                           suggested))) h1
              = Some (tt, h')
              /\ h' !! count = Some (Store.Counter n)
              /\ h' !! matched = Some (Store.MatchedFields ms)
              /\ h' !! missing
                 = Some (Store.MissingFields
                           (xs ++ [MissingField.mk field
                                     (map (fun m =>
                                             qualifiedName
                                               (SchemaDiscovery.column m))
                                        top)]))
              /\ forall r c,
                   h !! r = Some c ->
                   r <> count -> r <> matched -> r <> missing ->
                   h' !! r = Some c).
  { eexists. unfold Store.bind. rewrite (readMatches_at _ _ _ Htop).
    rewrite (pushMissing_at _ _ xs) by now apply Hkeep.
    split; [reflexivity|].
    rewrite !list_lookup_insert_ne by congruence.
    rewrite list_lookup_insert_eq
      by (apply lookup_lt_Some with (x := Store.MissingFields xs);
          now apply Hkeep).
    repeat split; auto.
    intros r c Hr _ _ Hne. rewrite list_lookup_insert_ne by congruence.
    now apply Hkeep. }
  destruct (hd_error top) as [best|]; [|exact Hotherwise].
  destruct (JS.ge (score best) 0.35); [|exact Hotherwise].
  clear Hotherwise. eexists. unfold Store.bind.
  rewrite (increment_at _ _ n) by now apply Hkeep.
  rewrite (pushMatched_at _ _ ms)
    by (rewrite list_lookup_insert_ne by congruence; now apply Hkeep).
  split; [reflexivity|]. cbn [matchedCount Routers.matched Routers.missing].
  assert (Hlen : forall r c, h !! r = Some c -> (r < length h1)%nat).
  { intros r c Hr. apply lookup_lt_Some with (x := c). now apply Hkeep. }
  split; [|split; [|split]].
  - rewrite list_lookup_insert_ne by congruence.
    apply list_lookup_insert_eq. eauto.
  - apply list_lookup_insert_eq. rewrite length_insert. eauto.
  - rewrite !list_lookup_insert_ne by congruence. now apply Hkeep.
  - intros r c Hr Hne1 Hne2 _.
    rewrite !list_lookup_insert_ne by congruence. now apply Hkeep.
Qed.

(** The [forEach] loop from index [i] on. *)
Lemma forEach_visitField_run object schema (unique count matched missing : nat)
    (fields : list string) :
  (length (columns schema) < fuel)%nat ->
  forall m i (h : list Store.Cell) n ms xs,
    (i + m <= length fields)%nat ->
    h !! unique = Some (Store.Strings fields) ->
    h !! Store.columns object = Some (Store.Columns (columns schema)) ->
    h !! count = Some (Store.Counter n) ->
    h !! matched = Some (Store.MatchedFields ms) ->
    h !! missing = Some (Store.MissingFields xs) ->
    let tally :=
      fold_left (visitField schema) (take m (drop i fields))
        {| matchedCount := n; Routers.matched := ms; Routers.missing := xs |} in
    exists h',
      Store.forIndices (seq i m)
        (fun k =>
           Store.bind (Store.readStrings unique)
             (fun l' =>
                match l' !! k with
                | Some x =>
                    Store.visitField Array_sort fuel object count matched
                      missing x
                | None => Store.ret tt
                end)) h
      = Some (tt, h')
      /\ h' !! count = Some (Store.Counter (matchedCount tally))
      /\ h' !! matched = Some (Store.MatchedFields (Routers.matched tally))
      /\ h' !! missing = Some (Store.MissingFields (Routers.missing tally))
      /\ forall r c,
           h !! r = Some c -> r <> count -> r <> matched -> r <> missing ->
           h' !! r = Some c.
Proof.
  intros Hfuel m.
  induction m as [|m IH]; intros i h n ms xs Hi Hunique Hcols Hc Hm Hx.
  - cbn. exists h. repeat split; auto.
  - cbn [seq Store.forIndices]. cbv zeta.
    destruct (lookup_lt_is_Some_2 fields i ltac:(lia)) as [x Ex].
    rewrite (drop_S _ _ _ Ex). cbn [take firstn fold_left].
    unfold Store.bind at 1. unfold Store.bind at 1.
    rewrite (readStrings_at _ _ _ Hunique), Ex.
    destruct (visitField_run object schema count matched missing x h n ms xs
                Hcols Hfuel Hc Hm Hx)
      as (h1 & Hrun & Hc1 & Hm1 & Hx1 & Hframe).
    rewrite Hrun.
    destruct (IH (S i) h1 _ _ _ ltac:(lia)
                (Hframe _ _ Hunique ltac:(intros ->; congruence)
                   ltac:(intros ->; congruence) ltac:(intros ->; congruence))
                (Hframe _ _ Hcols ltac:(intros E; rewrite E in Hcols; congruence)
                   ltac:(intros E; rewrite E in Hcols; congruence)
                   ltac:(intros E; rewrite E in Hcols; congruence))
                Hc1 Hm1 Hx1)
      as (h2 & Hrun2 & Hc2 & Hm2 & Hx2 & Hframe2).
    exists h2. split; [exact Hrun2|].
    destruct (visitField schema _ x) as [n1 ms1 xs1] eqn:Et.
    cbn [matchedCount Routers.matched Routers.missing] in *.
    repeat split; auto.
Qed.

(** A call of the evaluator returns, the report it returns holds what the
    pure function computes from the contents of its two arguments, and
    every cell the store had before the call is unchanged. *)
Lemma evaluateFieldCoverage_run object fieldNames (h : list Store.Cell)
    schema names :
  readInputs h object fieldNames = Some (schema, names) ->
  coversColumns fuel schema ->
  exists report h',
    Store.evaluateFieldCoverage Array_sort fuel object fieldNames h
    = Some (report, h')
    /\ Store.readReport h' report
       = Some (evaluateFieldCoverage schema names)
    /\ preserved h h'.
Proof.
  unfold readInputs. intros Hin Hfuel.
  destruct (h !! fieldNames) as [[names'| | | | | |]|] eqn:Hnames;
    try discriminate.
  unfold Store.evaluateFieldCoverage. unfold Store.bind at 1.
  rewrite (readStrings_at _ _ _ Hnames).
  assert (Hearly :
            exists report h',
              Store.bind (Store.alloc (Store.MatchedFields []))
                (fun matchedFields =>
                   Store.bind (Store.alloc (Store.MissingFields []))
                     (fun missingFields =>
                        Store.ret
                          {| Store.coveragePercent :=
                               match names' with [] => 100 | _ => 0 end;
                             Store.matchedFields := matchedFields;
                             Store.missingFields := missingFields |})) h
              = Some (report, h')
              /\ Store.readReport h' report
                 = Some {| coveragePercent :=
                             match names' with [] => 100 | _ => 0 end;
                           matchedFields := [];
                           missingFields := [] |}
              /\ preserved h h').
  { do 2 eexists. split; [reflexivity|]. split.
    - unfold Store.readReport.
      cbn [Store.matchedFields Store.missingFields Store.coveragePercent].
      rewrite lookup_new.
      rewrite (lookup_app_l_Some _ _ _ _ (lookup_new h _)).
      reflexivity.
    - eapply preserved_trans; apply preserved_alloc. }
  destruct object as [object|].
  2:{ injection Hin as <- <-.
      destruct Hearly as (report & h' & Hrun & Hread & Hpres).
      exists report, h'. split; [exact Hrun|]. split; [|exact Hpres].
      rewrite Hread. now destruct names'. }
  unfold Store.readSchema in Hin.
  destruct (h !! Store.tables object) as [[t| | | | | |]|]; try discriminate.
  destruct (h !! Store.columns object) as [[|cols| | | | |]|] eqn:Hcols;
    try discriminate.
  destruct (h !! Store.relationships object) as [[| |rels| | | |]|];
    try discriminate.
  injection Hin as <- <-. cbn [coversColumns columns] in Hfuel.
  destruct names' as [|name names'].
  { destruct Hearly as (report & h' & Hrun & Hread & Hpres).
    exists report, h'. split; [exact Hrun|]. split; [|exact Hpres].
    rewrite Hread. reflexivity. }
  clear Hearly.
  set (names := name :: names') in *.
  set (schema := {| tables := t; columns := cols; relationships := rels |}).
  set (fields := uniqueFieldsOf names).
  unfold Store.bind at 1. unfold Store.alloc at 1.
  unfold Store.bind at 1. unfold Store.alloc at 1.
  unfold Store.bind at 1. unfold Store.alloc at 1.
  unfold Store.bind at 1. unfold Store.alloc at 1.
  set (h1 := h ++ [Store.Strings fields]).
  set (h2 := h1 ++ [Store.Counter 0]).
  set (h3 := h2 ++ [Store.MatchedFields []]).
  set (h4 := h3 ++ [Store.MissingFields []]).
  assert (P1 : preserved h h1) by apply preserved_alloc.
  assert (P2 : preserved h1 h2) by apply preserved_alloc.
  assert (P3 : preserved h2 h3) by apply preserved_alloc.
  assert (P4 : preserved h3 h4) by apply preserved_alloc.
  assert (Hu : h4 !! length h = Some (Store.Strings fields)).
  { apply P4, P3, P2. apply lookup_new. }
  assert (Hc : h4 !! length h1 = Some (Store.Counter 0)).
  { apply P4, P3. apply lookup_new. }
  assert (Hm : h4 !! length h2 = Some (Store.MatchedFields [])).
  { apply P4. apply lookup_new. }
  assert (Hx : h4 !! length h3 = Some (Store.MissingFields []))
    by apply lookup_new.
  assert (Hcols4 : h4 !! Store.columns object
                   = Some (Store.Columns (columns schema))).
  { apply P4, P3, P2, P1. exact Hcols. }
  unfold Store.bind at 1. unfold Store.forEach. unfold Store.bind at 1.
  rewrite (readStrings_at _ _ _ Hu).
  destruct (forEach_visitField_run object schema (length h) (length h1)
              (length h2) (length h3) fields Hfuel (length fields) 0 h4
              0%nat [] [] ltac:(lia) Hu Hcols4 Hc Hm Hx)
    as (h5 & Hrun & Hc5 & Hm5 & Hx5 & Hframe).
  rewrite Hrun. rewrite drop_0, firstn_all in Hc5, Hm5, Hx5.
  assert (Hfresh : forall r c, h !! r = Some c ->
                     r <> length h1 /\ r <> length h2 /\ r <> length h3).
  { intros r c Hr. apply lookup_lt_Some in Hr.
    subst h1 h2 h3. rewrite !length_app. cbn [length]. lia. }
  assert (Hu5 : h5 !! length h = Some (Store.Strings fields)).
  { apply Hframe; [exact Hu|intros E; rewrite <- E in Hc; congruence
                  |intros E; rewrite <- E in Hm; congruence
                  |intros E; rewrite <- E in Hx; congruence]. }
  unfold Store.bind at 1. rewrite (readStrings_at _ _ _ Hu5).
  unfold Store.bind at 1. rewrite (readCounter_at _ _ _ Hc5).
  do 2 eexists. split; [reflexivity|]. split.
  - unfold Store.readReport.
    cbn [Store.matchedFields Store.missingFields Store.coveragePercent].
    rewrite Hm5, Hx5. reflexivity.
  - intros r c Hr. destruct (Hfresh r c Hr) as (N1 & N2 & N3).
    apply Hframe; [apply P4, P3, P2, P1; exact Hr | exact N1 | exact N2 | exact N3].
Qed.

End StoreRuns.

(** C9. Two calls of the evaluator whose arguments hold the same schema
    and the same field names return reports with the same contents: the
    same percentage, the same matched and missing entries in the same
    order. This holds whatever else the two stores hold, so also for a
    second call in the store the first one left, which has every earlier
    cell unchanged; and it holds for any two sorts that meet the contract
    of [Array.prototype.sort]. Both calls return, given loop bounds above
    the number of columns, and the common report is the value of the pure
    function at the contents of the arguments. *)
Theorem evaluateFieldCoverage_same_inputs_same_report
    (sort1 sort2 :
       (ColumnMatch -> ColumnMatch -> Q) ->
       list ColumnMatch -> list ColumnMatch)
    (fuel1 fuel2 : nat)
    (object1 object2 : option Store.SchemaObject)
    (fieldNames1 fieldNames2 : nat)
    (h1 h2 : list Store.Cell)
    (schema : option DatabaseSchema) (names : list string) :
  meetsSortContract (descending score) (sort1 (descending score)) ->
  meetsSortContract (descending score) (sort2 (descending score)) ->
  readInputs h1 object1 fieldNames1 = Some (schema, names) ->
  readInputs h2 object2 fieldNames2 = Some (schema, names) ->
  coversColumns fuel1 schema ->
  coversColumns fuel2 schema ->
  exists report1 h1' report2 h2',
    Store.evaluateFieldCoverage sort1 fuel1 object1 fieldNames1 h1
    = Some (report1, h1')
    /\ Store.evaluateFieldCoverage sort2 fuel2 object2 fieldNames2 h2
       = Some (report2, h2')
    /\ Store.readReport h1' report1 = Store.readReport h2' report2
    /\ Store.readReport h1' report1
       = Some (evaluateFieldCoverage schema names)
    /\ preserved h1 h1' /\ preserved h2 h2'
    /\ readInputs h1' object1 fieldNames1 = Some (schema, names).
Proof.
  intros C1 C2 I1 I2 F1 F2.
  destruct (evaluateFieldCoverage_run sort1 fuel1 C1 _ _ _ _ _ I1 F1)
    as (r1 & h1' & R1 & Q1 & P1).
  destruct (evaluateFieldCoverage_run sort2 fuel2 C2 _ _ _ _ _ I2 F2)
    as (r2 & h2' & R2 & Q2 & P2).
  exists r1, h1', r2, h2'.
  repeat split; auto; [congruence|].
  revert I1. unfold readInputs, Store.readSchema.
  destruct (h1 !! fieldNames1) as [c|] eqn:E1; [|discriminate].
  rewrite (P1 _ _ E1).
  destruct c; try discriminate.
  destruct object1 as [o|]; [|auto].
  destruct (h1 !! Store.tables o) as [c1|] eqn:E2; [|discriminate].
  destruct (h1 !! Store.columns o) as [c2|] eqn:E3;
    [|destruct c1; discriminate].
  destruct (h1 !! Store.relationships o) as [c3|] eqn:E4;
    [|destruct c1, c2; discriminate].
  now rewrite (P1 _ _ E2), (P1 _ _ E3), (P1 _ _ E4).
Qed.

Lemma evaluateFieldCoverage_same_inputs_same_report_witness :
  exists report1 h1' report2 h2',
    Store.evaluateFieldCoverage JS.sort 34 (Some mockObject) 3 mockStore
    = Some (report1, h1')
    /\ Store.evaluateFieldCoverage JS.sort 34 (Some mockObject) 3 h1'
       = Some (report2, h2')
    /\ Store.readReport h1' report1 = Store.readReport h2' report2.
Proof.
  destruct (evaluateFieldCoverage_same_inputs_same_report
              JS.sort JS.sort 34 34 (Some mockObject) (Some mockObject)
              3%nat 3%nat mockStore
              (storeAfter
                 (Store.evaluateFieldCoverage JS.sort 34 (Some mockObject)
                    3 mockStore))
              (Some generateMockDatabaseSchema)
              ["Location"; "Nonexistent Field"; " Location "]%string)
    as (r1 & h1' & r2 & h2' & R1 & R2 & E & _).
  - apply JS_sort_meets_contract.
  - apply JS_sort_meets_contract.
  - reflexivity.
  - vm_compute. reflexivity.
  - simpl. lia.
  - simpl. lia.
  - exists r1, h1', r2, h2'. rewrite R1 in R2. cbn [storeAfter] in R2.
    split; [exact R1|]. split; [exact R2 | exact E].
Defined.

Lemma in_lefts {A B} (l : list (A + B)) a : In a (lefts l) <-> In (inl a) l.
Proof.
  induction l as [|[a'|b'] l IH]; simpl; [tauto| |].
  - rewrite IH. split; intros [H|H]; auto; left; congruence.
  - rewrite IH. split; [auto|]. intros [H|H]; [discriminate|exact H].
Qed.

Lemma in_rights {A B} (l : list (A + B)) b : In b (rights l) <-> In (inr b) l.
Proof.
  induction l as [|[a'|b'] l IH]; simpl; [tauto| |].
  - rewrite IH. split; [auto|]. intros [H|H]; [discriminate|exact H].
  - rewrite IH. split; intros [H|H]; auto; left; congruence.
Qed.

Lemma classify_matched schema field m :
  classify schema field = inl m ->
  exists best rest,
    getTopColumnMatches field schema 3 = best :: rest
    /\ 0.35 <= score best
    /\ m = MatchedField.mk field
             (qualifiedName (SchemaDiscovery.column best))
             (JS.Number_toFixed (score best * 100) 1).
Proof.
  unfold classify.
  destruct (getTopColumnMatches field schema 3) as [|best rest];
    [discriminate|]. simpl.
  destruct (JS.ge (score best) 0.35) eqn:E; [|discriminate].
  intros H. inversion H. exists best, rest.
  apply ge_true_iff in E. auto.
Qed.

Lemma classify_missing schema field e :
  classify schema field = inr e ->
  e = MissingField.mk field
        (map (fun m => qualifiedName (SchemaDiscovery.column m))
           (getTopColumnMatches field schema 3))
  /\ Forall (fun m => score m < 0.35) (getTopColumnMatches field schema 3).
Proof.
  unfold classify.
  destruct (getTopColumnMatches field schema 3) as [|best rest] eqn:Etop;
    simpl.
  - intros H. inversion H. auto.
  - destruct (JS.ge (score best) 0.35) eqn:E; [discriminate|].
    intros H. inversion H. split; [reflexivity|].
    apply ge_false_iff in E.
    eapply Forall_impl; [|exact (getTopColumnMatches_head_max _ _ _ _ _ Etop)].
    simpl. intros m Hm. lra.
Qed.

Lemma Number_toFixed_1_lower (x : Q) :
  35 <= x -> 35 <= JS.Number_toFixed x 1.
Proof.
  intros Hx. unfold JS.Number_toFixed.
  destruct (JS.gt 0 x) eqn:Eneg.
  { apply gt_true_iff in Eneg. lra. }
  destruct (Qle_bool (inject_Z (10 ^ 21)) x); [exact Hx|].
  change (inject_Z (10 ^ Z.of_nat 1)) with (inject_Z 10).
  apply Qle_shift_div_l; [reflexivity|].
  change (35 * inject_Z 10) with (inject_Z 350).
  rewrite <- Zle_Qle.
  change 350%Z with (Qfloor (inject_Z 350)). apply Qfloor_resp_le.
  change (inject_Z 350) with (350 # 1). change (inject_Z 10) with (10 # 1).
  lra.
Qed.

(** C10. With a schema present, every entry of [matchedFields] has a
    confidence of at least 35: it was pushed for a best candidate whose
    score is at least 0.35, and its confidence is that score times 100
    rounded to one decimal. *)
Theorem matched_confidence_at_least_35
    (schema : DatabaseSchema) (fieldNames : list string)
    (m : MatchedField.t) :
  In m (matchedFields (evaluateFieldCoverage (Some schema) fieldNames)) ->
  35 <= MatchedField.confidence m
  /\ exists best,
       hd_error (getTopColumnMatches (MatchedField.name m) schema 3)
       = Some best
       /\ MATCH_THRESHOLD <= score best
       /\ MatchedField.confidence m
          = JS.Number_toFixed (score best * 100) 1.
Proof.
  rewrite evaluateFieldCoverage_matchedFields, in_lefts, in_map_iff.
  intros [field [Hc _]].
  apply classify_matched in Hc as (best & rest & Etop & Hscore & ->). simpl.
  split.
  - apply Number_toFixed_1_lower. lra.
  - exists best. rewrite Etop. auto.
Qed.

Lemma matched_confidence_at_least_35_witness :
  35 <= MatchedField.confidence
          (MatchedField.mk "Location" "PurchaseOrders.LocationId" 110.0).
Proof.
  apply (matched_confidence_at_least_35 generateMockDatabaseSchema
           ["Location"; "Nonexistent Field"]%string
           (MatchedField.mk "Location" "PurchaseOrders.LocationId" 110.0)).
  vm_compute. left. reflexivity.
Defined.

(** C4 (as stated, refuted). [Nonexistent Field] scores 0 against each of
    the 33 columns of the mock schema and is reported missing, but with an
    empty suggestion list, not with the three best of the zero-scored
    columns. *)
Lemma all_zero_scores_give_no_suggestions :
  forallb
    (fun c =>
       Qeq_bool (scoreColumnMatch (normalizeIdentifier "Nonexistent Field") c)
         0)
    (columns generateMockDatabaseSchema) = true
  /\ length (columns generateMockDatabaseSchema) = 33%nat
  /\ missingFields
       (evaluateFieldCoverage (Some generateMockDatabaseSchema)
          ["Nonexistent Field"]%string)
     = [MissingField.mk "Nonexistent Field" []]
  /\ topThreeRegardlessOfScore "Nonexistent Field" generateMockDatabaseSchema
     = ["PurchaseOrders.OrderId"; "PurchaseOrders.Date";
        "PurchaseOrders.OrderNumber"]%string
  /\ map MissingField.suggestions
       (missingFields
          (evaluateFieldCoverage (Some generateMockDatabaseSchema)
             ["Nonexistent Field"]%string))
     <> [topThreeRegardlessOfScore "Nonexistent Field"
           generateMockDatabaseSchema].
Proof.
  repeat split; try (vm_compute; reflexivity).
  vm_compute. discriminate.
Qed.

(** C4 (amended). For every field reported missing, the suggestions are
    the [table.column] names of [getTopColumnMatches] with limit 3: the
    columns whose score is above 0, by descending score, at most three.
    Each suggested column scores above 0 and below 0.35; a column with a
    positive score is left out only when three columns scoring at least as
    high are suggested; and when every column scores 0 the list is
    empty. *)
Theorem missing_field_suggestions
    (schema : DatabaseSchema) (fieldNames : list string)
    (e : MissingField.t) :
  In e (missingFields (evaluateFieldCoverage (Some schema) fieldNames)) ->
  let f := normalizeIdentifier (MissingField.name e) in
  let top := getTopColumnMatches (MissingField.name e) schema 3 in
  In (MissingField.name e) (uniqueFieldsOf fieldNames)
  /\ MissingField.suggestions e
     = map (fun m => qualifiedName (SchemaDiscovery.column m)) top
  /\ top
     = firstn 3
         (JS.sort (descending score)
            (map (candidate f) (filter (scoresAboveZero f) (columns schema))))
  /\ (length (MissingField.suggestions e) <= 3)%nat
  /\ Forall
       (fun m =>
          In (SchemaDiscovery.column m) (columns schema)
          /\ score m = scoreColumnMatch f (SchemaDiscovery.column m)
          /\ 0 < score m < MATCH_THRESHOLD)
       top
  /\ StronglySorted (keyGe score) top
  /\ (forall c,
        In c (columns schema) -> 0 < scoreColumnMatch f c ->
        In (candidate f c) top
        \/ (length top = 3%nat
            /\ Forall (fun m => scoreColumnMatch f c <= score m) top))
  /\ ((forall c, In c (columns schema) -> scoreColumnMatch f c == 0) ->
      MissingField.suggestions e = []).
Proof.
  rewrite evaluateFieldCoverage_missingFields, in_rights, in_map_iff.
  intros [field [Hc Hfield]].
  apply classify_missing in Hc as [-> Hlow]. simpl.
  split; [exact Hfield|]. split; [reflexivity|].
  split; [apply getTopColumnMatches_closed_form|].
  split; [rewrite length_map; apply getTopColumnMatches_length|].
  split.
  { apply Forall_forall. intros m Hm.
    destruct (getTopColumnMatches_sound _ _ _ _ Hm) as (H1 & H2 & H3).
    rewrite Forall_forall in Hlow. specialize (Hlow m Hm).
    unfold MATCH_THRESHOLD. auto. }
  split; [apply getTopColumnMatches_sorted|].
  split; [intros c; apply getTopColumnMatches_complete|].
  intros Hzero. now rewrite getTopColumnMatches_none_positive.
Qed.

Lemma missing_field_suggestions_witness :
  MissingField.suggestions
    (MissingField.mk "Suggested Qty"
       ["PurchaseOrders.SuggestedQuantity";
        "PurchaseOrders.ActualOrderQuantity";
        "Transfers.TransferQuantity"]%string)
  = map (fun m => qualifiedName (SchemaDiscovery.column m))
      (getTopColumnMatches "Suggested Qty" generateMockDatabaseSchema 3).
Proof.
  apply (missing_field_suggestions generateMockDatabaseSchema
           ["Suggested Qty"; "Location"]%string
           (MissingField.mk "Suggested Qty"
              ["PurchaseOrders.SuggestedQuantity";
               "PurchaseOrders.ActualOrderQuantity";
               "Transfers.TransferQuantity"]%string)).
  vm_compute. left. reflexivity.
Defined.

(* ===================================================================== *)
(** ** More on schema discovery *)
(* ===================================================================== *)

Lemma string_app_cons x (a b : string) :
  String x a +:+ b = String x (a +:+ b).
Proof. reflexivity. Qed.

Lemma string_app_assoc (a b c : string) : (a +:+ b) +:+ c = a +:+ (b +:+ c).
Proof.
  induction a as [|x a IH]; [reflexivity|].
  now rewrite !string_app_cons, IH.
Qed.

Lemma string_app_nil_r (a : string) : a +:+ "" = a.
Proof.
  induction a as [|x a IH]; [reflexivity|].
  now rewrite string_app_cons, IH.
Qed.

Lemma replaceAllChar_outside_class cls c r s :
  cls c = false -> JS.everyChar cls s = true -> JS.replaceAllChar c r s = s.
Proof.
  intros Hc. induction s as [|d s IH]; simpl; [reflexivity|].
  intros H. apply andb_prop in H as [Hd Hs].
  destruct (Ascii.eqb_spec d c) as [->|_]; [congruence|].
  now rewrite IH.
Qed.

Lemma formatIdentifier_closed_form (value : string) :
  formatIdentifier value
  = if JS.testOneOrMore isWordOrHyphen value then Ok ("[" +:+ value +:+ "]")
    else if String.eqb value "" then
      Throw {| message := "Database name is required" |}
    else Throw {| message := "Invalid database name: " +:+ value |}.
Proof.
  destruct (JS.testOneOrMore isWordOrHyphen value) eqn:E.
  - unfold formatIdentifier. rewrite E. unfold JS.testOneOrMore in E.
    apply andb_prop in E as [Hne Hall].
    unfold JS.Boolean. rewrite Hne. simpl.
    now rewrite (replaceAllChar_outside_class isWordOrHyphen "]" "]]" value).
  - rewrite (formatIdentifier_rejects _ E).
    now destruct (String.eqb value "").
Qed.

(** [formatIdentifier] accepts exactly the names made of one or more of
    [A-Za-z0-9_-] and returns such a name between brackets, unchanged: no
    accepted name contains a closing bracket, so the doubling of [']']
    never applies. Every other name is thrown back, the empty one with its
    own message. *)
Theorem formatIdentifier_brackets_accepted_names (value : string) :
  formatIdentifier value
  = if JS.testOneOrMore isWordOrHyphen value then Ok ("[" +:+ value +:+ "]")
    else if String.eqb value "" then
      Throw {| message := "Database name is required" |}
    else Throw {| message := "Invalid database name: " +:+ value |}.
Proof.
  destruct (JS.testOneOrMore isWordOrHyphen value) eqn:E.
  - unfold formatIdentifier. rewrite E. unfold JS.testOneOrMore in E.
    apply andb_prop in E as [Hne Hall].
    unfold JS.Boolean. rewrite Hne. simpl.
    now rewrite (replaceAllChar_outside_class isWordOrHyphen "]" "]]" value).
  - rewrite (formatIdentifier_rejects _ E).
    now destruct (String.eqb value "").
Qed.

Lemma queriesOf_app e1 e2 : queriesOf (e1 ++ e2) = queriesOf e1 ++ queriesOf e2.
Proof.
  induction e1 as [|[t|t e|q] e1 IH]; simpl; rewrite ?IH; reflexivity.
Qed.

Lemma queriesOf_discoverDatabaseSchema
    (db : option ConnectionPool) (databaseName : string) :
  queriesOf (fst (discoverDatabaseSchema db databaseName))
  = match db with
    | Some _ =>
        if JS.testOneOrMore isWordOrHyphen databaseName then
          let dbIdentifier := "[" +:+ databaseName +:+ "]" in
          [tablesQuery dbIdentifier; columnsQuery dbIdentifier;
           primaryKeysQuery dbIdentifier; foreignKeysQuery dbIdentifier]
        else []
    | None => []
    end.
Proof.
  unfold discoverDatabaseSchema, discoverTryBlock.
  destruct db as [pool|]; [|reflexivity].
  rewrite formatIdentifier_closed_form.
  destruct (JS.testOneOrMore isWordOrHyphen databaseName).
  - destruct (queryTables pool _), (queryColumns pool _),
      (queryPrimaryKeys pool _), (queryForeignKeys pool _); reflexivity.
  - now destruct (String.eqb databaseName "").
Qed.

(** A call of [discoverDatabaseSchema] sends either no request or exactly
    the four catalogue requests, in the order tables, columns, primary
    keys, foreign keys, each over the database name in brackets; it sends
    them exactly when there is a connection and the name is accepted,
    whether or not the requests then succeed. *)
Theorem discoverDatabaseSchema_requests
    (db : option ConnectionPool) (databaseName : string) :
  queriesOf (fst (discoverDatabaseSchema db databaseName))
  = match db with
    | Some _ =>
        if JS.testOneOrMore isWordOrHyphen databaseName then
          let dbIdentifier := "[" +:+ databaseName +:+ "]" in
          [tablesQuery dbIdentifier; columnsQuery dbIdentifier;
           primaryKeysQuery dbIdentifier; foreignKeysQuery dbIdentifier]
        else []
    | None => []
    end.
Proof.
  unfold discoverDatabaseSchema, discoverTryBlock.
  destruct db as [pool|]; [|reflexivity].
  rewrite formatIdentifier_closed_form.
  destruct (JS.testOneOrMore isWordOrHyphen databaseName).
  - destruct (queryTables pool _), (queryColumns pool _),
      (queryPrimaryKeys pool _), (queryForeignKeys pool _); reflexivity.
  - now destruct (String.eqb databaseName "").
Qed.

(** When there is a connection, the name is accepted and at least one of
    the four requests is rejected, the call still sends all four, logs one
    error as its last event, and is fulfilled with the mock schema. *)
Theorem rejected_request_falls_back_to_mock
    (pool : ConnectionPool) (databaseName : string) :
  JS.testOneOrMore isWordOrHyphen databaseName = true ->
  (let dbIdentifier := "[" +:+ databaseName +:+ "]" in
   rejected (queryTables pool (tablesQuery dbIdentifier))
   || rejected (queryColumns pool (columnsQuery dbIdentifier))
   || rejected (queryPrimaryKeys pool (primaryKeysQuery dbIdentifier))
   || rejected (queryForeignKeys pool (foreignKeysQuery dbIdentifier)))
  = true ->
  snd (discoverDatabaseSchema (Some pool) databaseName)
  = Ok (Some generateMockDatabaseSchema)
  /\ length (queriesOf (fst (discoverDatabaseSchema (Some pool) databaseName)))
     = 4%nat
  /\ exists error,
       last (fst (discoverDatabaseSchema (Some pool) databaseName))
         (ConsoleLog "")
       = ConsoleError "[SchemaDiscovery] Error discovering schema:" error.
Proof.
  intros Hvalid Hrej.
  split; [|split].
  - unfold discoverDatabaseSchema, discoverTryBlock.
    rewrite formatIdentifier_closed_form, Hvalid.
    simpl in Hrej.
    destruct (queryTables pool _), (queryColumns pool _),
      (queryPrimaryKeys pool _), (queryForeignKeys pool _);
      simpl in *; try reflexivity; discriminate Hrej.
  - rewrite queriesOf_discoverDatabaseSchema, Hvalid. reflexivity.
  - unfold discoverDatabaseSchema, discoverTryBlock.
    rewrite formatIdentifier_closed_form, Hvalid.
    simpl in Hrej.
    destruct (queryTables pool _), (queryColumns pool _),
      (queryPrimaryKeys pool _), (queryForeignKeys pool _);
      simpl in *; try discriminate Hrej; eauto.
Qed.

Lemma rejected_request_falls_back_to_mock_witness :
  snd (discoverDatabaseSchema (Some poolWithFailingColumns) "Sales")
  = Ok (Some generateMockDatabaseSchema).
Proof.
  apply (rejected_request_falls_back_to_mock poolWithFailingColumns "Sales");
    reflexivity.
Defined.

Lemma discoverDatabaseSchema_outcome db databaseName :
  snd (discoverDatabaseSchema db databaseName)
  = Ok (Some generateMockDatabaseSchema)
  \/ exists tablesResult columnsResult pkResult fkResult,
       snd (discoverDatabaseSchema db databaseName)
       = Ok (Some (assembleSchema tablesResult columnsResult pkResult
                     fkResult)).
Proof.
  unfold discoverDatabaseSchema, discoverTryBlock.
  destruct db as [pool|]; [|now left].
  destruct (formatIdentifier databaseName); [|now left].
  destruct (queryTables pool _), (queryColumns pool _),
    (queryPrimaryKeys pool _), (queryForeignKeys pool _);
    simpl; eauto 10.
Qed.

Lemma columnOfRow_referenceConsistent pkSet fkMap row :
  referenceConsistent (columnOfRow pkSet fkMap row) = true.
Proof.
  unfold referenceConsistent, columnOfRow. simpl.
  now destruct (fkMap !! _).
Qed.

(** Whatever the connection answers, in every column of the schema a call
    is fulfilled with, the foreign-key flag is set exactly when both the
    referenced table and the referenced column are present. *)
Theorem discovered_columns_reference_consistent
    (db : option ConnectionPool) (databaseName : string) :
  match snd (discoverDatabaseSchema db databaseName) with
  | Ok (Some schema) => forallb referenceConsistent (columns schema) = true
  | _ => False
  end.
Proof.
  destruct (discoverDatabaseSchema_outcome db databaseName)
    as [E|(t & c & p & f & E)]; rewrite E.
  - vm_compute. reflexivity.
  - simpl. apply forallb_forall. intros col Hcol.
    apply in_map_iff in Hcol as [row [<- _]].
    apply columnOfRow_referenceConsistent.
Qed.

Lemma buildPkSet_loop rows : forall (acc : gset string) k,
  k ∈ fold_left
        (fun pkSet row =>
           pkSet ∪ {[ ku_TABLE_SCHEMA row +:+ "." +:+ ku_TABLE_NAME row
                      +:+ "." +:+ ku_COLUMN_NAME row ]})
        rows acc
  <-> k ∈ acc \/ exists r, In r rows /\ primaryKeyKey r = k.
Proof.
  induction rows as [|x rows IH]; intros acc k; simpl.
  - split; [auto | intros [H|[r [[] _]]]; exact H].
  - rewrite IH, elem_of_union, elem_of_singleton. unfold primaryKeyKey.
    split.
    + intros [[H|H]|[r [Hr Hk]]]; eauto.
    + intros [H|[r [[<-|Hr] Hk]]]; eauto.
Qed.

Lemma buildPkSet_elem rows k :
  k ∈ buildPkSet rows <-> exists r, In r rows /\ primaryKeyKey r = k.
Proof.
  unfold buildPkSet. rewrite buildPkSet_loop.
  split; [intros [H|H]; [set_solver | exact H] | auto].
Qed.

Lemma find_app {A} (p : A -> bool) l1 l2 :
  find p (l1 ++ l2)
  = match find p l1 with Some x => Some x | None => find p l2 end.
Proof.
  induction l1 as [|x l1 IH]; simpl; [reflexivity|].
  now destruct (p x).
Qed.

Lemma buildFkMap_loop rows : forall (acc : gmap string (string * string)) k,
  fold_left
    (fun fkMap row =>
       let key := FK_SCHEMA row +:+ "." +:+ FK_TABLE row
                  +:+ "." +:+ FK_COLUMN row in
       let referencedTable := PK_SCHEMA row +:+ "." +:+ PK_TABLE row in
       <[ key := (referencedTable, PK_COLUMN row) ]> fkMap)
    rows acc !! k
  = match lastForeignKey rows k with
    | Some r => Some (PK_SCHEMA r +:+ "." +:+ PK_TABLE r, PK_COLUMN r)
    | None => acc !! k
    end.
Proof.
  unfold lastForeignKey.
  induction rows as [|x rows IH]; intros acc k; simpl; [reflexivity|].
  rewrite IH, find_app.
  destruct (find _ (rev rows)); [reflexivity|]. simpl.
  unfold foreignKeyKey at 1.
  destruct (String.eqb_spec
              (FK_SCHEMA x +:+ "." +:+ FK_TABLE x +:+ "." +:+ FK_COLUMN x) k)
    as [->|Hne].
  - now rewrite lookup_insert_eq.
  - now rewrite lookup_insert_ne.
Qed.

Lemma buildFkMap_lookup rows k :
  buildFkMap rows !! k
  = (fun r => (PK_SCHEMA r +:+ "." +:+ PK_TABLE r, PK_COLUMN r))
      <$> lastForeignKey rows k.
Proof.
  unfold buildFkMap. rewrite buildFkMap_loop.
  now destruct (lastForeignKey rows k).
Qed.

Lemma lastForeignKey_Some rows k :
  (exists r, In r rows /\ foreignKeyKey r = k)
  <-> exists r, lastForeignKey rows k = Some r.
Proof.
  unfold lastForeignKey. split.
  - intros [r [Hr Hk]].
    destruct (find _ (rev rows)) as [r'|] eqn:E; [eauto|].
    apply in_rev in Hr. pose proof (find_none _ _ E r Hr) as Hn.
    simpl in Hn. subst k. rewrite String.eqb_refl in Hn. discriminate Hn.
  - intros [r E]. apply find_some in E as [Hr Hk].
    exists r. split; [now apply in_rev | now apply String.eqb_eq].
Qed.

Lemma Forall2_map_self {A B} (P : A -> B -> Prop) (f : A -> B) l :
  (forall x, In x l -> P x (f x)) -> Forall2 P l (map f l).
Proof.
  induction l as [|x l IH]; simpl; intros H; constructor; auto.
Qed.

Lemma columnOfRow_isPrimaryKey pkResult fkMap row :
  isPrimaryKey (columnOfRow (buildPkSet pkResult) fkMap row) = true
  <-> exists r, In r pkResult /\ primaryKeyKey r = columnKey row.
Proof.
  unfold columnOfRow. cbn [isPrimaryKey].
  rewrite bool_decide_eq_true. apply buildPkSet_elem.
Qed.

Lemma columnOfRow_references pkSet fkResult row :
  let col := columnOfRow pkSet (buildFkMap fkResult) row in
  let last := lastForeignKey fkResult (columnKey row) in
  isForeignKey col = match last with Some _ => true | None => false end
  /\ referencedTable col
     = (fun r => PK_SCHEMA r +:+ "." +:+ PK_TABLE r) <$> last
  /\ referencedColumn col = PK_COLUMN <$> last.
Proof.
  unfold columnOfRow.
  cbn [isForeignKey referencedTable referencedColumn].
  fold (columnKey row). rewrite buildFkMap_lookup.
  now destruct (lastForeignKey fkResult (columnKey row)).
Qed.

(** In an assembled schema the columns stand one for one, in order, for
    the rows of the [COLUMNS] request. A column is flagged primary key
    exactly when some primary-key row has its dotted key
    [schema.table.column], and foreign key exactly when some foreign-key
    row has it. *)
Theorem assembled_columns_key_flags
    (tablesResult : list TablesRow) (columnsResult : list ColumnsRow)
    (pkResult : list PrimaryKeysRow) (fkResult : list ForeignKeysRow) :
  Forall2
    (fun row col =>
       columnName col = c_COLUMN_NAME row
       /\ tableName col = c_TABLE_SCHEMA row +:+ "." +:+ c_TABLE_NAME row
       /\ (isPrimaryKey col = true
           <-> exists r, In r pkResult /\ primaryKeyKey r = columnKey row)
       /\ (isForeignKey col = true
           <-> exists r, In r fkResult /\ foreignKeyKey r = columnKey row))
    columnsResult
    (columns (assembleSchema tablesResult columnsResult pkResult fkResult)).
Proof.
  unfold assembleSchema. cbn [columns].
  apply Forall2_map_self. intros row _.
  split; [reflexivity|]. split; [reflexivity|].
  split; [apply columnOfRow_isPrimaryKey|].
  destruct (columnOfRow_references (buildPkSet pkResult) fkResult row)
    as [-> _].
  rewrite lastForeignKey_Some.
  destruct (lastForeignKey fkResult (columnKey row)); split; eauto;
    try discriminate.
  intros [r Hr]. discriminate Hr.
Qed.

(** When several foreign-key rows share the key of a column, the column
    keeps the reference of the last of them, while [relationships] keeps
    one entry per row; so every foreign-key column has an entry in
    [relationships] with its own table, column and reference. *)
Theorem assembled_foreign_keys_last_row_wins
    (tablesResult : list TablesRow) (columnsResult : list ColumnsRow)
    (pkResult : list PrimaryKeysRow) (fkResult : list ForeignKeysRow) :
  let schema :=
    assembleSchema tablesResult columnsResult pkResult fkResult in
  length (relationships schema) = length fkResult
  /\ Forall2
       (fun row col =>
          referencedTable col
          = (fun r => PK_SCHEMA r +:+ "." +:+ PK_TABLE r)
              <$> lastForeignKey fkResult (columnKey row)
          /\ referencedColumn col
             = PK_COLUMN <$> lastForeignKey fkResult (columnKey row))
       columnsResult (columns schema)
  /\ Forall
       (fun col =>
          if isForeignKey col then
            exists rel,
              In rel (relationships schema)
              /\ fromTable rel +:+ "." +:+ fromColumn rel
                 = tableName col +:+ "." +:+ columnName col
              /\ referencedTable col = Some (toTable rel)
              /\ referencedColumn col = Some (toColumn rel)
          else True)
       (columns schema).
Proof.
  unfold assembleSchema. cbn [columns relationships].
  split; [apply length_map|]. split.
  - apply Forall2_map_self. intros row _.
    apply (columnOfRow_references (buildPkSet pkResult) fkResult row).
  - apply Forall_forall. intros col Hcol.
    apply in_map_iff in Hcol as [row [<- _]].
    destruct (columnOfRow_references (buildPkSet pkResult) fkResult row)
      as (-> & -> & ->).
    destruct (lastForeignKey fkResult (columnKey row)) as [r|] eqn:E;
      [|exact I].
    apply find_some in E as [Hr Hk]. apply in_rev in Hr.
    apply String.eqb_eq in Hk.
    exists (relationshipOfRow r). split; [now apply in_map|].
    split; [|split; reflexivity].
    unfold relationshipOfRow, columnOfRow.
    cbn [fromTable fromColumn tableName columnName].
    unfold foreignKeyKey, columnKey in Hk.
    now rewrite !string_app_assoc.
Qed.

(* ===================================================================== *)
(** ** More on the normalizer and the score *)
(* ===================================================================== *)

Lemma toLowerCase_app a b :
  JS.toLowerCase (a +:+ b) = JS.toLowerCase a +:+ JS.toLowerCase b.
Proof.
  induction a as [|x a IH]; [reflexivity|].
  rewrite string_app_cons. simpl. now rewrite IH, string_app_cons.
Qed.

Lemma removeAll_app cls a b :
  JS.removeAll cls (a +:+ b) = JS.removeAll cls a +:+ JS.removeAll cls b.
Proof.
  induction a as [|x a IH]; [reflexivity|].
  rewrite string_app_cons. simpl.
  destruct (cls x); now rewrite IH, ?string_app_cons.
Qed.

Lemma removeAll_length cls s :
  (String.length (JS.removeAll cls s) <= String.length s)%nat.
Proof.
  induction s as [|x s IH]; simpl; [lia|].
  destruct (cls x); simpl; lia.
Qed.

Lemma toLowerCase_length s :
  String.length (JS.toLowerCase s) = String.length s.
Proof. induction s as [|x s IH]; simpl; [reflexivity | now rewrite IH]. Qed.

Lemma toLowerCaseChar_idempotent c :
  JS.toLowerCaseChar (JS.toLowerCaseChar c) = JS.toLowerCaseChar c.
Proof. destruct c as [[] [] [] [] [] [] [] []]; reflexivity. Qed.

Lemma toLowerCase_idempotent s :
  JS.toLowerCase (JS.toLowerCase s) = JS.toLowerCase s.
Proof.
  induction s as [|x s IH]; simpl; [reflexivity|].
  now rewrite toLowerCaseChar_idempotent, IH.
Qed.

(** The normalizer commutes with concatenation, cannot lengthen a string,
    and does not see the case of its argument. *)
Theorem normalizeIdentifier_concatenation (a b : string) :
  normalizeIdentifier (a +:+ b)
  = normalizeIdentifier a +:+ normalizeIdentifier b
  /\ (String.length (normalizeIdentifier a) <= String.length a)%nat
  /\ normalizeIdentifier (JS.toLowerCase a) = normalizeIdentifier a.
Proof.
  unfold normalizeIdentifier. split; [|split].
  - now rewrite toLowerCase_app, removeAll_app.
  - eapply Nat.le_trans; [apply removeAll_length|].
    now rewrite toLowerCase_length.
  - now rewrite toLowerCase_idempotent.
Qed.

Lemma whiteSpace_is_removed c :
  JS.isWhiteSpace c = true ->
  negb (JS.between "a" "z" (JS.toLowerCaseChar c)
        || JS.between "0" "9" (JS.toLowerCaseChar c)) = true.
Proof.
  destruct c as [[] [] [] [] [] [] [] []]; vm_compute;
    solve [reflexivity | discriminate].
Qed.

Lemma normalizeIdentifier_cons_whiteSpace c s :
  JS.isWhiteSpace c = true ->
  normalizeIdentifier (String c s) = normalizeIdentifier s.
Proof.
  intros H. unfold normalizeIdentifier. simpl.
  now rewrite (whiteSpace_is_removed c H).
Qed.

Lemma normalizeIdentifier_cons_congruence c s t :
  normalizeIdentifier s = normalizeIdentifier t ->
  normalizeIdentifier (String c s) = normalizeIdentifier (String c t).
Proof.
  unfold normalizeIdentifier. simpl. intros ->. reflexivity.
Qed.

Lemma normalizeIdentifier_trimStart s :
  normalizeIdentifier (JS.trimStart s) = normalizeIdentifier s.
Proof.
  induction s as [|c s IH]; simpl; [reflexivity|].
  destruct (JS.isWhiteSpace c) eqn:E; [|reflexivity].
  now rewrite IH, normalizeIdentifier_cons_whiteSpace.
Qed.

Lemma normalizeIdentifier_trimEnd s :
  normalizeIdentifier (JS.trimEnd s) = normalizeIdentifier s.
Proof.
  induction s as [|c s IH]; simpl; [reflexivity|].
  destruct (JS.isWhiteSpace c) eqn:E; simpl.
  - destruct (String.eqb_spec (JS.trimEnd s) "") as [Hnil|_].
    + rewrite normalizeIdentifier_cons_whiteSpace by exact E.
      now rewrite <- IH, Hnil.
    + now apply normalizeIdentifier_cons_congruence.
  - now apply normalizeIdentifier_cons_congruence.
Qed.

Lemma normalizeIdentifier_trim s :
  normalizeIdentifier (JS.trim s) = normalizeIdentifier s.
Proof.
  unfold JS.trim.
  now rewrite normalizeIdentifier_trimEnd, normalizeIdentifier_trimStart.
Qed.

(** Matching does not see surrounding white space: a name and its trimmed
    form have the same top matches and the same best match. *)
Theorem matching_ignores_surrounding_whitespace
    (fieldName : string) (schema : DatabaseSchema) (limit : nat) :
  normalizeIdentifier (JS.trim fieldName) = normalizeIdentifier fieldName
  /\ getTopColumnMatches (JS.trim fieldName) schema limit
     = getTopColumnMatches fieldName schema limit
  /\ findColumnMatch (JS.trim fieldName) schema
     = findColumnMatch fieldName schema.
Proof.
  assert (H : forall n, getTopColumnMatches (JS.trim fieldName) schema n
                        = getTopColumnMatches fieldName schema n).
  { intros n. unfold getTopColumnMatches.
    now rewrite normalizeIdentifier_trim. }
  split; [apply normalizeIdentifier_trim|]. split; [apply H|].
  unfold findColumnMatch. now rewrite H.
Qed.

Lemma prefix_length s1 : forall s2,
  String.prefix s1 s2 = true -> (String.length s1 <= String.length s2)%nat.
Proof.
  induction s1 as [|a s1 IH]; intros [|b s2]; simpl; try lia;
    try discriminate.
  destruct (ascii_dec a b); [|discriminate].
  intros H. apply IH in H. lia.
Qed.

Lemma includes_length s sub :
  JS.includes s sub = true -> (String.length sub <= String.length s)%nat.
Proof.
  induction s as [|c s IH]; cbn [JS.includes].
  - destruct (String.prefix sub "") eqn:E; [|discriminate].
    intros _. now apply prefix_length in E.
  - destruct (String.prefix sub (String c s)) eqn:E.
    + intros _. now apply prefix_length in E.
    + intros H. apply IH in H. simpl. lia.
Qed.

Lemma lengthOf_ratio_unit a b :
  (String.length a <= String.length b)%nat ->
  0 <= lengthOf a / lengthOf b <= 1.
Proof.
  unfold lengthOf. intros Hle.
  destruct (String.length b) as [|n] eqn:Eb.
  - replace (String.length a) with 0%nat by lia.
    split; unfold Qle; simpl; lia.
  - assert (Ha : 0 <= inject_Z (Z.of_nat (String.length a))).
    { change 0 with (inject_Z 0). rewrite <- Zle_Qle. lia. }
    assert (Hb : 0 < inject_Z (Z.of_nat (S n))).
    { change 0 with (inject_Z 0). rewrite <- Zlt_Qlt. lia. }
    assert (Hab : inject_Z (Z.of_nat (String.length a))
                  <= inject_Z (Z.of_nat (S n))).
    { rewrite <- Zle_Qle. lia. }
    split.
    + apply Qle_shift_div_l; [exact Hb | lra].
    + apply Qle_shift_div_r; [exact Hb | lra].
Qed.

Lemma containmentScore_range f c :
  0 <= containmentScore f c <= 1.3.
Proof.
  unfold containmentScore.
  destruct (String.eqb c f).
  { case_ifs; split; lra. }
  destruct (JS.includes c f) eqn:Ecf.
  { pose proof (lengthOf_ratio_unit f c (includes_length _ _ Ecf)) as [H0 H1].
    rewrite orb_true_r. split; lra. }
  destruct (JS.includes f c) eqn:Efc.
  { pose proof (lengthOf_ratio_unit c f (includes_length _ _ Efc)) as [H0 H1].
    simpl. split; lra. }
  simpl. split; lra.
Qed.

Lemma synonymBoosts_range f c : 0 <= synonymBoosts f c <= 1.15.
Proof.
  unfold synonymBoosts. case_ifs; split; unfold Qle; simpl; lia.
Qed.

(** A score is never negative and never above 2.45, the sum of 1 for the
    exact match, 0.3 for containment and 1.15 for the six synonym pairs;
    and no score is above that of a column matched exactly by a name in
    which all six pairs fire. *)
Theorem scoreColumnMatch_range (normalizedField : string) (c : TableColumn) :
  0 <= scoreColumnMatch normalizedField c <= 2.45
  /\ scoreColumnMatch normalizedField c
     <= scoreColumnMatch allSynonyms
          (mkColumn "T" allSynonyms "int" false false false None None).
Proof.
  assert (Hmax : scoreColumnMatch allSynonyms
                   (mkColumn "T" allSynonyms "int" false false false None None)
                 == 2.45) by (vm_compute; reflexivity).
  rewrite Hmax. rewrite scoreColumnMatch_sum.
  pose proof (containmentScore_range normalizedField
                (normalizeIdentifier (columnName c))) as [H1 H2].
  pose proof (synonymBoosts_range normalizedField
                (normalizeIdentifier (columnName c))) as [H3 H4].
  repeat split; lra.
Qed.

(** A score is 0 exactly when neither normalized name contains the other
    and no synonym pair fires. Otherwise it is at least 0.15, and at least
    0.3 when one name contains the other. So the test [score > 0] of the
    scoring loop passes exactly when there is containment or a synonym
    pair. *)
Theorem scoreColumnMatch_zero_or_substantial
    (normalizedField : string) (c : TableColumn) :
  let normalizedColumn := normalizeIdentifier (columnName c) in
  let contained :=
    JS.includes normalizedField normalizedColumn
    || JS.includes normalizedColumn normalizedField in
  let s := scoreColumnMatch normalizedField c in
  (if contained then 0.3 <= s
   else if synonymFires normalizedField normalizedColumn then 0.15 <= s
   else s == 0)
  /\ (if JS.gt s 0
      then contained || synonymFires normalizedField normalizedColumn = true
      else contained || synonymFires normalizedField normalizedColumn = false).
Proof.
  intros nc contained s.
  assert (Hs : s == containmentScore normalizedField nc
                    + synonymBoosts normalizedField nc)
    by apply scoreColumnMatch_sum.
  pose proof (containmentScore_range normalizedField nc) as [Hc0 _].
  pose proof (synonymBoosts_nonneg normalizedField nc) as Hb0.
  assert (Hcont : if contained then 0.3 <= containmentScore normalizedField nc
                  else containmentScore normalizedField nc == 0).
  { subst contained. unfold containmentScore.
    destruct (String.eqb_spec nc normalizedField) as [->|_].
    { rewrite includes_refl. simpl. lra. }
    destruct (JS.includes nc normalizedField) eqn:Ecf.
    { pose proof (lengthOf_ratio_unit _ _ (includes_length _ _ Ecf)) as [H0 _].
      rewrite orb_true_r. lra. }
    destruct (JS.includes normalizedField nc) eqn:Efc.
    { pose proof (lengthOf_ratio_unit _ _ (includes_length _ _ Efc)) as [H0 _].
      simpl. lra. }
    simpl. lra. }
  assert (Hsyn : if synonymFires normalizedField nc
                 then 0.15 <= synonymBoosts normalizedField nc
                 else synonymBoosts normalizedField nc == 0).
  { unfold synonymFires, synonymBoosts.
    destruct (JS.includes normalizedField "qty"
              && JS.includes nc "quantity"),
      (JS.includes normalizedField "uom"
       && JS.includes nc "unitofmeasure"),
      (JS.includes normalizedField "onhand" && JS.includes nc "onhand"),
      (JS.includes normalizedField "revenue" && JS.includes nc "amount"),
      (JS.includes normalizedField "customer"
       && JS.includes nc "customer"),
      (JS.includes normalizedField "sales" && JS.includes nc "sales");
      simpl; lra. }
  assert (Hfirst : if contained then 0.3 <= s
                   else if synonymFires normalizedField nc then 0.15 <= s
                   else s == 0).
  { destruct contained; [lra|].
    destruct (synonymFires normalizedField nc); lra. }
  split; [exact Hfirst|].
  destruct (JS.gt s 0) eqn:Egt.
  - apply gt_true_iff in Egt.
    destruct contained; [reflexivity|]. simpl.
    destruct (synonymFires normalizedField nc); [reflexivity | lra].
  - assert (Hle : s <= 0).
    { unfold JS.gt in Egt. apply negb_false_iff, Qle_bool_iff in Egt.
      exact Egt. }
    destruct contained; [lra|]. simpl.
    destruct (synonymFires normalizedField nc); [lra | reflexivity].
Qed.

(* ===================================================================== *)
(** ** More on the top matches and the best match *)
(* ===================================================================== *)

Lemma Qle_bool_descending {A} (key : A -> Q) x y :
  Qle_bool (descending key x y) 0 = Qle_bool (key y) (key x).
Proof.
  destruct (Qle_bool (key y) (key x)) eqn:E.
  - apply descending_le. now apply Qle_bool_iff.
  - destruct (Qle_bool (descending key x y) 0) eqn:E'; [|reflexivity].
    apply descending_le, Qle_bool_iff in E'. congruence.
Qed.

Lemma hd_error_insertSorted {A} (key : A -> Q) x l :
  hd_error (JS.insertSorted (descending key) x l)
  = Some match hd_error l with
         | None => x
         | Some y => if Qle_bool (key y) (key x) then x else y
         end.
Proof.
  destruct l as [|y l]; simpl; [reflexivity|].
  rewrite Qle_bool_descending. now destruct (Qle_bool (key y) (key x)).
Qed.

Lemma hd_error_sort {A} (key : A -> Q) l :
  hd_error (JS.sort (descending key) l) = earliestBest key l.
Proof.
  induction l as [|x l IH]; simpl; [reflexivity|].
  rewrite hd_error_insertSorted, IH.
  destruct (earliestBest key l) as [y|]; [|reflexivity].
  now destruct (Qle_bool (key y) (key x)).
Qed.

Lemma earliestBest_None {A} (key : A -> Q) l :
  earliestBest key l = None -> l = [].
Proof.
  destruct l as [|x l]; simpl; [reflexivity|].
  destruct (earliestBest key l) as [y|]; [|discriminate].
  destruct (Qle_bool (key y) (key x)); discriminate.
Qed.

Lemma earliestBest_split {A} (key : A -> Q) l : forall b,
  earliestBest key l = Some b ->
  exists l1 l2,
    l = l1 ++ b :: l2
    /\ Forall (fun a => key a < key b) l1
    /\ Forall (fun a => key a <= key b) l2.
Proof.
  induction l as [|x l IH]; intros b; simpl; [discriminate|].
  destruct (earliestBest key l) as [y|] eqn:E.
  - destruct (IH y eq_refl) as (l1 & l2 & -> & H1 & H2).
    destruct (Qle_bool (key y) (key x)) eqn:Eyx; intros [= <-].
    + apply Qle_bool_iff in Eyx.
      exists [], (l1 ++ y :: l2). split; [reflexivity|].
      split; [constructor|].
      apply Forall_app. split.
      * eapply Forall_impl; [|exact H1]. simpl. intros a Ha. lra.
      * constructor; [exact Eyx|].
        eapply Forall_impl; [|exact H2]. simpl. intros a Ha. lra.
    + assert (Hxy : key x < key y).
      { destruct (Qlt_le_dec (key x) (key y)) as [H|H]; [exact H|].
        apply Qle_bool_iff in H. congruence. }
      exists (x :: l1), l2. split; [reflexivity|].
      split; [constructor; assumption | exact H2].
  - apply earliestBest_None in E. subst l. intros [= <-].
    exists [], []. repeat split; constructor.
Qed.

Lemma filter_eq_app_cons {A} (p : A -> bool) l : forall l1 c l2,
  filter p l = l1 ++ c :: l2 ->
  exists before after,
    l = before ++ c :: after
    /\ filter p before = l1 /\ filter p after = l2 /\ p c = true.
Proof.
  induction l as [|x l IH]; intros l1 c l2; simpl.
  - destruct l1; discriminate.
  - destruct (p x) eqn:Ex.
    + destruct l1 as [|y l1]; simpl; intros [= Hx H].
      * subst c. exists [], l. repeat split; auto.
      * subst y. destruct (IH _ _ _ H) as (b & a & -> & Hb & Ha & Hc).
        exists (x :: b), a. simpl. rewrite Ex, Hb. auto.
    + intros H. destruct (IH _ _ _ H) as (b & a & -> & Hb & Ha & Hc).
      exists (x :: b), a. simpl. rewrite Ex. auto.
Qed.

Lemma getTopColumnMatches_head fieldName schema limit :
  hd_error (getTopColumnMatches fieldName schema (S limit))
  = earliestBest score
      (map (candidate (normalizeIdentifier fieldName))
         (filter (scoresAboveZero (normalizeIdentifier fieldName))
            (columns schema))).
Proof.
  rewrite getTopColumnMatches_closed_form, <- hd_error_sort.
  now destruct (JS.sort _ _).
Qed.

Lemma getTopColumnMatches_limit fieldName schema n m :
  getTopColumnMatches fieldName schema (Nat.min n m)
  = firstn n (getTopColumnMatches fieldName schema m).
Proof.
  rewrite !getTopColumnMatches_closed_form. symmetry. apply firstn_firstn.
Qed.

(** [findColumnMatch] decides on the first of the top three matches the
    evaluator looks at. *)
Lemma findColumnMatch_head fieldName schema :
  findColumnMatch fieldName schema
  = match hd_error (getTopColumnMatches fieldName schema 3) with
    | Some best =>
        if JS.ge (score best) MATCH_THRESHOLD then Some best else None
    | None => None
    end.
Proof.
  unfold findColumnMatch.
  rewrite (getTopColumnMatches_head fieldName schema 2).
  rewrite <- (getTopColumnMatches_head fieldName schema 0).
  now destruct (getTopColumnMatches fieldName schema 1).
Qed.

Lemma findColumnMatch_Some_split
    (fieldName : string) (schema : DatabaseSchema) (best : ColumnMatch) :
  findColumnMatch fieldName schema = Some best ->
  let f := normalizeIdentifier fieldName in
  score best = scoreColumnMatch f (SchemaDiscovery.column best)
  /\ MATCH_THRESHOLD <= score best
  /\ exists before after,
       columns schema = before ++ SchemaDiscovery.column best :: after
       /\ Forall (fun c => scoreColumnMatch f c < score best) before
       /\ Forall (fun c => scoreColumnMatch f c <= score best) after.
Proof.
  intros Hfind f. unfold findColumnMatch in Hfind.
  pose proof (getTopColumnMatches_head fieldName schema 0) as Hhd.
  destruct (getTopColumnMatches fieldName schema 1) as [|b rest];
    [discriminate|].
  destruct (JS.ge (score b) MATCH_THRESHOLD) eqn:Ege; [|discriminate].
  injection Hfind as ->. apply ge_true_iff in Ege.
  simpl in Hhd. symmetry in Hhd. fold f in Hhd.
  apply earliestBest_split in Hhd as (l1 & l2 & Hsplit & H1 & H2).
  apply map_eq_app in Hsplit as (p1 & p2' & Hfilter & <- & Hp2).
  destruct p2' as [|c p2]; [discriminate|]. simpl in Hp2.
  injection Hp2 as <- <-.
  apply filter_eq_app_cons in Hfilter as (before & after & Hcols & <- & <- & Hc).
  simpl. split; [reflexivity|]. split; [exact Ege|].
  exists before, after. split; [exact Hcols|].
  apply gt_true_iff in Hc.
  assert (Hlift : forall (R : Q -> Prop) l,
             (forall x, x <= 0 -> R x) ->
             Forall (fun a => R (score a))
               (map (candidate f) (filter (scoresAboveZero f) l)) ->
             Forall (fun c => R (scoreColumnMatch f c)) l).
  { intros R l HR. induction l as [|x l IH]; simpl; intros H; constructor.
    - unfold scoresAboveZero in H.
      destruct (JS.gt (scoreColumnMatch f x) 0) eqn:E.
      + now inversion H.
      + apply HR. unfold JS.gt in E.
        now apply negb_false_iff, Qle_bool_iff in E.
    - apply IH. unfold scoresAboveZero in H.
      destruct (JS.gt (scoreColumnMatch f x) 0); [now inversion H | exact H]. }
  split.
  - apply (Hlift (fun x => x < scoreColumnMatch f c)); [intros; lra | exact H1].
  - apply (Hlift (fun x => x <= scoreColumnMatch f c)); [intros; lra | exact H2].
Qed.

(** Some column reaches the threshold exactly when the best match does:
    neither the cut after [limit] matches nor the [score > 0] filter loses
    a column that reaches it. *)
Lemma findColumnMatch_reachesThreshold fieldName schema :
  match findColumnMatch fieldName schema with
  | Some _ => true
  | None => false
  end = reachesThreshold schema fieldName.
Proof.
  unfold reachesThreshold.
  destruct (findColumnMatch fieldName schema) as [best|] eqn:E.
  - symmetry. apply existsb_exists.
    apply findColumnMatch_Some_split in E
      as (Hscore & Hge & before & after & Hcols & _).
    exists (SchemaDiscovery.column best). split.
    + rewrite Hcols. apply in_elt.
    + apply ge_true_iff. now rewrite <- Hscore.
  - destruct (existsb _ (columns schema)) eqn:Ex; [|reflexivity].
    exfalso. apply existsb_exists in Ex as [c [Hc Hge]].
    apply ge_true_iff in Hge. unfold MATCH_THRESHOLD in Hge.
    unfold findColumnMatch in E.
    destruct (getTopColumnMatches_complete fieldName schema 1 c Hc)
      as [Hin|[Hlen Hall]]; [lra| |].
    + destruct (getTopColumnMatches fieldName schema 1) as [|b rest] eqn:Et;
        [destruct Hin|].
      pose proof (getTopColumnMatches_head_max _ _ _ _ _ Et) as Hmax.
      rewrite Forall_forall in Hmax. specialize (Hmax _ Hin). simpl in Hmax.
      destruct (JS.ge (score b) MATCH_THRESHOLD) eqn:Eb; [discriminate|].
      apply ge_false_iff in Eb. unfold MATCH_THRESHOLD in Eb. lra.
    + destruct (getTopColumnMatches fieldName schema 1) as [|b rest];
        [discriminate|].
      inversion Hall as [|? ? Hb _]; subst.
      destruct (JS.ge (score b) MATCH_THRESHOLD) eqn:Eb; [discriminate|].
      apply ge_false_iff in Eb. unfold MATCH_THRESHOLD in Eb. lra.
Qed.

(** When [findColumnMatch] returns a match, it is a column of the schema
    paired with its own score, the score reaches the threshold, and no
    column of the schema scores higher. When it returns null, every column
    scores below the threshold. *)
Theorem findColumnMatch_reaches_threshold_and_is_highest
    (fieldName : string) (schema : DatabaseSchema) :
  let f := normalizeIdentifier fieldName in
  match findColumnMatch fieldName schema with
  | Some best =>
      In (SchemaDiscovery.column best) (columns schema)
      /\ score best = scoreColumnMatch f (SchemaDiscovery.column best)
      /\ MATCH_THRESHOLD <= score best
      /\ Forall (fun c => scoreColumnMatch f c <= score best) (columns schema)
  | None =>
      Forall (fun c => scoreColumnMatch f c < MATCH_THRESHOLD) (columns schema)
  end.
Proof.
  intros f.
  pose proof (findColumnMatch_reachesThreshold fieldName schema) as Hreach.
  destruct (findColumnMatch fieldName schema) as [best|] eqn:E.
  - apply findColumnMatch_Some_split in E
      as (Hscore & Hge & before & after & Hcols & Hbefore & Hafter).
    fold f in Hscore, Hbefore, Hafter.
    split; [rewrite Hcols; apply in_elt|].
    split; [exact Hscore|]. split; [exact Hge|].
    rewrite Hcols. apply Forall_app. split.
    + eapply Forall_impl; [|exact Hbefore]. intros c Hc. simpl in Hc. lra.
    + constructor; [rewrite Hscore; lra | exact Hafter].
  - symmetry in Hreach. unfold reachesThreshold in Hreach.
    apply Forall_forall. intros c Hc.
    destruct (Qlt_le_dec (scoreColumnMatch f c) MATCH_THRESHOLD)
      as [Hlt|Hle]; [exact Hlt|].
    exfalso.
    assert (Hex : existsb
                    (fun c => JS.ge (scoreColumnMatch f c) MATCH_THRESHOLD)
                    (columns schema) = true).
    { apply existsb_exists. exists c. split; [exact Hc|].
      now apply ge_true_iff. }
    fold f in Hreach. rewrite Hex in Hreach. discriminate.
Qed.

Lemma classify_findColumnMatch schema field :
  classify schema field
  = match findColumnMatch field schema with
    | Some best => inl (matchedEntry field best)
    | None => inr (missingEntry schema field)
    end.
Proof.
  rewrite findColumnMatch_head. unfold classify, MATCH_THRESHOLD.
  destruct (hd_error (getTopColumnMatches field schema 3)) as [best|];
    [|reflexivity].
  now destruct (JS.ge (score best) 0.35).
Qed.

(** The matched names are, in the order of the request, the unique names
    for which some column of the schema scores at least 0.35; the missing
    names are the others, in the same order. *)
Theorem matched_names_are_those_reaching_threshold
    (schema : DatabaseSchema) (fieldNames : list string) :
  let report := evaluateFieldCoverage (Some schema) fieldNames in
  map MatchedField.name (matchedFields report)
  = filter (reachesThreshold schema) (uniqueFieldsOf fieldNames)
  /\ map MissingField.name (missingFields report)
     = filter (fun f => negb (reachesThreshold schema f))
         (uniqueFieldsOf fieldNames).
Proof.
  cbv zeta. rewrite evaluateFieldCoverage_matchedFields,
    evaluateFieldCoverage_missingFields.
  induction (uniqueFieldsOf fieldNames) as [|f fs [IH1 IH2]]; simpl;
    [auto|].
  rewrite classify_findColumnMatch, <- findColumnMatch_reachesThreshold.
  destruct (findColumnMatch f schema); simpl; rewrite IH1, IH2; auto.
Qed.

(* ===================================================================== *)
(** ** More on the coverage evaluator *)
(* ===================================================================== *)

Lemma Number_toFixed_1_at_least (k : Z) (x : Q) :
  (0 <= k)%Z -> inject_Z k <= x -> inject_Z k <= JS.Number_toFixed x 1.
Proof.
  intros Hk Hx.
  assert (H0 : 0 <= inject_Z k).
  { change 0 with (inject_Z 0). now rewrite <- Zle_Qle. }
  unfold JS.Number_toFixed.
  destruct (JS.gt 0 x) eqn:Eneg.
  { apply gt_true_iff in Eneg. lra. }
  destruct (Qle_bool (inject_Z (10 ^ 21)) x); [exact Hx|].
  change (inject_Z (10 ^ Z.of_nat 1)) with (inject_Z 10).
  apply Qle_shift_div_l; [reflexivity|].
  rewrite <- inject_Z_mult, <- Zle_Qle.
  rewrite <- (Qfloor_Z (k * 10)). apply Qfloor_resp_le.
  rewrite inject_Z_mult.
  change (inject_Z 10) with (10 # 1). lra.
Qed.

Lemma exact_name_score f c :
  normalizeIdentifier (columnName c) = f -> 1.3 <= scoreColumnMatch f c.
Proof.
  intros <-. rewrite scoreColumnMatch_sum.
  pose proof (synonymBoosts_nonneg (normalizeIdentifier (columnName c))
                (normalizeIdentifier (columnName c))) as Hb.
  unfold containmentScore. rewrite String.eqb_refl, includes_refl. simpl.
  lra.
Qed.

Lemma findColumnMatch_dominates fieldName schema best c :
  findColumnMatch fieldName schema = Some best ->
  In c (columns schema) ->
  scoreColumnMatch (normalizeIdentifier fieldName) c <= score best.
Proof.
  intros Hfind Hc.
  apply findColumnMatch_Some_split in Hfind
    as (Hscore & _ & before & after & Hcols & Hb & Ha).
  rewrite Hcols in Hc. apply in_app_or in Hc as [Hc|[<-|Hc]].
  - rewrite Forall_forall in Hb. specialize (Hb c Hc). simpl in Hb. lra.
  - rewrite Hscore. lra.
  - rewrite Forall_forall in Ha. apply (Ha c Hc).
Qed.

(** A requested name that normalizes to the normalized name of some
    column of the schema is always matched, with a confidence of at least
    130. *)
Theorem exact_name_is_always_matched
    (schema : DatabaseSchema) (fieldNames : list string)
    (field : string) (c : TableColumn) :
  In field (uniqueFieldsOf fieldNames) ->
  In c (columns schema) ->
  normalizeIdentifier field = normalizeIdentifier (columnName c) ->
  exists m,
    In m (matchedFields (evaluateFieldCoverage (Some schema) fieldNames))
    /\ MatchedField.name m = field
    /\ 130 <= MatchedField.confidence m.
Proof.
  intros Hfield Hc Hname.
  pose proof (exact_name_score _ c (eq_sym Hname)) as Hscore.
  destruct (findColumnMatch field schema) as [best|] eqn:Efind.
  - exists (matchedEntry field best).
    pose proof (findColumnMatch_dominates _ _ _ c Efind Hc) as Hdom.
    split; [|split; [reflexivity|]].
    + rewrite evaluateFieldCoverage_matchedFields, in_lefts, in_map_iff.
      exists field. split; [|exact Hfield].
      now rewrite classify_findColumnMatch, Efind.
    + simpl. change 130 with (inject_Z 130).
      apply Number_toFixed_1_at_least; [lia|].
      change (inject_Z 130) with 130. lra.
  - exfalso.
    pose proof (findColumnMatch_reachesThreshold field schema) as Hr.
    rewrite Efind in Hr. symmetry in Hr. unfold reachesThreshold in Hr.
    assert (Hex : existsb
                    (fun c0 =>
                       JS.ge (scoreColumnMatch (normalizeIdentifier field) c0)
                         MATCH_THRESHOLD) (columns schema) = true).
    { apply existsb_exists. exists c. split; [exact Hc|].
      apply ge_true_iff. unfold MATCH_THRESHOLD. lra. }
    congruence.
Qed.

Lemma exact_name_is_always_matched_witness :
  exists m,
    In m (matchedFields
            (evaluateFieldCoverage (Some generateMockDatabaseSchema)
               [" case SIZE "]%string))
    /\ MatchedField.name m = "case SIZE"%string
    /\ 130 <= MatchedField.confidence m.
Proof.
  apply (exact_name_is_always_matched generateMockDatabaseSchema
           [" case SIZE "]%string "case SIZE"
           (mkColumn "Items" "CaseSize" "int" false false false None None)).
  - vm_compute. left. reflexivity.
  - vm_compute. tauto.
  - reflexivity.
Defined.

Lemma Math_round_full_ratio (u : nat) :
  JS.Math_round
    (inject_Z (Z.of_nat (S u)) / inject_Z (Z.of_nat (S u)) * 100) = 100%Z.
Proof.
  unfold JS.Math_round.
  assert (Hpos : ~ inject_Z (Z.of_nat (S u)) == 0).
  { intros H. assert (0 < inject_Z (Z.of_nat (S u))).
    { change 0 with (inject_Z 0). rewrite <- Zlt_Qlt. lia. }
    lra. }
  assert (E : inject_Z (Z.of_nat (S u)) / inject_Z (Z.of_nat (S u)) * 100
              + (1 # 2) == 201 # 2).
  { field. exact Hpos. }
  now rewrite E.
Qed.

(** With a schema present, the percentage is 100 whenever no field is
    missing, and 0 whenever no field is matched although at least one
    unique field was requested. *)
Theorem coverage_percent_extremes
    (schema : DatabaseSchema) (fieldNames : list string) :
  let report := evaluateFieldCoverage (Some schema) fieldNames in
  match missingFields report with
  | [] => coveragePercent report = 100%Z
  | _ :: _ => True
  end
  /\ match matchedFields report, uniqueFieldsOf fieldNames with
     | [], _ :: _ => coveragePercent report = 0%Z
     | _, _ => True
     end.
Proof.
  cbv zeta.
  pose proof (lefts_rights_length
                (map (classify schema) (uniqueFieldsOf fieldNames))) as Hlen.
  rewrite length_map in Hlen.
  rewrite evaluateFieldCoverage_coveragePercent,
    evaluateFieldCoverage_matchedFields, evaluateFieldCoverage_missingFields.
  split.
  - destruct (rights _) as [|e es]; [|exact I]. simpl in Hlen.
    rewrite Nat.add_0_r in Hlen. rewrite Hlen.
    destruct (length (uniqueFieldsOf fieldNames)); [reflexivity|].
    apply Math_round_full_ratio.
  - destruct (lefts _) as [|m ms]; [|exact I].
    destruct (uniqueFieldsOf fieldNames) as [|f fs] eqn:Eu; [exact I|].
    simpl length. apply Math_round_zero_ratio.
Qed.

Lemma trimEnd_idempotent s : JS.trimEnd (JS.trimEnd s) = JS.trimEnd s.
Proof.
  induction s as [|c s IH]; simpl; [reflexivity|].
  destruct (JS.isWhiteSpace c && String.eqb (JS.trimEnd s) "") eqn:E;
    [reflexivity|].
  simpl. now rewrite IH, E.
Qed.

Lemma trimStart_fixed s :
  match s with
  | EmptyString => True
  | String c _ => JS.isWhiteSpace c = false
  end ->
  JS.trimStart s = s.
Proof. destruct s as [|c s]; simpl; [reflexivity|]. now intros ->. Qed.

Lemma trimStart_head s :
  match JS.trimStart s with
  | EmptyString => True
  | String c _ => JS.isWhiteSpace c = false
  end.
Proof.
  induction s as [|c s IH]; simpl; [exact I|].
  destruct (JS.isWhiteSpace c) eqn:E; [exact IH | exact E].
Qed.

Lemma trimEnd_head s :
  match s with
  | EmptyString => True
  | String c _ => JS.isWhiteSpace c = false
  end ->
  match JS.trimEnd s with
  | EmptyString => True
  | String c _ => JS.isWhiteSpace c = false
  end.
Proof.
  destruct s as [|c s]; simpl; [auto|].
  intros E. now rewrite E.
Qed.

Lemma trim_idempotent s : JS.trim (JS.trim s) = JS.trim s.
Proof.
  unfold JS.trim.
  rewrite (trimStart_fixed (JS.trimEnd (JS.trimStart s))).
  - apply trimEnd_idempotent.
  - apply trimEnd_head, trimStart_head.
Qed.

Lemma setInsertAll_NoDup l : forall seen,
  List.NoDup (rev seen ++ l) -> JS.setInsertAll seen l = rev seen ++ l.
Proof.
  induction l as [|x l IH]; intros seen Hnd; simpl.
  - now rewrite app_nil_r.
  - assert (Hx : ~ In x seen).
    { apply NoDup_remove_2 in Hnd. intros Hin. apply Hnd.
      apply in_or_app. left. now apply in_rev in Hin. }
    destruct (existsb (String.eqb x) seen) eqn:E.
    + apply existsb_eqb_In in E. contradiction.
    + rewrite IH; simpl; rewrite <- app_assoc; [reflexivity | exact Hnd].
Qed.

Lemma uniqueFieldsOf_idempotent fieldNames :
  uniqueFieldsOf (uniqueFieldsOf fieldNames) = uniqueFieldsOf fieldNames.
Proof.
  assert (Hfix : forall l,
             (forall x, In x l -> JS.trim x = x /\ x <> ""%string) ->
             filter JS.Boolean (map JS.trim l) = l).
  { induction l as [|x l IH]; intros H; simpl; [reflexivity|].
    destruct (H x (or_introl eq_refl)) as [-> Hne].
    unfold JS.Boolean at 1. apply String.eqb_neq in Hne. rewrite Hne. simpl.
    f_equal. apply IH. intros y Hy. apply H. now right. }
  unfold uniqueFieldsOf at 1. rewrite Hfix.
  - apply (setInsertAll_NoDup _ []). apply uniqueFieldsOf_NoDup.
  - intros x Hx. apply uniqueFieldsOf_In in Hx as [Hx Hne].
    split; [|exact Hne].
    apply in_map_iff in Hx as [y [<- _]]. apply trim_idempotent.
Qed.

Lemma setInsertAll_app l1 : forall seen l2,
  JS.setInsertAll seen (l1 ++ l2)
  = JS.setInsertAll (rev (JS.setInsertAll seen l1)) l2.
Proof.
  induction l1 as [|x l1 IH]; intros seen l2; simpl.
  - now rewrite rev_involutive.
  - destruct (existsb (String.eqb x) seen); apply IH.
Qed.

Lemma setInsertAll_all_seen l : forall seen,
  (forall x, In x l -> In x seen) -> JS.setInsertAll seen l = rev seen.
Proof.
  induction l as [|x l IH]; intros seen H; simpl; [reflexivity|].
  assert (E : existsb (String.eqb x) seen = true).
  { apply existsb_eqb_In, H. now left. }
  rewrite E. apply IH. intros y Hy. apply H. now right.
Qed.

Lemma Array_from_Set_app_repeats l1 l2 :
  (forall x, In x l2 -> In x l1) ->
  JS.Array_from_Set (l1 ++ l2) = JS.Array_from_Set l1.
Proof.
  intros H. unfold JS.Array_from_Set.
  rewrite setInsertAll_app, setInsertAll_all_seen.
  - apply rev_involutive.
  - intros x Hx. apply in_rev. rewrite rev_involutive.
    apply (setInsertAll_spec l1 [] (NoDup_nil _)). right. now apply H.
Qed.

(** Submitting the unique trimmed names of a request gives the same report
    as the request itself: de-duplication and trimming are idempotent. *)
Theorem evaluateFieldCoverage_of_unique_names
    (schema : DatabaseSchema) (fieldNames : list string) :
  uniqueFieldsOf (uniqueFieldsOf fieldNames) = uniqueFieldsOf fieldNames
  /\ evaluateFieldCoverage (Some schema) (uniqueFieldsOf fieldNames)
     = evaluateFieldCoverage (Some schema) fieldNames.
Proof.
  split; [apply uniqueFieldsOf_idempotent|].
  apply evaluateFieldCoverage_reads_columns_and_unique_names;
    [reflexivity | apply uniqueFieldsOf_idempotent].
Qed.

(** Names added at the end of a request that are blank, or that repeat an
    earlier name up to surrounding white space, change nothing in the
    report. *)
Theorem repeated_and_blank_names_are_ignored
    (schema : DatabaseSchema) (fieldNames more : list string) :
  (forall x, In x more ->
             JS.trim x = ""%string
             \/ In (JS.trim x) (map JS.trim fieldNames)) ->
  evaluateFieldCoverage (Some schema) (fieldNames ++ more)
  = evaluateFieldCoverage (Some schema) fieldNames.
Proof.
  intros H.
  apply evaluateFieldCoverage_reads_columns_and_unique_names;
    [reflexivity|].
  unfold uniqueFieldsOf. rewrite map_app, filter_app.
  apply Array_from_Set_app_repeats.
  intros x Hx. apply filter_In in Hx as [Hx Hne].
  apply filter_In. split; [|exact Hne].
  apply in_map_iff in Hx as [y [<- Hy]].
  destruct (H y Hy) as [E|Hin]; [|exact Hin].
  rewrite E in Hne. discriminate Hne.
Qed.

Lemma repeated_and_blank_names_are_ignored_witness :
  evaluateFieldCoverage (Some generateMockDatabaseSchema)
    (["Location"; "Case Size"]%string
     ++ ["  "; " Location"; "Case Size "]%string)
  = evaluateFieldCoverage (Some generateMockDatabaseSchema)
      ["Location"; "Case Size"]%string.
Proof.
  apply (repeated_and_blank_names_are_ignored generateMockDatabaseSchema
           ["Location"; "Case Size"]%string
           ["  "; " Location"; "Case Size "]%string).
  intros x [<-|[<-|[<-|[]]]]; vm_compute; tauto.
Defined.

Lemma sort_of_level_list {A} (key : A -> Q) l :
  (forall a b, In a l -> In b l -> key b <= key a) ->
  JS.sort (descending key) l = l.
Proof.
  induction l as [|x l IH]; intros H; simpl; [reflexivity|].
  rewrite IH by (intros a b Ha Hb; apply H; now right).
  destruct l as [|y l]; simpl; [reflexivity|].
  rewrite Qle_bool_descending.
  assert (E : Qle_bool (key y) (key x) = true).
  { apply Qle_bool_iff, H; simpl; auto. }
  now rewrite E.
Qed.

Lemma score_of_empty_field c :
  scoreColumnMatch "" c
  == if String.eqb (normalizeIdentifier (columnName c)) "" then 1.3 else 0.3.
Proof.
  rewrite scoreColumnMatch_sum.
  assert (Hb : synonymBoosts "" (normalizeIdentifier (columnName c)) == 0).
  { unfold synonymBoosts. simpl. reflexivity. }
  rewrite Hb. unfold containmentScore.
  destruct (normalizeIdentifier (columnName c)) as [|a n]; simpl.
  - reflexivity.
  - unfold lengthOf. simpl. unfold Qdiv. ring.
Qed.

Lemma toLowerCaseChar_alnum c :
  isLowerAlnum (JS.toLowerCaseChar c) = isAsciiAlnum c.
Proof. destruct c as [[] [] [] [] [] [] [] []]; vm_compute; reflexivity. Qed.

(** Lower-casing brings no character into [[a-z0-9]] from outside
    [[A-Za-z0-9]]: a name normalizes to the empty string exactly when it
    has no character of [[A-Za-z0-9]]. *)
Lemma normalizeIdentifier_empty s :
  normalizeIdentifier s = ""%string <-> hasAsciiAlnum s = false.
Proof.
  unfold normalizeIdentifier.
  induction s as [|c s IH]; simpl; [tauto|].
  fold (isLowerAlnum (JS.toLowerCaseChar c)).
  rewrite toLowerCaseChar_alnum.
  destruct (isAsciiAlnum c); simpl; [|exact IH].
  split; discriminate.
Qed.

(** A requested name with no character of [[A-Za-z0-9]] normalizes to the
    empty string, which every column name contains, so every column whose
    name has a character of [[A-Za-z0-9]] scores 0.3. In a schema whose
    column names all have such a character, the name is therefore reported
    missing, and its suggestions are the first three columns of the
    schema. *)
Theorem name_without_alphanumerics_is_missing
    (schema : DatabaseSchema) (fieldNames : list string) (field : string) :
  In field (uniqueFieldsOf fieldNames) ->
  hasAsciiAlnum field = false ->
  Forall (fun c => hasAsciiAlnum (columnName c) = true) (columns schema) ->
  normalizeIdentifier field = ""%string
  /\ In (MissingField.mk field
           (map qualifiedName (firstn 3 (columns schema))))
        (missingFields (evaluateFieldCoverage (Some schema) fieldNames))
  /\ Forall (fun c => scoreColumnMatch (normalizeIdentifier field) c == 0.3)
       (columns schema).
Proof.
  intros Hfield Hplain Hnamed.
  assert (Hnorm : normalizeIdentifier field = ""%string)
    by now apply normalizeIdentifier_empty.
  assert (Hcols : forall c, In c (columns schema) ->
                            normalizeIdentifier (columnName c) <> ""%string).
  { intros c Hc Hempty. apply normalizeIdentifier_empty in Hempty.
    rewrite Forall_forall in Hnamed. rewrite (Hnamed c Hc) in Hempty.
    discriminate. }
  assert (Hscore : forall c, In c (columns schema) ->
                             scoreColumnMatch "" c == 0.3).
  { intros c Hc. rewrite score_of_empty_field.
    apply Hcols, String.eqb_neq in Hc. now rewrite Hc. }
  split; [exact Hnorm|].
  split; [|rewrite Hnorm; now apply Forall_forall].
  assert (Htop : getTopColumnMatches field schema 3
                 = map (candidate "") (firstn 3 (columns schema))).
  { rewrite getTopColumnMatches_closed_form, Hnorm.
    replace (filter (scoresAboveZero "") (columns schema))
      with (columns schema).
    - rewrite sort_of_level_list; [apply firstn_map|].
      intros a b Ha Hb.
      apply in_map_iff in Ha as [ca [<- Ha]].
      apply in_map_iff in Hb as [cb [<- Hb]].
      simpl. rewrite (Hscore ca Ha), (Hscore cb Hb). lra.
    - symmetry. apply forallb_filter_id. apply forallb_forall.
      intros c Hc. apply gt_true_iff. rewrite (Hscore c Hc). lra. }
  rewrite evaluateFieldCoverage_missingFields, in_rights, in_map_iff.
  exists field. split; [|exact Hfield].
  unfold classify. rewrite Htop.
  destruct (firstn 3 (columns schema)) as [|c0 rest] eqn:E3; simpl.
  - reflexivity.
  - assert (Hc0 : In c0 (columns schema)).
    { apply (in_firstn_in 3). rewrite E3. now left. }
    assert (Hlow : JS.ge (scoreColumnMatch "" c0) 0.35 = false).
    { apply ge_false_iff. rewrite (Hscore c0 Hc0). lra. }
    rewrite Hlow. f_equal. f_equal. rewrite map_map. reflexivity.
Qed.

Lemma name_without_alphanumerics_is_missing_witness :
  normalizeIdentifier "?!" = ""%string
  /\ In (MissingField.mk "?!"
           (map qualifiedName
              (firstn 3 (columns generateMockDatabaseSchema))))
        (missingFields
           (evaluateFieldCoverage (Some generateMockDatabaseSchema)
              ["Location"; " ?! "]%string)).
Proof.
  destruct (name_without_alphanumerics_is_missing generateMockDatabaseSchema
              ["Location"; " ?! "]%string "?!") as (H1 & H2 & _).
  - vm_compute. tauto.
  - reflexivity.
  - apply Forall_forall. intros c Hc. vm_compute in Hc.
    repeat (destruct Hc as [<-|Hc]; [vm_compute; reflexivity|]).
    destruct Hc.
  - split; [exact H1 | exact H2].
Defined.

(* ===================================================================== *)
(** ** The pool, the list of databases and the procedures *)
(* ===================================================================== *)

Lemma getDbCalls_connected calls pool :
  Db.getDbCalls calls (Some pool) = ([], Some pool).
Proof.
  induction calls as [|[env connect] calls IH]; simpl; [reflexivity|].
  now rewrite IH.
Qed.

Lemma getDbCalls_app calls1 calls2 _pool :
  Db.getDbCalls (calls1 ++ calls2) _pool
  = let (events1, mid) := Db.getDbCalls calls1 _pool in
    let (events2, final) := Db.getDbCalls calls2 mid in
    (events1 ++ events2, final).
Proof.
  revert _pool. induction calls1 as [|[env connect] calls1 IH];
    intros _pool; simpl.
  - now destruct (Db.getDbCalls calls2 _pool).
  - destruct (Db.getDb env connect _pool) as [events mid].
    rewrite IH.
    destruct (Db.getDbCalls calls1 mid) as [events1 mid'].
    destruct (Db.getDbCalls calls2 mid') as [events2 final].
    now rewrite app_assoc.
Qed.

(** Once some call of [getDb] has obtained a pool, every later call
    returns that same pool without a connection attempt and without a
    warning, whatever the environment variables and the server are by
    then. *)
Theorem getDb_reuses_the_pool
    (calls later : list (Db.Env * (Db.Config -> result Db.Pool)))
    (_pool : option Db.Pool) (pool : Db.Pool) :
  snd (Db.getDbCalls calls _pool) = Some pool ->
  Db.getDbCalls (calls ++ later) _pool = Db.getDbCalls calls _pool.
Proof.
  intros H. rewrite getDbCalls_app.
  destruct (Db.getDbCalls calls _pool) as [events mid]. simpl in H.
  subst mid. rewrite getDbCalls_connected. now rewrite app_nil_r.
Qed.

Lemma getDb_reuses_the_pool_witness :
  Db.getDbCalls
    ([(emptyEnv, refusingServer); (fullEnv, refusingServer);
      (fullEnv, acceptingServer)]
     ++ [(emptyEnv, refusingServer); (fullEnv, refusingServer)]) None
  = Db.getDbCalls
      [(emptyEnv, refusingServer); (fullEnv, refusingServer);
       (fullEnv, acceptingServer)] None.
Proof.
  apply (getDb_reuses_the_pool
           [(emptyEnv, refusingServer); (fullEnv, refusingServer);
            (fullEnv, acceptingServer)]
           [(emptyEnv, refusingServer); (fullEnv, refusingServer)]
           None dbPool).
  reflexivity.
Defined.

Lemma getDb_refused env connect :
  (forall config, rejected (connect config) = true) ->
  snd (Db.getDb env connect None) = None
  /\ length (filter isConnect (fst (Db.getDb env connect None)))
     = if completeEnv env then 1%nat else 0%nat.
Proof.
  intros Hrej. unfold Db.getDb, completeEnv.
  destruct (Db.unset (Db.SQLSERVER_HOST env)
            || Db.unset (Db.SQLSERVER_DATABASE env)
            || Db.unset (Db.SQLSERVER_USER env)
            || Db.unset (Db.SQLSERVER_PASSWORD env)); simpl; [auto|].
  match goal with
  | |- context [connect ?c] =>
      specialize (Hrej c); destruct (connect c) as [pool|error]
  end; [discriminate Hrej | auto].
Qed.

(** A failed attempt is not remembered: while the server refuses every
    connection, the module variable stays empty and every call made with a
    complete environment tries to connect once more; calls made with an
    incomplete environment do not try. *)
Theorem getDb_retries_while_refused
    (calls : list (Db.Env * (Db.Config -> result Db.Pool))) :
  Forall (fun call => forall config, rejected (snd call config) = true)
    calls ->
  snd (Db.getDbCalls calls None) = None
  /\ length (filter isConnect (fst (Db.getDbCalls calls None)))
     = length (filter (fun call => completeEnv (fst call)) calls).
Proof.
  induction 1 as [|[env connect] calls Hrej _ [IH1 IH2]];
    [simpl; auto|].
  cbn [Db.getDbCalls].
  destruct (getDb_refused env connect Hrej) as [Hnone Hcount].
  destruct (Db.getDb env connect None) as [events mid].
  cbn [fst snd] in *. subst mid.
  destruct (Db.getDbCalls calls None) as [events' final].
  cbn [fst snd] in *.
  split; [exact IH1|]. cbn [filter].
  rewrite filter_app, length_app, Hcount, IH2. cbn [fst].
  now destruct (completeEnv env).
Qed.

Lemma getDb_retries_while_refused_witness :
  length
    (filter isConnect
       (fst (Db.getDbCalls
               [(fullEnv, refusingServer); (emptyEnv, refusingServer);
                (fullEnv, refusingServer)] None)))
  = 2%nat.
Proof.
  apply (getDb_retries_while_refused
           [(fullEnv, refusingServer); (emptyEnv, refusingServer);
            (fullEnv, refusingServer)]).
  repeat constructor.
Defined.

(** The list offered by [report.customerDatabases] is never empty: it is
    the names [getAllDatabases] read, and the single name [SampleInventory]
    when there is no pool, when the request is rejected, and when it
    returns no row. *)
Theorem customerDatabases_never_empty (pool : option Db.Pool) :
  let databases :=
    Procedures.customerDatabases (snd (Db.getAllDatabases pool)) in
  databases <> []
  /\ databases
     = match pool with
       | None => ["SampleInventory"%string]
       | Some p =>
           match
             Db.queryDatabases p
               "SELECT name FROM sys.databases WHERE database_id > 4 ORDER BY name"
           with
           | Ok (row :: rows) => map Db.name (row :: rows)
           | _ => ["SampleInventory"%string]
           end
       end.
Proof.
  cbv zeta. unfold Db.getAllDatabases.
  destruct pool as [p|]; [|split; [discriminate | reflexivity]].
  destruct (Db.queryDatabases p _) as [[|row rows]|error]; simpl;
    split; try discriminate; reflexivity.
Qed.

Lemma groupByTable_loop cols table :
  forall acc : gmap string (list TableColumn),
  fold_left
    (fun acc col =>
       let next := default [] (acc !! tableName col) in
       <[ tableName col := next ++ [col] ]> acc)
    cols acc !! table
  = match filter (fun c => String.eqb (tableName c) table) cols with
    | [] => acc !! table
    | found => Some (default [] (acc !! table) ++ found)
    end.
Proof.
  induction cols as [|x cols IH]; intros acc; simpl; [reflexivity|].
  rewrite IH. destruct (String.eqb_spec (tableName x) table) as [->|Hne].
  - rewrite lookup_insert_eq. simpl.
    destruct (filter _ cols); [reflexivity|].
    now rewrite <- app_assoc.
  - now rewrite lookup_insert_ne.
Qed.

(** Grouping by table loses no column and keeps the schema order: what
    the map holds for a table is the list of the columns of that table. *)
Lemma groupByTable_lookup schema table :
  default [] (Procedures.groupByTable (columns schema) !! table)
  = columnsOfTable schema table.
Proof.
  unfold Procedures.groupByTable, columnsOfTable.
  rewrite groupByTable_loop, lookup_empty.
  now destruct (filter _ (columns schema)).
Qed.

Lemma string_app_eq_nil (a b : string) :
  a +:+ b = ""%string -> a = ""%string.
Proof. destruct a; [reflexivity | discriminate]. Qed.

Lemma describeColumn_not_empty col :
  Procedures.describeColumn col <> ""%string.
Proof.
  unfold Procedures.describeColumn. intros H.
  destruct (columnName col); [|discriminate H].
  discriminate H.
Qed.

Lemma join_not_empty separator x l :
  x <> ""%string -> Procedures.join separator (x :: l) <> ""%string.
Proof.
  intros Hx. destruct l as [|y l]; simpl; [exact Hx|].
  intros H. apply string_app_eq_nil in H. contradiction.
Qed.

Lemma tableLine_closed_form schema table :
  Procedures.tableLine (Procedures.groupByTable (columns schema)) table
  = table +:+ ": "
    +:+ match columnsOfTable schema table with
        | [] => "columns not available"
        | found =>
            Procedures.join ", "
              (map Procedures.describeColumn (firstn 6 found))
        end.
Proof.
  unfold Procedures.tableLine, JS.slice0.
  rewrite groupByTable_lookup.
  destruct (columnsOfTable schema table) as [|c found]; [reflexivity|].
  cbn [firstn map]. unfold JS.Boolean.
  pose proof (join_not_empty ", " (Procedures.describeColumn c)
                (map Procedures.describeColumn (firstn 5 found))
                (describeColumn_not_empty c)) as Hne.
  apply String.eqb_neq in Hne. now rewrite Hne.
Qed.

(** The summary has one line for each of the first twelve tables, in the
    order of [schema.tables], and one more line exactly when there are
    more than twelve tables. The line of a table lists the first six of
    its columns in schema order, and says that columns are not available
    exactly when the table has no column in [schema.columns]. *)
Theorem summarizeSchema_lines (schema : DatabaseSchema) :
  let lines := Procedures.summaryLines schema in
  let tableCount := length (tables schema) in
  length lines
  = (Nat.min 12 tableCount + if (12 <? tableCount)%nat then 1 else 0)%nat
  /\ firstn 12 lines
     = map
         (fun table =>
            table +:+ ": "
            +:+ match columnsOfTable schema table with
                | [] => "columns not available"
                | found =>
                    Procedures.join ", "
                      (map Procedures.describeColumn (firstn 6 found))
                end)
         (firstn 12 (tables schema))
  /\ skipn 12 lines
     = if (12 <? tableCount)%nat then
         ["...and " +:+ JS.numberToString (Z.of_nat tableCount - 12)
          +:+ " more tables"]
       else [].
Proof.
  cbv zeta. unfold Procedures.summaryLines, JS.slice0.
  rewrite (map_ext _ _ (tableLine_closed_form schema)).
  set (line := fun table => _).
  assert (Hlen : length (firstn 12 (tables schema))
                 = Nat.min 12 (length (tables schema)))
    by apply length_firstn.
  assert (Hmap : length (map line (firstn 12 (tables schema)))
                 = Nat.min 12 (length (tables schema)))
    by now rewrite length_map.
  rewrite Hlen.
  destruct (Nat.ltb_spec 12 (length (tables schema))) as [Hgt|Hle].
  - replace (Nat.min 12 (length (tables schema))) with 12%nat in * by lia.
    destruct (Nat.ltb_spec 12 (length (tables schema))) as [_|Hc]; [|lia].
    split; [rewrite length_app, Hmap; simpl; lia|]. split.
    + rewrite firstn_app, Hmap, Nat.sub_diag. simpl.
      rewrite app_nil_r. apply firstn_all2. lia.
    + rewrite skipn_app, Hmap, Nat.sub_diag. simpl.
      rewrite skipn_all2 by lia. reflexivity.
  - replace (Nat.min 12 (length (tables schema)))
      with (length (tables schema)) in * by lia.
    rewrite Nat.ltb_irrefl.
    split; [rewrite Hmap; lia|]. split.
    + apply firstn_all2. lia.
    + apply skipn_all2. lia.
Qed.

Lemma discovered_schema_consistent db databaseName schema :
  snd (discoverDatabaseSchema db databaseName) = Ok (Some schema) ->
  forallb referenceConsistent (columns schema) = true.
Proof.
  intros H.
  destruct (discoverDatabaseSchema_outcome db databaseName)
    as [E|(t & c & p & f & E)]; rewrite E in H; injection H as <-.
  - vm_compute. reflexivity.
  - simpl. apply forallb_forall. intros col Hcol.
    apply in_map_iff in Hcol as [row [<- _]].
    apply columnOfRow_referenceConsistent.
Qed.

(** [report.getFieldMetadata] never takes its empty-array branches: for
    every connection and name it returns one entry per column of the
    discovered schema, in order, and causes no event of its own. The
    description of a foreign-key column names its real reference, never
    [undefined]; a primary-key column that is not a foreign key is
    described as [Primary key]; any other column has no description. *)
Theorem getFieldMetadata_describes_every_column
    (db : option ConnectionPool) (databaseName : string) :
  match snd (discoverDatabaseSchema db databaseName) with
  | Ok (Some schema) =>
      Procedures.getFieldMetadata db databaseName
      = (fst (discoverDatabaseSchema db databaseName),
         map Procedures.fieldMetadataOfColumn (columns schema))
      /\ Forall
           (fun col =>
              Procedures.FieldMetadata.description
                (Procedures.fieldMetadataOfColumn col)
              = match referencedTable col, referencedColumn col with
                | Some table, Some column =>
                    Some ("References " +:+ table +:+ "." +:+ column)
                | _, _ =>
                    if isPrimaryKey col then Some "Primary key"%string
                    else None
                end)
           (columns schema)
  | _ => False
  end.
Proof.
  destruct (discoverDatabaseSchema_always_fulfilled db databaseName)
    as [schema E].
  rewrite E.
  pose proof (discovered_schema_consistent _ _ _ E) as Hcons.
  split.
  - unfold Procedures.getFieldMetadata.
    destruct (discoverDatabaseSchema db databaseName) as [events outcome].
    simpl in E. now subst outcome.
  - apply Forall_forall. intros col Hcol.
    rewrite forallb_forall in Hcons. specialize (Hcons col Hcol).
    unfold referenceConsistent in Hcons.
    unfold Procedures.fieldMetadataOfColumn.
    cbn [Procedures.FieldMetadata.description].
    destruct (isForeignKey col), (referencedTable col),
      (referencedColumn col); try discriminate Hcons; reflexivity.
Qed.

(** The promise of [discoverDatabaseSchema] never rejects and never holds
    [null]. It is fulfilled with the schema assembled from the four record
    sets when there is a connection, the name is accepted and all four
    requests succeed, and with the mock schema in every other case. *)
Theorem discoverDatabaseSchema_outcome_is_assembled_or_mock
    (db : option ConnectionPool) (databaseName : string) :
  exists schema,
    snd (discoverDatabaseSchema db databaseName) = Ok (Some schema)
    /\ schema
       = match db with
         | Some pool =>
             if JS.testOneOrMore isWordOrHyphen databaseName then
               let dbIdentifier := "[" +:+ databaseName +:+ "]" in
               match queryTables pool (tablesQuery dbIdentifier),
                     queryColumns pool (columnsQuery dbIdentifier),
                     queryPrimaryKeys pool (primaryKeysQuery dbIdentifier),
                     queryForeignKeys pool (foreignKeysQuery dbIdentifier)
               with
               | Ok tablesResult, Ok columnsResult, Ok pkResult, Ok fkResult =>
                   assembleSchema tablesResult columnsResult pkResult
                     fkResult
               | _, _, _, _ => generateMockDatabaseSchema
               end
             else generateMockDatabaseSchema
         | None => generateMockDatabaseSchema
         end.
Proof.
  unfold discoverDatabaseSchema, discoverTryBlock.
  destruct db as [pool|]; [|eauto].
  rewrite formatIdentifier_closed_form.
  destruct (JS.testOneOrMore isWordOrHyphen databaseName).
  - cbv zeta.
    destruct (queryTables pool _), (queryColumns pool _),
      (queryPrimaryKeys pool _), (queryForeignKeys pool _);
      simpl; eauto.
  - destruct (String.eqb databaseName ""); simpl; eauto.
Qed.

Lemma Number_toFixed_1_rounding (x : Q) :
  0 <= x -> x < inject_Z (10 ^ 21) ->
  exists n : Z,
    JS.Number_toFixed x 1 == inject_Z n / 10
    /\ x - 0.05 < JS.Number_toFixed x 1 <= x + 0.05.
Proof.
  intros H0 Hbig. unfold JS.Number_toFixed.
  destruct (JS.gt 0 x) eqn:Eneg.
  { apply gt_true_iff in Eneg. lra. }
  destruct (Qle_bool (inject_Z (10 ^ 21)) x) eqn:E.
  { apply Qle_bool_iff in E. lra. }
  change (inject_Z (10 ^ Z.of_nat 1)) with (inject_Z 10).
  change (inject_Z 10) with 10.
  exists (Qfloor (x * 10 + (1 # 2))). split; [reflexivity|].
  pose proof (Qfloor_le (x * 10 + (1 # 2))) as Hle.
  pose proof (Qlt_floor (x * 10 + (1 # 2))) as Hlt.
  rewrite inject_Z_plus in Hlt. change (inject_Z 1) with 1 in Hlt.
  set (k := inject_Z (Qfloor (x * 10 + (1 # 2)))) in *.
  assert (Hdiv : k / 10 * 10 == k) by (field; discriminate).
  split.
  - apply Qlt_shift_div_l; [reflexivity | lra].
  - apply Qle_shift_div_r; [reflexivity | lra].
Qed.

Lemma Number_toFixed_1_at_most (k : Z) (x : Q) :
  0 <= x -> x <= inject_Z k -> JS.Number_toFixed x 1 <= inject_Z k.
Proof.
  intros H0 Hx. unfold JS.Number_toFixed.
  destruct (JS.gt 0 x) eqn:Eneg.
  { apply gt_true_iff in Eneg. lra. }
  destruct (Qle_bool (inject_Z (10 ^ 21)) x); [exact Hx|].
  change (inject_Z (10 ^ Z.of_nat 1)) with (inject_Z 10).
  apply Qle_shift_div_r; [reflexivity|].
  pose proof (Qfloor_le (x * inject_Z 10 + (1 # 2))) as Hfl.
  rewrite <- inject_Z_mult, <- Zle_Qle.
  assert (Hlt : inject_Z (Qfloor (x * inject_Z 10 + (1 # 2)))
                < inject_Z (k * 10 + 1)).
  { rewrite inject_Z_plus, inject_Z_mult.
    change (inject_Z 10) with (10 # 1) in *.
    change (inject_Z 1) with 1. lra. }
  rewrite <- Zlt_Qlt in Hlt. lia.
Qed.

Lemma scoreColumnMatch_bounds f c : 0 <= scoreColumnMatch f c <= 2.45.
Proof.
  rewrite scoreColumnMatch_sum.
  pose proof (containmentScore_range f (normalizeIdentifier (columnName c)))
    as [H1 H2].
  pose proof (synonymBoosts_range f (normalizeIdentifier (columnName c)))
    as [H3 H4].
  split; lra.
Qed.

Lemma Number_toFixed_1_nearest_tenth (x : Q) :
  0 <= x -> x < inject_Z (10 ^ 21) ->
  exists n : Z,
    JS.Number_toFixed x 1 == inject_Z n / 10
    /\ x - 0.05 <= JS.Number_toFixed x 1 <= x + 0.05.
Proof.
  intros H0 Hbig.
  destruct (Number_toFixed_1_rounding x H0 Hbig) as [n [Hn [Hlo Hhi]]].
  exists n. split; [exact Hn|]. split; [lra | exact Hhi].
Qed.

(** The confidence of a matched field is a whole number of tenths between
    35 and 245, and it lies within 0.05 of 100 times the highest score any
    column of the schema has for the name. *)
Theorem matched_confidence_is_rounded_score
    (schema : DatabaseSchema) (fieldNames : list string)
    (m : MatchedField.t) :
  In m (matchedFields (evaluateFieldCoverage (Some schema) fieldNames)) ->
  let f := normalizeIdentifier (MatchedField.name m) in
  35 <= MatchedField.confidence m <= 245
  /\ (exists tenths : Z, MatchedField.confidence m == inject_Z tenths / 10)
  /\ exists c,
       In c (columns schema)
       /\ Forall (fun c' => scoreColumnMatch f c' <= scoreColumnMatch f c)
            (columns schema)
       /\ scoreColumnMatch f c * 100 - 0.05 <= MatchedField.confidence m
          <= scoreColumnMatch f c * 100 + 0.05.
Proof.
  rewrite evaluateFieldCoverage_matchedFields, in_lefts, in_map_iff.
  intros [field [Hc _]].
  rewrite classify_findColumnMatch in Hc.
  destruct (findColumnMatch field schema) as [best|] eqn:Efind;
    [|discriminate].
  injection Hc as <-. cbn [matchedEntry MatchedField.confidence
                            MatchedField.name].
  destruct (findColumnMatch_Some_split _ _ _ Efind)
    as (Hscore & Hge & before & after & Hcols & Hbefore & Hafter).
  pose proof (scoreColumnMatch_bounds (normalizeIdentifier field)
                (SchemaDiscovery.column best)) as [_ Hup].
  rewrite <- Hscore in Hup. unfold MATCH_THRESHOLD in Hge.
  destruct (Number_toFixed_1_nearest_tenth (score best * 100))
    as [n [Hn Hr]].
  { lra. }
  { apply Qle_lt_trans with 245; [lra | reflexivity]. }
  split; [split|split].
  - change 35 with (inject_Z 35).
    apply Number_toFixed_1_at_least; [lia|].
    change (inject_Z 35) with 35. lra.
  - change 245 with (inject_Z 245).
    apply Number_toFixed_1_at_most; [lra|].
    change (inject_Z 245) with 245. lra.
  - exists n. exact Hn.
  - exists (SchemaDiscovery.column best). rewrite <- Hscore.
    split; [rewrite Hcols; apply in_elt|]. split; [|exact Hr].
    rewrite Hcols. apply Forall_app. split.
    + eapply Forall_impl; [|exact Hbefore]. intros c Hc. simpl in Hc. lra.
    + constructor; [cbv beta; rewrite <- ?Hscore; lra | exact Hafter].
Qed.

Lemma matched_confidence_is_rounded_score_witness :
  35 <= MatchedField.confidence
          (MatchedField.mk "Case" "Items.CaseSize" 80.0) <= 245.
Proof.
  apply (matched_confidence_is_rounded_score generateMockDatabaseSchema
           ["Case"; "Nonexistent Field"]%string
           (MatchedField.mk "Case" "Items.CaseSize" 80.0)).
  vm_compute. left. reflexivity.
Defined.
